(** * Node-side volume lifecycle of the OpenEBS CSI driver

    Shallow embedding of
    - the list builder, first part of [pkg/volume/v1alpha1/buildlist.go]:
      [NewListBuilder], [ListBuilderFrom], [List], [WithFilter];
    - the CSI node server, second part of
      [pkg/volume/v1alpha1/buildlist.go]: [NodePublishVolume],
      [NodeUnpublishVolume];
    - package utils: [init], [parseEndpoint], [WaitForVolumeToBeReachable],
      [WaitForVolumeToBeReady], [GetVolumeByName], [GetVolumeDetails],
      [listContains], [verifyMountOpts], [MonitorMounts],
      [WaitForVolumeReadyAndReachable], [RemountVolume].

    The Go code is goroutine code with [goto] labels, package-level maps
    guarded by mutexes, and calls into Kubernetes, the kernel and iscsiadm.
    It is embedded as follows.
    - Package-level state ([Volumes], [ReqMountList]) and the [*CSIVolume]
      objects the map points to live in a [World]; pointers are indices into
      the list of allocated objects, so that aliasing is kept.
    - Every call that leaves the process is answered by an environment [Env],
      a function of the history of effects so far; every effect (external
      call with its answer, lock operation, sleep, write to a shared map or
      through a pointer) is appended to the [log] of the world. Calls to
      logrus are left out.
    - Each function that takes part in the concurrent protocol is a labelled
      state machine ([publish_step], [unpublish_step], [monitor_step],
      [remount_step]): a program counter per lock region or blocking call,
      one monadic step per region. Running a machine alone gives the
      sequential function ([NodePublishVolume], [NodeUnpublishVolume],
      [MonitorMounts_tick], [RemountVolume]); interleaving the machines gives
      the concurrent system ([step]). *)

From Stdlib Require Import Ascii DecimalString.
From stdpp Require Import gmap strings list fin_maps.

Open Scope Z_scope.
Open Scope string_scope.
Open Scope list_scope.

(** ** Data model *)

Definition error := string.

(** Modelled from the spec: the declaration of [apis.CSIVolume] is not among
    the sources; the fields are the ones utils.go and node.go read and write
    ([vol.Spec.Volume.*] and [vol.Spec.ISCSI.*], the VolumeState of the
    specification). *)
Record VolumeInfo := {
  Name : string;
  Capacity : string;
  FSType : string;
  AccessModes : list string;
  MountPath : string;
  MountOptions : list string;
  ReadOnly : bool;
  DevicePath : string;
}.

Record ISCSIInfo := {
  Iqn : string;
  TargetPortal : string;
  IscsiInterface : string;
  Lun : string;
}.

Record CSIVolume := {
  Volume : VolumeInfo;
  ISCSI : ISCSIInfo;
}.

(** The zero value [apis.CSIVolume{}]. *)
Definition CSIVolume_zero : CSIVolume :=
  {| Volume := {| Name := ""; Capacity := ""; FSType := ""; AccessModes := [];
                  MountPath := ""; MountOptions := []; ReadOnly := false;
                  DevicePath := "" |};
     ISCSI := {| Iqn := ""; TargetPortal := ""; IscsiInterface := ""; Lun := "" |} |}.

(** [vol.Spec.Volume.DevicePath = devicePath] *)
Definition with_DevicePath (devicePath : string) (v : CSIVolume) : CSIVolume :=
  {| Volume := {| Name := Name (Volume v); Capacity := Capacity (Volume v);
                  FSType := FSType (Volume v);
                  AccessModes := AccessModes (Volume v);
                  MountPath := MountPath (Volume v);
                  MountOptions := MountOptions (Volume v);
                  ReadOnly := ReadOnly (Volume v);
                  DevicePath := devicePath |};
     ISCSI := ISCSI v |}.

(** The part of a PersistentVolume that [GetVolumeDetails] reads. *)
Record PersistentVolume := {
  pvCapacityStorage : string;          (* pv.Spec.Capacity[storage].String() *)
  pvAccessModes : list string;
  pvFSType : string;                   (* pv.Spec.CSI.FSType *)
  pvVolumeAttributes : gmap string string;
}.

(** [mount.MountPoint] of k8s.io/kubernetes/pkg/util/mount. *)
Record MountPoint := {
  Device : string;
  Path : string;
  Type_ : string;                      (* the Go field Type *)
  Opts : list string;
}.

(** Pointers to [CSIVolume] objects: indices into the list of objects. *)
Abbreviation loc := nat (only parsing).

(** gRPC status codes the node server returns. *)
Inductive Code := InvalidArgument | Internal | Unimplemented.

(** What a CSI verb returns: the empty response with a nil error, or a nil
    response with [status.Error(code, msg)]. *)
Inductive Response :=
| OK
| Error (c : Code) (msg : string).

Record NodePublishVolumeRequest := {
  VolumeId : string;
  TargetPath : string;
  (* req.GetVolumeCapability(): nil, or a capability whose GetMount() is nil
     or carries the mount flags *)
  VolumeCapability : option (option (list string));
  Readonly : bool;
}.

Record NodeUnpublishVolumeRequest := {
  UnpublishVolumeId : string;
  UnpublishTargetPath : string;
}.

(** Arguments of [go RemountVolume(exists, vol, mountPoint, desiredMountOpt)]. *)
Record RemountArgs := {
  r_exists : bool;
  r_vol : loc;
  r_mountPoint : option MountPoint;
  r_desiredMountOpt : string;
}.

Inductive Mutex := VolumesListLock | ReqMountListLock.

(** ** Effects *)

Inductive Event :=
| EvLock (m : Mutex)
| EvUnlock (m : Mutex)
| EvRLock (m : Mutex)
| EvRUnlock (m : Mutex)
| EvSleep (seconds : Z)
| EvFetchPVDetails (volumeID : string) (res : error + PersistentVolume)
| EvGetVolStatus (volumeID : string) (res : error + string)
| EvDial (targetPortal : string) (res : option error)
| EvDeleteOldCSIVolumeCR (vol : CSIVolume) (nodeID : string) (res : option error)
| EvCreateCSIVolumeCR (vol : CSIVolume) (nodeID mountPath : string) (res : option error)
| EvDeleteCSIVolumeCR (vol : CSIVolume) (res : option error)
| EvChmod (mountPath : string) (mode : Z) (res : option error)
| EvAttachAndMountDisk (vol : CSIVolume) (res : string * option error)
| EvUnmountAndDetachDisk (vol : CSIVolume) (path : string) (res : option error)
| EvMounterList (res : list MountPoint)
| EvUnmount (path : string) (res : option error)
| EvMount (device path fstype : string) (options : list string) (res : option error)
| EvGo (args : RemountArgs)
(* writes to the package-level maps and through a *CSIVolume *)
| EvVolumesStore (volumeID : string) (vol : loc)
| EvVolumesDelete (volumeID : string)
| EvSetDevicePath (vol : loc) (devicePath : string)
| EvReqMountStore (name : string)
| EvReqMountDelete (name : string).

(** The collaborators outside the given sources: the Kubernetes clients of
    package utils ([FetchPVDetails], [getVolStatus], the CSIVolume CR
    helpers), package iscsi, the kernel ([net.Dial], [os.Chmod], the
    mounter). Each answers from the history of effects and its arguments. *)
Record Env := {
  env_FetchPVDetails : list Event → string → error + PersistentVolume;
  env_getVolStatus : list Event → string → error + string;
  env_Dial : list Event → string → option error;
  env_DeleteOldCSIVolumeCR : list Event → CSIVolume → string → option error;
  env_CreateCSIVolumeCR : list Event → CSIVolume → string → string → option error;
  env_DeleteCSIVolumeCR : list Event → CSIVolume → option error;
  env_Chmod : list Event → string → Z → option error;
  env_AttachAndMountDisk : list Event → CSIVolume → string * option error;
  env_UnmountAndDetachDisk : list Event → CSIVolume → string → option error;
  env_mounterList : list Event → list MountPoint;
  env_Unmount : list Event → string → option error;
  env_Mount : list Event → string → string → string → list string → option error;
}.

Record World := {
  (* utils.Volumes : map[string]*apis.CSIVolume *)
  Volumes : gmap string loc;
  (* the CSIVolume objects allocated so far; a pointer is an index *)
  objects : list CSIVolume;
  (* utils.ReqMountList : map[string]bool *)
  ReqMountList : gmap string bool;
  log : list Event;
}.

Definition M (A : Type) : Type := World → A * World.

Definition ret {A} (a : A) : M A := λ w, (a, w).
Definition bind {A B} (c : M A) (k : A → M B) : M B :=
  λ w, let (a, w') := c w in k a w'.

Notation "'let*' x ':=' c 'in' k" := (bind c (λ x, k))
  (at level 10, x name, c at level 100, k at level 200).
Notation "c '>>' k" := (bind c (λ _, k))
  (at level 100, k at level 200, right associativity).

Definition emit (e : Event) : M unit :=
  λ w, (tt, {| Volumes := Volumes w; objects := objects w;
               ReqMountList := ReqMountList w; log := log w ++ [e] |}).

Definition Lock (m : Mutex) : M unit := emit (EvLock m).
Definition Unlock (m : Mutex) : M unit := emit (EvUnlock m).
Definition RLock (m : Mutex) : M unit := emit (EvRLock m).
Definition RUnlock (m : Mutex) : M unit := emit (EvRUnlock m).

(** [time.Sleep(seconds * time.Second)] *)
Definition time_Sleep (seconds : Z) : M unit := emit (EvSleep seconds).

(** [&vol] of a fresh struct: a new object, a new pointer. *)
Definition new_CSIVolume (v : CSIVolume) : M loc :=
  λ w, (length (objects w),
        {| Volumes := Volumes w; objects := objects w ++ [v];
           ReqMountList := ReqMountList w; log := log w |}).

(** [*vol] *)
Definition load (vol : loc) : M CSIVolume :=
  λ w, (default CSIVolume_zero (objects w !! vol), w).

(** [Volumes[volumeID]] with the comma-ok form *)
Definition Volumes_lookup (volumeID : string) : M (option loc) :=
  λ w, (Volumes w !! volumeID, w).

(** [Volumes[volumeID] = vol] *)
Definition Volumes_store (volumeID : string) (vol : loc) : M unit :=
  λ w, (tt, {| Volumes := <[volumeID := vol]> (Volumes w); objects := objects w;
               ReqMountList := ReqMountList w;
               log := log w ++ [EvVolumesStore volumeID vol] |}).

(** [delete(Volumes, volumeID)] *)
Definition Volumes_delete (volumeID : string) : M unit :=
  λ w, (tt, {| Volumes := delete volumeID (Volumes w); objects := objects w;
               ReqMountList := ReqMountList w;
               log := log w ++ [EvVolumesDelete volumeID] |}).

(** [vol.Spec.Volume.DevicePath = devicePath] *)
Definition store_DevicePath (vol : loc) (devicePath : string) : M unit :=
  λ w, (tt, {| Volumes := Volumes w;
               objects := alter (with_DevicePath devicePath) vol (objects w);
               ReqMountList := ReqMountList w;
               log := log w ++ [EvSetDevicePath vol devicePath] |}).

(** [_, isRemounting := ReqMountList[name]] *)
Definition ReqMountList_lookup (name : string) : M (option bool) :=
  λ w, (ReqMountList w !! name, w).

(** [ReqMountList[name] = true] *)
Definition ReqMountList_store (name : string) : M unit :=
  λ w, (tt, {| Volumes := Volumes w; objects := objects w;
               ReqMountList := <[name := true]> (ReqMountList w);
               log := log w ++ [EvReqMountStore name] |}).

(** [delete(ReqMountList, name)] *)
Definition ReqMountList_delete (name : string) : M unit :=
  λ w, (tt, {| Volumes := Volumes w; objects := objects w;
               ReqMountList := delete name (ReqMountList w);
               log := log w ++ [EvReqMountDelete name] |}).

(** An external call: ask the environment at the current history, record
    the call with its answer. *)
Definition call {A} (answer : list Event → A) (ev : A → Event) : M A :=
  λ w, let a := answer (log w) in
       (a, {| Volumes := Volumes w; objects := objects w;
              ReqMountList := ReqMountList w; log := log w ++ [ev a] |}).

(** ** Package utils *)

Definition VolumeWaitTimeout : Z := 2.
Definition VolumeWaitRetryCount : Z := 6.
Definition MonitorMountRetryTimeout : Z := 5.

Section Driver.

Variable env : Env.

Definition FetchPVDetails (volumeID : string) : M (error + PersistentVolume) :=
  call (λ h, env_FetchPVDetails env h volumeID) (EvFetchPVDetails volumeID).

Definition getVolStatus (volumeID : string) : M (error + string) :=
  call (λ h, env_getVolStatus env h volumeID) (EvGetVolStatus volumeID).

(** [net.Dial("tcp", targetPortal)]; on success the connection is closed at
    once. *)
Definition net_Dial (targetPortal : string) : M (option error) :=
  call (λ h, env_Dial env h targetPortal) (EvDial targetPortal).

Definition DeleteOldCSIVolumeCR (vol : CSIVolume) (nodeID : string) : M (option error) :=
  call (λ h, env_DeleteOldCSIVolumeCR env h vol nodeID)
       (EvDeleteOldCSIVolumeCR vol nodeID).

Definition CreateCSIVolumeCR (vol : CSIVolume) (nodeID mountPath : string) : M (option error) :=
  call (λ h, env_CreateCSIVolumeCR env h vol nodeID mountPath)
       (EvCreateCSIVolumeCR vol nodeID mountPath).

Definition DeleteCSIVolumeCR (vol : CSIVolume) : M (option error) :=
  call (λ h, env_DeleteCSIVolumeCR env h vol) (EvDeleteCSIVolumeCR vol).

Definition AttachAndMountDisk (vol : CSIVolume) : M (string * option error) :=
  call (λ h, env_AttachAndMountDisk env h vol) (EvAttachAndMountDisk vol).

Definition UnmountAndDetachDisk (vol : CSIVolume) (path : string) : M (option error) :=
  call (λ h, env_UnmountAndDetachDisk env h vol path)
       (EvUnmountAndDetachDisk vol path).

Definition mounter_List : M (list MountPoint) :=
  call (λ h, env_mounterList env h) EvMounterList.

Definition mounter_Unmount (path : string) : M (option error) :=
  call (λ h, env_Unmount env h path) (EvUnmount path).

Definition mounter_Mount (device path fstype : string) (options : list string)
  : M (option error) :=
  call (λ h, env_Mount env h device path fstype options)
       (EvMount device path fstype options).

(** [ChmodMountPath]: [os.Chmod(mountPath, 0000)] *)
Definition ChmodMountPath (mountPath : string) : M (option error) :=
  call (λ h, env_Chmod env h mountPath 0) (EvChmod mountPath 0).

(** [WaitForVolumeToBeReachable]: the [for] loop, one iteration per unit of
    fuel; [None] when the fuel runs out. *)
Fixpoint WaitForVolumeToBeReachable_loop (fuel : nat) (targetPortal : string)
    (retries : Z) : M (option (option error)) :=
  match fuel with
  | O => ret None
  | S fuel' =>
      let* r := net_Dial targetPortal in
      match r with
      | None => ret (Some None)
      | Some err =>
          time_Sleep VolumeWaitTimeout >>
          let retries := retries + 1 in
          if decide (retries >= VolumeWaitRetryCount) then
            ret (Some (Some ("iSCSI Target not reachable, TargetPortal "
                             +:+ targetPortal +:+ ", err:" +:+ err)))
          else WaitForVolumeToBeReachable_loop fuel' targetPortal retries
      end
  end.

(** [VolumeWaitRetryCount] iterations always suffice
    ([WaitForVolumeToBeReachable_loop_total]). *)
Definition WaitForVolumeToBeReachable (targetPortal : string) : M (option error) :=
  let* r := WaitForVolumeToBeReachable_loop (Z.to_nat VolumeWaitRetryCount)
              targetPortal 0 in
  ret (default (Some "unreachable: loop bound exceeded") r).

(** [WaitForVolumeToBeReady]: the [checkVolumeStatus] label with its [goto],
    one pass per unit of fuel. *)
Fixpoint checkVolumeStatus (fuel : nat) (volumeID : string) (retries : Z)
  : M (option (option error)) :=
  match fuel with
  | O => ret None
  | S fuel' =>
      let* r := getVolStatus volumeID in
      match r with
      | inl err => ret (Some (Some err))
      | inr volStatus =>
          if decide (volStatus = "Healthy" ∨ volStatus = "Degraded") then
            ret (Some None)
          else if decide (retries >= VolumeWaitRetryCount) then
            ret (Some (Some "Volume is not ready: Replicas yet to connect to controller"))
          else
            time_Sleep VolumeWaitTimeout >>
            checkVolumeStatus fuel' volumeID (retries + 1)
      end
  end.

(** [VolumeWaitRetryCount + 1] passes always suffice
    ([checkVolumeStatus_total]). *)
Definition WaitForVolumeToBeReady (volumeID : string) : M (option error) :=
  let* r := checkVolumeStatus (Z.to_nat (VolumeWaitRetryCount + 1)) volumeID 0 in
  ret (default (Some "unreachable: loop bound exceeded") r).

(** [GetVolumeDetails] *)
Definition GetVolumeDetails (volumeID mountPath : string) (readOnly : bool)
    (mountOptions : list string) : M (error + loc) :=
  let* r := FetchPVDetails volumeID in
  match r with
  | inl err => ret (inl err)
  | inr pv =>
      let attr k := default "" (pvVolumeAttributes pv !! k) in
      let* vol := new_CSIVolume
        {| Volume := {| Name := volumeID;
                        Capacity := pvCapacityStorage pv;
                        FSType := pvFSType pv;
                        AccessModes := pvAccessModes pv;
                        MountPath := mountPath;
                        MountOptions := mountOptions;
                        ReadOnly := readOnly;
                        DevicePath := "" |};
           ISCSI := {| Iqn := attr "iqn";
                       TargetPortal := attr "targetPortal";
                       IscsiInterface := attr "iscsiInterface";
                       Lun := attr "lun" |} |} in
      ret (inr vol)
  end.

(** [listContains] *)
Fixpoint listContains (mountPath : string) (list : list MountPoint)
  : option MountPoint * bool :=
  match list with
  | [] => (None, false)
  | info :: list' =>
      if decide (Path info = mountPath) then (Some info, true)
      else listContains mountPath list'
  end.

(** [verifyMountOpts] *)
Fixpoint verifyMountOpts (opts : list string) (desiredOpt : string) : bool :=
  match opts with
  | [] => false
  | opt :: opts' =>
      if decide (opt = desiredOpt) then true else verifyMountOpts opts' desiredOpt
  end.

(** ** The node server: [NodePublishVolume]

    Program counters: the entry, the label [verifyPublish] (with the local
    [reVerified]), the sleep before [goto verifyPublish], the three regions
    after the lock is released, the return. *)
Inductive PublishPC :=
| NPV_entry
| NPV_verifyPublish (vol : loc) (reVerified : bool)
| NPV_sleep (vol : loc)
| NPV_chmod (vol : loc)
| NPV_attach (vol : loc)
| NPV_setDevicePath (vol : loc) (devicePath : string)
| NPV_return (resp : Response).

Definition publish_step (nodeID : string) (req : NodePublishVolumeRequest)
    (pc : PublishPC) : M PublishPC :=
  let mountPath := TargetPath req in
  let volumeID := VolumeId req in
  match pc with
  | NPV_entry =>
      match VolumeCapability req with
      | None =>
          ret (NPV_return (Error InvalidArgument "Volume capability missing in request"))
      | Some cap =>
          if decide (String.length (VolumeId req) = O) then
            ret (NPV_return (Error InvalidArgument "Volume ID missing in request"))
          else
            let mountOptions := default [] cap in
            let* r := GetVolumeDetails volumeID mountPath (Readonly req) mountOptions in
            match r with
            | inl err => ret (NPV_return (Error Internal err))
            | inr vol =>
                let* r := WaitForVolumeToBeReady volumeID in
                match r with
                | Some err => ret (NPV_return (Error Internal err))
                | None =>
                    let* v := load vol in
                    let* r := WaitForVolumeToBeReachable (TargetPortal (ISCSI v)) in
                    match r with
                    | Some err => ret (NPV_return (Error Internal err))
                    | None => ret (NPV_verifyPublish vol false)
                    end
                end
            end
      end
  | NPV_verifyPublish vol reVerified =>
      Lock VolumesListLock >>
      let* r := Volumes_lookup volumeID in
      match r with
      | Some info =>
          let* i := load info in
          if decide (DevicePath (Volume i) ≠ "") then
            Unlock VolumesListLock >>
            ret (NPV_return OK)
          else
            Unlock VolumesListLock >>
            if negb reVerified then ret (NPV_sleep vol)
            else ret (NPV_return (Error Internal "Mount under progress"))
      | None =>
          let* v := load vol in
          let* r := DeleteOldCSIVolumeCR v nodeID in
          match r with
          | Some err =>
              Unlock VolumesListLock >>
              ret (NPV_return (Error Internal err))
          | None =>
              let* r := CreateCSIVolumeCR v nodeID mountPath in
              match r with
              | Some err =>
                  Unlock VolumesListLock >>
                  ret (NPV_return (Error Internal err))
              | None =>
                  Volumes_store volumeID vol >>
                  Unlock VolumesListLock >>
                  ret (NPV_chmod vol)
              end
          end
      end
  | NPV_sleep vol =>
      time_Sleep (VolumeWaitRetryCount * VolumeWaitTimeout) >>
      ret (NPV_verifyPublish vol true)
  | NPV_chmod vol =>
      let* v := load vol in
      let* r := ChmodMountPath (MountPath (Volume v)) in
      match r with
      | Some err => ret (NPV_return (Error Internal err))
      | None => ret (NPV_attach vol)
      end
  | NPV_attach vol =>
      let* v := load vol in
      let* r := AttachAndMountDisk v in
      match r with
      | (_, Some err) => ret (NPV_return (Error Internal err))
      | (devicePath, None) => ret (NPV_setDevicePath vol devicePath)
      end
  | NPV_setDevicePath vol devicePath =>
      Lock VolumesListLock >>
      store_DevicePath vol devicePath >>
      Unlock VolumesListLock >>
      ret (NPV_return OK)
  | NPV_return resp => ret (NPV_return resp)
  end.

Fixpoint run_publish (fuel : nat) (nodeID : string)
    (req : NodePublishVolumeRequest) (pc : PublishPC) : M PublishPC :=
  match fuel, pc with
  | _, NPV_return _ => ret pc
  | O, _ => ret pc
  | S fuel', _ =>
      let* pc' := publish_step nodeID req pc in
      run_publish fuel' nodeID req pc'
  end.

Definition response_of_publish (pc : PublishPC) : option Response :=
  match pc with NPV_return resp => Some resp | _ => None end.

(** The handler run alone. Seven regions are the longest path (entry, verify,
    sleep, verify, chmod, attach, set); [NodePublishVolume_returns] shows
    that the result is never [None]. *)
Definition NodePublishVolume (nodeID : string) (req : NodePublishVolumeRequest)
  : M (option Response) :=
  let* pc := run_publish 7 nodeID req NPV_entry in
  ret (response_of_publish pc).

(** ** The node server: [NodeUnpublishVolume] *)
Inductive UnpublishPC :=
| NUV_entry
| NUV_unmount (vol : loc)
| NUV_deleteCR (vol : loc)
| NUV_return (resp : Response).

Definition unpublish_step (req : NodeUnpublishVolumeRequest) (pc : UnpublishPC)
  : M UnpublishPC :=
  let targetPath := UnpublishTargetPath req in
  let volumeID := UnpublishVolumeId req in
  match pc with
  | NUV_entry =>
      if decide (String.length (UnpublishVolumeId req) = O) then
        ret (NUV_return (Error InvalidArgument "Volume ID missing in request"))
      else if decide (String.length (UnpublishTargetPath req) = O) then
        ret (NUV_return (Error InvalidArgument "Target path missing in request"))
      else
        Lock VolumesListLock >>
        let* r := Volumes_lookup volumeID in
        match r with
        | None =>
            Unlock VolumesListLock >>
            ret (NUV_return OK)
        | Some vol =>
            Volumes_delete volumeID >>
            Unlock VolumesListLock >>
            ret (NUV_unmount vol)
        end
  | NUV_unmount vol =>
      let* v := load vol in
      let* r := UnmountAndDetachDisk v (UnpublishTargetPath req) in
      match r with
      | Some err => ret (NUV_return (Error Internal err))
      | None => ret (NUV_deleteCR vol)
      end
  | NUV_deleteCR vol =>
      let* v := load vol in
      let* r := DeleteCSIVolumeCR v in
      match r with
      | Some err => ret (NUV_return (Error Internal err))
      | None => ret (NUV_return OK)
      end
  | NUV_return resp => ret (NUV_return resp)
  end.

Fixpoint run_unpublish (fuel : nat) (req : NodeUnpublishVolumeRequest)
    (pc : UnpublishPC) : M UnpublishPC :=
  match fuel, pc with
  | _, NUV_return _ => ret pc
  | O, _ => ret pc
  | S fuel', _ =>
      let* pc' := unpublish_step req pc in
      run_unpublish fuel' req pc'
  end.

Definition response_of_unpublish (pc : UnpublishPC) : option Response :=
  match pc with NUV_return resp => Some resp | _ => None end.

Definition NodeUnpublishVolume (req : NodeUnpublishVolumeRequest)
  : M (option Response) :=
  let* pc := run_unpublish 3 req NUV_entry in
  ret (response_of_unpublish pc).

(** ** Package utils: [MonitorMounts]

    Program counters: the [select] on the ticker; the [for ... range Volumes]
    loop under the read lock, with the mount list [mlist] of this tick (the local [list]) and the
    volumes still to visit; the point where the volume passed all checks and
    [ReqMountListLock] is about to be taken; the [go] statement.

    [order] is the order in which [range] hands out the entries of
    [Volumes] on this tick. A step returns the goroutine it started, if
    any. *)
Inductive MonitorPC :=
| MM_ticker
| MM_range (mlist : list MountPoint) (rest : list loc)
| MM_mark (mlist : list MountPoint) (rest : list loc) (vol : loc)
    (exists_ : bool) (mountPoint : option MountPoint)
| MM_go (mlist : list MountPoint) (rest : list loc) (vol : loc)
    (exists_ : bool) (mountPoint : option MountPoint).

Definition monitor_step (order : list loc) (pc : MonitorPC)
  : M (MonitorPC * option RemountArgs) :=
  match pc with
  | MM_ticker =>
      let* mlist := mounter_List in
      RLock VolumesListLock >>
      ret (MM_range mlist order, None)
  | MM_range mlist [] =>
      RUnlock VolumesListLock >>
      ret (MM_ticker, None)
  | MM_range mlist (vol :: rest) =>
      let* v := load vol in
      if decide (DevicePath (Volume v) = "") then
        ret (MM_range mlist rest, None)
      else
        let '(mountPoint, exists_) := listContains (MountPath (Volume v)) mlist in
        (* mountPoint.Opts is only read when exists is true, and then
           listContains returned a mount point *)
        if exists_ && from_option (λ mp, verifyMountOpts (Opts mp) "rw") false mountPoint
        then ret (MM_range mlist rest, None)
        else
          let* r := ReqMountList_lookup (Name (Volume v)) in
          match r with
          | Some _ => ret (MM_range mlist rest, None)
          | None => ret (MM_mark mlist rest vol exists_ mountPoint, None)
          end
  | MM_mark mlist rest vol exists_ mountPoint =>
      let* v := load vol in
      Lock ReqMountListLock >>
      ReqMountList_store (Name (Volume v)) >>
      Unlock ReqMountListLock >>
      ret (MM_go mlist rest vol exists_ mountPoint, None)
  | MM_go mlist rest vol exists_ mountPoint =>
      let* v := load vol in
      let args := {| r_exists := exists_; r_vol := vol;
                     r_mountPoint := mountPoint;
                     r_desiredMountOpt := MountPath (Volume v) |} in
      emit (EvGo args) >>
      ret (MM_range mlist rest, Some args)
  end.

Fixpoint run_monitor (fuel : nat) (pc : MonitorPC)
  : M (MonitorPC * list RemountArgs) :=
  match fuel, pc with
  | _, MM_ticker => ret (pc, [])
  | O, _ => ret (pc, [])
  | S fuel', _ =>
      let* r := monitor_step [] pc in
      let* r' := run_monitor fuel' r.1 in
      ret (r'.1, option_list r.2 ++ r'.2)
  end.

(** One tick of [MonitorMounts] run alone: from the ticker firing to the
    release of the read lock; returns the goroutines started. *)
Definition MonitorMounts_tick (order : list loc) : M (MonitorPC * list RemountArgs) :=
  let* r := monitor_step order MM_ticker in
  run_monitor (3 * length order + 1)%nat r.1.

(** ** Package utils: [RemountVolume]

    Program counters: one pass of the [for] loop of
    [WaitForVolumeReadyAndReachable]; the unmount and mount, or the attach;
    the removal from [ReqMountList]; the return. [RV_panic] is the nil
    dereference of [mountPoint.Path] when the function is called with
    [exists] and no mount point. *)
Inductive RemountPC :=
| RV_wait
| RV_remount
| RV_clear (devicePath : string) (err : option error)
| RV_return (devicePath : string) (err : option error)
| RV_panic.

Definition remount_step (args : RemountArgs) (pc : RemountPC) : M RemountPC :=
  let vol := r_vol args in
  match pc with
  | RV_wait =>
      let* v := load vol in
      let* r := WaitForVolumeToBeReady (Name (Volume v)) in
      match r with
      | Some err => ret RV_wait
      | None =>
          let* v := load vol in
          let* r := WaitForVolumeToBeReachable (TargetPortal (ISCSI v)) in
          match r with
          | None => ret RV_remount
          | Some err => ret RV_wait
          end
      end
  | RV_remount =>
      if r_exists args then
        match r_mountPoint args with
        | None => ret RV_panic
        | Some mountPoint =>
            mounter_Unmount (Path mountPoint) >>
            let* err := mounter_Mount (Device mountPoint) (Path mountPoint) "" ["rw"] in
            ret (RV_clear "" err)
        end
      else
        let* v := load vol in
        let* r := AttachAndMountDisk v in
        ret (RV_clear r.1 r.2)
  | RV_clear devicePath err =>
      Lock ReqMountListLock >>
      let* v := load vol in
      ReqMountList_delete (Name (Volume v)) >>
      Unlock ReqMountListLock >>
      ret (RV_return devicePath err)
  | RV_return devicePath err => ret (RV_return devicePath err)
  | RV_panic => ret RV_panic
  end.

Fixpoint run_remount (fuel : nat) (args : RemountArgs) (pc : RemountPC)
  : M RemountPC :=
  match fuel, pc with
  | _, RV_return _ _ => ret pc
  | _, RV_panic => ret pc
  | O, _ => ret pc
  | S fuel', _ =>
      let* pc' := remount_step args pc in
      run_remount fuel' args pc'
  end.

(** [RemountVolume] run alone for at most [fuel] regions; the wait for the
    volume has no bound in the source. The result is the pair the Go
    function returns, or [None] while it has not returned. *)
Definition RemountVolume (fuel : nat) (args : RemountArgs)
  : M (option (string * option error)) :=
  let* pc := run_remount fuel args RV_wait in
  ret (match pc with RV_return devicePath err => Some (devicePath, err) | _ => None end).

End Driver.

(** ** Worlds that differ by a trace *)

(** [with_log w tr]: [w] after the effects [tr], none of which writes the
    shared maps or an object. *)
Definition with_log (w : World) (tr : list Event) : World :=
  {| Volumes := Volumes w; objects := objects w;
     ReqMountList := ReqMountList w; log := log w ++ tr |}.

(** The effects of one failed dial, and of one status that is not ready. *)
Definition dial_failed (targetPortal err : string) : list Event :=
  [EvDial targetPortal (Some err); EvSleep 2].

Definition status_not_ready (volumeID volStatus : string) : list Event :=
  [EvGetVolStatus volumeID (inr volStatus); EvSleep 2].

Definition ready (volStatus : string) : Prop :=
  volStatus = "Healthy" ∨ volStatus = "Degraded".

Definition unreachable_error (targetPortal err : string) : error :=
  "iSCSI Target not reachable, TargetPortal " +:+ targetPortal +:+ ", err:" +:+ err.

Definition not_ready_error : error :=
  "Volume is not ready: Replicas yet to connect to controller".

(** What the entry region of [NodePublishVolume] may do: ask Kubernetes for
    the volume, probe, sleep between probes. *)
Definition is_probe (e : Event) : Prop :=
  match e with
  | EvFetchPVDetails _ _ | EvGetVolStatus _ _ | EvDial _ _ | EvSleep _ => True
  | _ => False
  end.

(** The world [init()] leaves behind. *)
Definition World_init : World :=
  {| Volumes := ∅; objects := []; ReqMountList := ∅; log := [] |}.

(** ** The goroutines of the node plugin

    One goroutine per CSI call in flight (started by the gRPC server), one
    per [go RemountVolume(...)], and the one goroutine that runs
    [MonitorMounts], started once when the node plugin starts. A step of
    the system is one region of one goroutine, or the gRPC server starting
    a handler. A region that takes [VolumesListLock] for writing runs only
    while [MonitorMounts] does not hold it for reading, which it does from
    the ticker firing to the end of its [range] loop. The regions are
    atomic: the critical sections because of their lock; the entry region
    of [NodePublishVolume] and the waits of [RemountVolume] read and write
    nothing shared (the object [GetVolumeDetails] allocates is not shared
    before it is stored in [Volumes]). *)
Inductive Goroutine :=
| GoPublish (req : NodePublishVolumeRequest) (pc : PublishPC)
| GoUnpublish (req : NodeUnpublishVolumeRequest) (pc : UnpublishPC)
| GoRemount (args : RemountArgs) (pc : RemountPC).

Record Config := {
  world : World;
  monitor : MonitorPC;
  goroutines : list Goroutine;
}.

Inductive Label :=
| L_NodePublishVolume (req : NodePublishVolumeRequest)
| L_NodeUnpublishVolume (req : NodeUnpublishVolumeRequest)
| L_publish (i : nat) (pc : PublishPC)
| L_unpublish (i : nat) (pc : UnpublishPC)
| L_remount (i : nat) (pc : RemountPC)
| L_monitor (pc : MonitorPC).

(** Regions of [NodePublishVolume] that call [VolumesListLock.Lock()]. *)
Definition publish_locks (pc : PublishPC) : bool :=
  match pc with
  | NPV_verifyPublish _ _ | NPV_setDevicePath _ _ => true
  | _ => false
  end.

(** [NodeUnpublishVolume] locks in its first region, unless the request is
    rejected. *)
Definition unpublish_locks (req : NodeUnpublishVolumeRequest) (pc : UnpublishPC) : bool :=
  match pc with
  | NUV_entry =>
      bool_decide (String.length (UnpublishVolumeId req) ≠ O
                   ∧ String.length (UnpublishTargetPath req) ≠ O)
  | _ => false
  end.

Definition spawned (a : option RemountArgs) : list Goroutine :=
  match a with
  | Some args => [GoRemount args RV_wait]
  | None => []
  end.

Section System.

Variable env : Env.
Variable nodeID : string.

Inductive step : Config → Label → Config → Prop :=
| step_NodePublishVolume c req :
    step c (L_NodePublishVolume req)
      {| world := world c; monitor := monitor c;
         goroutines := goroutines c ++ [GoPublish req NPV_entry] |}
| step_NodeUnpublishVolume c req :
    step c (L_NodeUnpublishVolume req)
      {| world := world c; monitor := monitor c;
         goroutines := goroutines c ++ [GoUnpublish req NUV_entry] |}
| step_publish c i req pc pc' w' :
    goroutines c !! i = Some (GoPublish req pc) →
    (publish_locks pc = true → monitor c = MM_ticker) →
    publish_step env nodeID req pc (world c) = (pc', w') →
    step c (L_publish i pc)
      {| world := w'; monitor := monitor c;
         goroutines := <[i := GoPublish req pc']> (goroutines c) |}
| step_unpublish c i req pc pc' w' :
    goroutines c !! i = Some (GoUnpublish req pc) →
    (unpublish_locks req pc = true → monitor c = MM_ticker) →
    unpublish_step env req pc (world c) = (pc', w') →
    step c (L_unpublish i pc)
      {| world := w'; monitor := monitor c;
         goroutines := <[i := GoUnpublish req pc']> (goroutines c) |}
| step_remount c i args pc pc' w' :
    goroutines c !! i = Some (GoRemount args pc) →
    remount_step env args pc (world c) = (pc', w') →
    step c (L_remount i pc)
      {| world := w'; monitor := monitor c;
         goroutines := <[i := GoRemount args pc']> (goroutines c) |}
| step_monitor c order pc' a w' :
    (* range hands out every entry of Volumes once, in some order *)
    order ≡ₚ (map_to_list (Volumes (world c))).*2 →
    monitor_step env order (monitor c) (world c) = ((pc', a), w') →
    step c (L_monitor (monitor c))
      {| world := w'; monitor := pc';
         goroutines := goroutines c ++ spawned a |}.

(** The plugin after [init()]: empty maps, [MonitorMounts] at its ticker. *)
Definition Config_init : Config :=
  {| world := World_init; monitor := MM_ticker; goroutines := [] |}.

Inductive reachable : Config → Prop :=
| reachable_init : reachable Config_init
| reachable_step c l c' : reachable c → step c l c' → reachable c'.

(** A run from [c]: the labels taken and the configurations reached. *)
Inductive run : Config → list (Label * Config) → Prop :=
| run_nil c : run c []
| run_cons c l c' r : step c l c' → run c' r → run c ((l, c') :: r).

End System.

(** A scheduler for the system: which goroutine runs next. [exec] performs
    the step; [range] hands out the volumes in the order of [map_to_list]. *)
Inductive Sched :=
| S_NodePublishVolume (req : NodePublishVolumeRequest)
| S_NodeUnpublishVolume (req : NodeUnpublishVolumeRequest)
| S_goroutine (i : nat)
| S_monitor.

Definition at_ticker (pc : MonitorPC) : bool :=
  match pc with MM_ticker => true | _ => false end.

Definition exec (env : Env) (nodeID : string) (s : Sched) (c : Config)
  : option (Label * Config) :=
  match s with
  | S_NodePublishVolume req =>
      Some (L_NodePublishVolume req,
            {| world := world c; monitor := monitor c;
               goroutines := goroutines c ++ [GoPublish req NPV_entry] |})
  | S_NodeUnpublishVolume req =>
      Some (L_NodeUnpublishVolume req,
            {| world := world c; monitor := monitor c;
               goroutines := goroutines c ++ [GoUnpublish req NUV_entry] |})
  | S_goroutine i =>
      match goroutines c !! i with
      | Some (GoPublish req pc) =>
          if publish_locks pc && negb (at_ticker (monitor c)) then None
          else
            let (pc', w') := publish_step env nodeID req pc (world c) in
            Some (L_publish i pc,
                  {| world := w'; monitor := monitor c;
                     goroutines := <[i := GoPublish req pc']> (goroutines c) |})
      | Some (GoUnpublish req pc) =>
          if unpublish_locks req pc && negb (at_ticker (monitor c)) then None
          else
            let (pc', w') := unpublish_step env req pc (world c) in
            Some (L_unpublish i pc,
                  {| world := w'; monitor := monitor c;
                     goroutines := <[i := GoUnpublish req pc']> (goroutines c) |})
      | Some (GoRemount args pc) =>
          let (pc', w') := remount_step env args pc (world c) in
          Some (L_remount i pc,
                {| world := w'; monitor := monitor c;
                   goroutines := <[i := GoRemount args pc']> (goroutines c) |})
      | None => None
      end
  | S_monitor =>
      let order := (map_to_list (Volumes (world c))).*2 in
      let '((pc', a), w') := monitor_step env order (monitor c) (world c) in
      Some (L_monitor (monitor c),
            {| world := w'; monitor := pc';
               goroutines := goroutines c ++ spawned a |})
  end.

(** The run a schedule produces, as far as its steps are enabled. *)
Fixpoint exec_all (env : Env) (nodeID : string) (ss : list Sched) (c : Config)
  : list (Label * Config) :=
  match ss with
  | [] => []
  | s :: ss' =>
      match exec env nodeID s c with
      | Some (l, c') => (l, c') :: exec_all env nodeID ss' c'
      | None => []
      end
  end.

Definition last_config (c : Config) (r : list (Label * Config)) : Config :=
  default c (last (r.*2)).

(** ** What the claims speak about *)

(** [devicePath] of the registry record of a volume, if there is one. *)
Definition registry_devicePath (w : World) (volumeID : string) : option string :=
  match Volumes w !! volumeID with
  | Some vol => Some (DevicePath (Volume (default CSIVolume_zero (objects w !! vol))))
  | None => None
  end.

(** [vol.Spec.Volume.Name], the key of [ReqMountList]. *)
Definition name_in (os : list CSIVolume) (vol : loc) : string :=
  Name (Volume (default CSIVolume_zero (os !! vol))).

Definition name_of (w : World) (vol : loc) : string :=
  name_in (objects w) vol.

(** The volume a repair task in flight works on. A repair task is in flight
    from its [go] statement until it has removed its volume from
    [ReqMountList] and returns. *)
Definition repairs (g : Goroutine) : option loc :=
  match g with
  | GoRemount _ (RV_return _ _) => None
  | GoRemount args _ => Some (r_vol args)
  | _ => None
  end.

Definition repairing (w : World) (volumeID : string) (g : Goroutine) : bool :=
  match repairs g with
  | Some vol => bool_decide (name_of w vol = volumeID)
  | None => false
  end.

Definition repairs_in_flight (c : Config) (volumeID : string) : nat :=
  length (filter (λ g, repairing (world c) volumeID g = true) (goroutines c)).

(** Number of places in a sequence of observed device paths where an empty
    path is followed by a non-empty one, and the other way round. *)
Fixpoint rises (dps : list string) : nat :=
  match dps with
  | d :: (d' :: _) as dps' =>
      (if bool_decide (d = "" ∧ d' ≠ "") then 1 else 0)%nat + rises dps'
  | _ => O
  end.

Fixpoint falls (dps : list string) : nat :=
  match dps with
  | d :: (d' :: _) as dps' =>
      (if bool_decide (d ≠ "" ∧ d' = "") then 1 else 0)%nat + falls dps'
  | _ => O
  end.

(** The trace of a call: what it appended to the log. *)
Definition trace_of (w w' : World) : list Event :=
  drop (length (log w)) (log w').

Definition is_CreateCSIVolumeCR (e : Event) : Prop :=
  match e with EvCreateCSIVolumeCR _ _ _ _ => True | _ => False end.

Definition is_DeleteCSIVolumeCR (e : Event) : Prop :=
  match e with EvDeleteCSIVolumeCR _ _ => True | _ => False end.

(** Any call into package iscsi. *)
Definition is_iscsi (e : Event) : Prop :=
  match e with
  | EvAttachAndMountDisk _ _ | EvUnmountAndDetachDisk _ _ _ => True
  | _ => False
  end.

Definition is_Sleep (e : Event) : Prop :=
  match e with EvSleep _ => True | _ => False end.

(** ** Bookkeeping for the proofs about the goroutines *)

(** [devicePath] of the object a pointer leads to. *)
Definition devicePath_at (w : World) (vol : loc) : string :=
  DevicePath (Volume (default CSIVolume_zero (objects w !! vol))).

(** The volumes [MonitorMounts] still has in hand at a program counter. *)
Definition monitor_vols (pc : MonitorPC) : list loc :=
  match pc with
  | MM_ticker => []
  | MM_range _ rest => rest
  | MM_mark _ rest vol _ _ | MM_go _ rest vol _ _ => vol :: rest
  end.

(** The volume [MonitorMounts] has decided to repair, if any. *)
Definition monitor_chosen (pc : MonitorPC) : option loc :=
  match pc with
  | MM_mark _ _ vol _ _ | MM_go _ _ vol _ _ => Some vol
  | _ => None
  end.

(** Regions left until the read lock is released. *)
Definition monitor_rank (pc : MonitorPC) : nat :=
  match pc with
  | MM_ticker => 0
  | MM_range _ rest => 3 * length rest + 1
  | MM_mark _ rest _ _ _ => 3 * length rest + 3
  | MM_go _ rest _ _ _ => 3 * length rest + 2
  end.

(** The object a [NodePublishVolume] in flight built and may still write. *)
Definition publish_holds (pc : PublishPC) : option loc :=
  match pc with
  | NPV_verifyPublish vol _ | NPV_sleep vol | NPV_chmod vol | NPV_attach vol
  | NPV_setDevicePath vol _ => Some vol
  | NPV_entry | NPV_return _ => None
  end.

Definition holds (g : Goroutine) : option loc :=
  match g with
  | GoPublish _ pc => publish_holds pc
  | _ => None
  end.


(** The invariant of the system, over the objects, the two maps, the
    program counter of [MonitorMounts], and per goroutine the object it
    holds ([hs]) and the volume it repairs ([rs]).
    - an object held by a publish in flight has an empty devicePath, and
      nobody else holds it;
    - the pointers in the registry, in the hands of [MonitorMounts] and of
      the repair tasks lead to allocated objects;
    - two repair tasks in flight never work on volumes of the same name,
      and the name of each is in [ReqMountList];
    - once [MonitorMounts] has chosen a volume, no repair task is in flight
      for its name, and at the [go] statement the name is in
      [ReqMountList]. *)
Record Inv' (os : list CSIVolume) (V : gmap string loc) (rml : gmap string bool)
    (m : MonitorPC) (hs rs : list (option loc)) : Prop := {
  inv_pending : ∀ i vol, hs !! i = Some (Some vol) →
    ∃ v, os !! vol = Some v ∧ DevicePath (Volume v) = "";
  inv_owner : ∀ i j vol,
    hs !! i = Some (Some vol) → hs !! j = Some (Some vol) → i = j;
  inv_Volumes : ∀ id vol, V !! id = Some vol → (vol < length os)%nat;
  inv_monitor : ∀ vol, vol ∈ monitor_vols m → (vol < length os)%nat;
  inv_repairs : ∀ i vol, rs !! i = Some (Some vol) → (vol < length os)%nat;
  inv_one : ∀ i j vi vj,
    rs !! i = Some (Some vi) → rs !! j = Some (Some vj) →
    name_in os vi = name_in os vj → i = j;
  inv_marked : ∀ i vol, rs !! i = Some (Some vol) →
    rml !! name_in os vol = Some true;
  inv_chosen : ∀ vol i vol', monitor_chosen m = Some vol →
    rs !! i = Some (Some vol') → name_in os vol' ≠ name_in os vol;
  inv_go : ∀ mlist rest vol ex mp, m = MM_go mlist rest vol ex mp →
    rml !! name_in os vol = Some true;
}.

Definition Inv (c : Config) : Prop :=
  Inv' (objects (world c)) (Volumes (world c)) (ReqMountList (world c))
       (monitor c) (holds <$> goroutines c) (repairs <$> goroutines c).

(** ** Concrete environments, worlds and requests *)

Definition pv1 : PersistentVolume :=
  {| pvCapacityStorage := "5G";
     pvAccessModes := ["ReadWriteOnce"];
     pvFSType := "ext4";
     pvVolumeAttributes :=
       {[ "iqn" := "iqn.2016-09.com.openebs.cstor:pvc-1";
          "lun" := "0";
          "iscsiInterface" := "default";
          "targetPortal" := "10.0.0.5:3260" ]} |}.

(** Every collaborator succeeds; the volume is healthy and mounts as
    /dev/sdb. *)
Definition env_ok : Env :=
  {| env_FetchPVDetails := λ _ _, inr pv1;
     env_getVolStatus := λ _ _, inr "Healthy";
     env_Dial := λ _ _, None;
     env_DeleteOldCSIVolumeCR := λ _ _ _, None;
     env_CreateCSIVolumeCR := λ _ _ _ _, None;
     env_DeleteCSIVolumeCR := λ _ _, None;
     env_Chmod := λ _ _ _, None;
     env_AttachAndMountDisk := λ _ _, ("/dev/sdb", None);
     env_UnmountAndDetachDisk := λ _ _ _, None;
     env_mounterList := λ _, [];
     env_Unmount := λ _ _, None;
     env_Mount := λ _ _ _ _ _, None |}.

Definition with_getVolStatus (f : list Event → string → error + string)
    (env : Env) : Env :=
  {| env_FetchPVDetails := env_FetchPVDetails env;
     env_getVolStatus := f;
     env_Dial := env_Dial env;
     env_DeleteOldCSIVolumeCR := env_DeleteOldCSIVolumeCR env;
     env_CreateCSIVolumeCR := env_CreateCSIVolumeCR env;
     env_DeleteCSIVolumeCR := env_DeleteCSIVolumeCR env;
     env_Chmod := env_Chmod env;
     env_AttachAndMountDisk := env_AttachAndMountDisk env;
     env_UnmountAndDetachDisk := env_UnmountAndDetachDisk env;
     env_mounterList := env_mounterList env;
     env_Unmount := env_Unmount env;
     env_Mount := env_Mount env |}.

Definition with_AttachAndMountDisk
    (f : list Event → CSIVolume → string * option error) (env : Env) : Env :=
  {| env_FetchPVDetails := env_FetchPVDetails env;
     env_getVolStatus := env_getVolStatus env;
     env_Dial := env_Dial env;
     env_DeleteOldCSIVolumeCR := env_DeleteOldCSIVolumeCR env;
     env_CreateCSIVolumeCR := env_CreateCSIVolumeCR env;
     env_DeleteCSIVolumeCR := env_DeleteCSIVolumeCR env;
     env_Chmod := env_Chmod env;
     env_AttachAndMountDisk := f;
     env_UnmountAndDetachDisk := env_UnmountAndDetachDisk env;
     env_mounterList := env_mounterList env;
     env_Unmount := env_Unmount env;
     env_Mount := env_Mount env |}.

Definition with_UnmountAndDetachDisk
    (f : list Event → CSIVolume → string → option error) (env : Env) : Env :=
  {| env_FetchPVDetails := env_FetchPVDetails env;
     env_getVolStatus := env_getVolStatus env;
     env_Dial := env_Dial env;
     env_DeleteOldCSIVolumeCR := env_DeleteOldCSIVolumeCR env;
     env_CreateCSIVolumeCR := env_CreateCSIVolumeCR env;
     env_DeleteCSIVolumeCR := env_DeleteCSIVolumeCR env;
     env_Chmod := env_Chmod env;
     env_AttachAndMountDisk := env_AttachAndMountDisk env;
     env_UnmountAndDetachDisk := f;
     env_mounterList := env_mounterList env;
     env_Unmount := env_Unmount env;
     env_Mount := env_Mount env |}.

Definition with_mounterList (f : list Event → list MountPoint) (env : Env) : Env :=
  {| env_FetchPVDetails := env_FetchPVDetails env;
     env_getVolStatus := env_getVolStatus env;
     env_Dial := env_Dial env;
     env_DeleteOldCSIVolumeCR := env_DeleteOldCSIVolumeCR env;
     env_CreateCSIVolumeCR := env_CreateCSIVolumeCR env;
     env_DeleteCSIVolumeCR := env_DeleteCSIVolumeCR env;
     env_Chmod := env_Chmod env;
     env_AttachAndMountDisk := env_AttachAndMountDisk env;
     env_UnmountAndDetachDisk := env_UnmountAndDetachDisk env;
     env_mounterList := f;
     env_Unmount := env_Unmount env;
     env_Mount := env_Mount env |}.

Definition with_Dial (f : list Event → string → option error) (env : Env) : Env :=
  {| env_FetchPVDetails := env_FetchPVDetails env;
     env_getVolStatus := env_getVolStatus env;
     env_Dial := f;
     env_DeleteOldCSIVolumeCR := env_DeleteOldCSIVolumeCR env;
     env_CreateCSIVolumeCR := env_CreateCSIVolumeCR env;
     env_DeleteCSIVolumeCR := env_DeleteCSIVolumeCR env;
     env_Chmod := env_Chmod env;
     env_AttachAndMountDisk := env_AttachAndMountDisk env;
     env_UnmountAndDetachDisk := env_UnmountAndDetachDisk env;
     env_mounterList := env_mounterList env;
     env_Unmount := env_Unmount env;
     env_Mount := env_Mount env |}.

(** How many times the portal was dialled in a history. *)
Fixpoint count_dial (h : list Event) : nat :=
  match h with
  | [] => O
  | EvDial _ _ :: h' => S (count_dial h')
  | _ :: h' => count_dial h'
  end.

(** The portal refuses every connection. *)
Definition env_portal_down : Env :=
  with_Dial (λ _ _, Some "connection refused") env_ok.

(** The portal refuses five connections and accepts the sixth. *)
Definition env_portal_up_on_6th : Env :=
  with_Dial (λ h _, if decide (count_dial h < 5)%nat then Some "connection refused"
                    else None)
    env_ok.

(** The path of pvc-1 is mounted, read-write or read-only. *)
Definition mount_pvc1 (opt : string) : MountPoint :=
  {| Device := "/dev/sdb"; Path := "/var/lib/kubelet/pods/p1/mount";
     Type_ := "ext4"; Opts := [opt; "relatime"] |}.

Definition env_mounted (opt : string) : Env :=
  with_mounterList (λ _, [mount_pvc1 opt]) env_ok.

(** How many times the health oracle was asked in a history. *)
Fixpoint count_status (h : list Event) : nat :=
  match h with
  | [] => O
  | EvGetVolStatus _ _ :: h' => S (count_status h')
  | _ :: h' => count_status h'
  end.

(** The volume reports Offline six times and is healthy from then on. *)
Definition env_ready_on_7th : Env :=
  with_getVolStatus
    (λ h _, if decide (count_status h < 6)%nat then inr "Offline" else inr "Healthy")
    env_ok.

(** The health oracle itself fails. *)
Definition env_oracle_error : Env :=
  with_getVolStatus (λ _ _, inl "cstorvolume pvc-1 not found") env_ok.

Definition env_attach_fails : Env :=
  with_AttachAndMountDisk (λ _ _, ("", Some "iscsiadm: login failed")) env_ok.

Definition env_unmount_fails : Env :=
  with_UnmountAndDetachDisk (λ _ _ _, Some "umount: target is busy") env_ok.

Definition publish_pvc1 : NodePublishVolumeRequest :=
  {| VolumeId := "pvc-1"; TargetPath := "/var/lib/kubelet/pods/p1/mount";
     VolumeCapability := Some (Some ["rw"]); Readonly := false |}.

Definition unpublish_pvc1 : NodeUnpublishVolumeRequest :=
  {| UnpublishVolumeId := "pvc-1";
     UnpublishTargetPath := "/var/lib/kubelet/pods/p1/mount" |}.

(** pvc-1 as [GetVolumeDetails] builds it for [publish_pvc1]. *)
Definition vol1 : CSIVolume :=
  {| Volume := {| Name := "pvc-1"; Capacity := "5G"; FSType := "ext4";
                  AccessModes := ["ReadWriteOnce"];
                  MountPath := "/var/lib/kubelet/pods/p1/mount";
                  MountOptions := ["rw"]; ReadOnly := false; DevicePath := "" |};
     ISCSI := {| Iqn := "iqn.2016-09.com.openebs.cstor:pvc-1";
                 TargetPortal := "10.0.0.5:3260";
                 IscsiInterface := "default"; Lun := "0" |} |}.

(** pvc-1 is published: its record is in the registry with a device path. *)
Definition World_published : World :=
  {| Volumes := {[ "pvc-1" := O ]};
     objects := [with_DevicePath "/dev/sdb" vol1];
     ReqMountList := ∅; log := [] |}.

(** A publish of pvc-1 inserted its record and has not finished mounting. *)
Definition World_mounting : World :=
  {| Volumes := {[ "pvc-1" := O ]}; objects := [vol1];
     ReqMountList := ∅; log := [] |}.

(** pvc-1 is published on node-a; nothing is mounted at its path when
    [MonitorMounts] ticks, so a repair task is started. *)
Definition schedule_repair : list Sched :=
  [S_NodePublishVolume publish_pvc1;
   S_goroutine 0; S_goroutine 0; S_goroutine 0; S_goroutine 0; S_goroutine 0;
   S_monitor; S_monitor; S_monitor; S_monitor].

Definition Config_repairing : Config :=
  last_config Config_init (exec_all env_ok "node-a" schedule_repair Config_init).

(** A publish of pvc-1 up to the insert of its record, and the rest of it. *)
Definition schedule_insert : list Sched :=
  [S_NodePublishVolume publish_pvc1; S_goroutine 0; S_goroutine 0].

Definition schedule_mount : list Sched :=
  [S_goroutine 0; S_goroutine 0; S_goroutine 0; S_monitor].

Definition Config_inserted : Config :=
  last_config Config_init (exec_all env_ok "node-a" schedule_insert Config_init).

(** ** Package utils: [parseEndpoint]

    Go strings are byte strings, [string] here. What the function uses of
    package strings is written out after the Go standard library. *)

(** [s[:m]] and [s[m:]], for [m] within the string. *)
Fixpoint slice_to (s : string) (m : nat) {struct m} : string :=
  match m, s with
  | S m', String c s' => String c (slice_to s' m')
  | _, _ => ""
  end.

Fixpoint slice_from (s : string) (m : nat) {struct m} : string :=
  match m, s with
  | S m', String _ s' => slice_from s' m'
  | _, _ => s
  end.

Fixpoint string_forallb (f : ascii → bool) (s : string) : bool :=
  match s with
  | "" => true
  | String c s' => f c && string_forallb f s'
  end.

Fixpoint string_map (f : ascii → ascii) (s : string) : string :=
  match s with
  | "" => ""
  | String c s' => String (f c) (string_map f s')
  end.

(** [c < utf8.RuneSelf] *)
Definition is_ascii_byte (c : ascii) : bool := (N_of_ascii c <? 128)%N.

Definition isASCII (s : string) : bool := string_forallb is_ascii_byte s.

(** [if 'A' <= c && c <= 'Z' { c += 'a' - 'A' }] *)
Definition lower_byte (c : ascii) : ascii :=
  let n := N_of_ascii c in
  if ((65 <=? n) && (n <=? 90))%N then ascii_of_N (n + 32) else c.

(** [strings.Index(s, sep)]: where [sep] first occurs in [s]. *)
Fixpoint strings_Index (s sep : string) : option nat :=
  if String.prefix sep s then Some O
  else match s with
       | "" => None
       | String _ s' => S <$> strings_Index s' sep
       end.

(** [strings.SplitN(s, sep, 2)] for a separator that is not empty: [s]
    alone when [sep] does not occur, else what is before and what is after
    its first occurrence. *)
Definition strings_SplitN_2 (s sep : string) : list string :=
  match strings_Index s sep with
  | None => [s]
  | Some m => [slice_to s m; slice_from s (m + String.length sep)]
  end.

Section Endpoint.

(** [strings.Map(unicode.ToLower, s)], which [strings.ToLower] falls back on
    for a string with a byte outside ASCII; the Unicode tables are not
    modelled. *)
Variable unicode_ToLower : string → string.

(** [strings.ToLower]: byte by byte on an ASCII string. *)
Definition strings_ToLower (s : string) : string :=
  if isASCII s then string_map lower_byte s else unicode_ToLower s.

(** [parseEndpoint]; [None] is the panic of [s[1]] on a slice of length
    one. *)
Definition parseEndpoint (ep : string) : option (string * string * option error) :=
  if String.prefix "unix://" (strings_ToLower ep)
     || String.prefix "tcp://" (strings_ToLower ep)
  then
    let s := strings_SplitN_2 ep "://" in
    match s !! 1%nat with
    | None => None
    | Some s1 =>
        if decide (s1 ≠ "") then Some (default "" (s !! 0%nat), s1, None)
        else Some ("", "", Some ("Invalid endpoint: " +:+ ep))
    end
  else Some ("", "", Some ("Invalid endpoint: " +:+ ep)).

End Endpoint.

(** [ep] is [scheme://addr] with a scheme that is unix or tcp in any mix of
    cases and an address that is not empty. *)
Definition endpoint_of (ep scheme addr : string) : Prop :=
  ep = scheme +:+ "://" +:+ addr ∧ addr ≠ ""
  ∧ (string_map lower_byte scheme = "unix" ∨ string_map lower_byte scheme = "tcp").

(** ** Package utils: [init] *)

(** The part of a [corev1.Service] that [init] reads: the cluster IP and
    the [Port] (an int32) of each of its ports. *)
Record Service := {
  ClusterIP : string;
  Ports : list Z;
}.

(** What [init] asks of the process environment and of the Kubernetes
    client for services, asked in a namespace for a name. *)
Record InitEnv := {
  os_Getenv : string → string;
  service_Get : string → string → error + Service;
}.

(** How [init] ends: it returns, having set the package variables; or
    [logrus.Fatalf] ends the process, with the format string given; or the
    index expression [svc.Spec.Ports[0]] panics. *)
Inductive Startup :=
| Started (OpenEBSNamespace MAPIServerEndpoint : string) (w : World)
| Fatalf (format : string)
| Panicked.

(** [strconv.FormatInt(i, 10)] *)
Definition strconv_FormatInt_10 (i : Z) : string :=
  NilZero.string_of_int (Z.to_int i).

Definition init (ienv : InitEnv) : Startup :=
  let OpenEBSNamespace := os_Getenv ienv "OPENEBS_NAMESPACE" in
  if decide (OpenEBSNamespace = "") then
    Fatalf "OPENEBS_NAMESPACE environment variable not set"
  else
    let MAPIServiceName := os_Getenv ienv "OPENEBS_MAPI_SVC" in
    if decide (MAPIServiceName = "") then
      Fatalf "OPENEBS_MAPI_SVC environment variable not set"
    else
      match service_Get ienv OpenEBSNamespace MAPIServiceName with
      | inl err => Fatalf err
      | inr svc =>
          let svcIP := ClusterIP svc in
          match Ports svc !! O with
          | None => Panicked
          | Some port =>
              let svcPort := strconv_FormatInt_10 port in
              Started OpenEBSNamespace ("http://" +:+ svcIP +:+ ":" +:+ svcPort)
                {| Volumes := ∅; objects := []; ReqMountList := ∅; log := [] |}
          end
      end.

(** ** Package utils: [GetVolumeByName]

    [order] is the order in which [range] hands out the entries of
    [Volumes]. The function takes no lock. *)
Fixpoint GetVolumeByName_range (volName : string) (order : list loc) : M (option loc) :=
  match order with
  | [] => ret None
  | Vol :: rest =>
      let* v := load Vol in
      if decide (Name (Volume v) = volName) then ret (Some Vol)
      else GetVolumeByName_range volName rest
  end.

Definition GetVolumeByName (order : list loc) (volName : string) : M (error + loc) :=
  let* r := GetVolumeByName_range volName order in
  match r with
  | Some Vol => ret (inr Vol)
  | None =>
      ret (inl ("volume name " +:+ volName +:+ " does not exit in the volumes list"))
  end.

(** The keys of the registry are the names of its records, and the object
    a [NodePublishVolume] in flight holds is named after the volume of its
    request. *)
Definition Names (c : Config) : Prop :=
  (∀ id vol, Volumes (world c) !! id = Some vol → name_of (world c) vol = id)
  ∧ (∀ i req pc vol,
       goroutines c !! i = Some (GoPublish req pc) →
       publish_holds pc = Some vol → name_of (world c) vol = VolumeId req).

(** ** The list builder, first part of [pkg/volume/v1alpha1/buildlist.go] *)

(** [apis.CSIVolumeList], of which the builder uses [Items]. *)
Record CSIVolumeList := {
  Items : list CSIVolume;
}.

Section ListBuilder.

(** [Predicate], [predicateList.all] and [From] are declared in another
    file of the package, which is not among the sources. [all filters vol]
    stands for [filters.all(From(&vol))] on the pinned copy of a volume; it
    is taken to be a function of the predicates and the volume. *)
Variable Predicate : Type.
Variable all : list Predicate → CSIVolume → bool.

Record ListBuilder := {
  list_ : CSIVolumeList;               (* the Go field list *)
  filters : list Predicate;
}.

(** [NewListBuilder] *)
Definition NewListBuilder : ListBuilder :=
  {| list_ := {| Items := [] |}; filters := [] |}.

(** [ListBuilderFrom] *)
Definition ListBuilderFrom (vols : CSIVolumeList) : ListBuilder :=
  let b := {| list_ := {| Items := [] |}; filters := [] |} in
  if decide (length (Items vols) = O) then b
  else {| list_ := {| Items := Items (list_ b) ++ Items vols |};
          filters := filters b |}.

(** The [for ... range b.list.Items] loop of [List]. *)
Fixpoint List_range (fs : list Predicate) (items : list CSIVolume)
    (filtered : CSIVolumeList) : CSIVolumeList :=
  match items with
  | [] => filtered
  | vol :: items' =>
      List_range fs items'
        (if all fs vol then {| Items := Items filtered ++ [vol] |} else filtered)
  end.

(** [List] *)
Definition List (b : ListBuilder) : CSIVolumeList :=
  if decide (length (filters b) = O) then list_ b
  else List_range (filters b) (Items (list_ b)) {| Items := [] |}.

(** [WithFilter]: the builder is updated in place and returned. *)
Definition WithFilter (pred : list Predicate) (b : ListBuilder) : ListBuilder :=
  {| list_ := list_ b; filters := filters b ++ pred |}.

End ListBuilder.

Arguments list_ {Predicate} _.
Arguments filters {Predicate} _.
Arguments NewListBuilder {Predicate}.
Arguments ListBuilderFrom {Predicate} _.
Arguments WithFilter {Predicate} _ _.

(** Seconds spent in [time.Sleep] along a trace. *)
Fixpoint slept (tr : list Event) : Z :=
  match tr with
  | [] => 0
  | EvSleep seconds :: tr' => seconds + slept tr'
  | _ :: tr' => slept tr'
  end.

(** ** The locks along a trace

    How one goroutine holds a [sync.RWMutex]: not at all, for writing
    ([Lock]), for reading ([RLock]). *)
Inductive Held := Free | Writing | Reading.

Global Instance Held_eq_dec : EqDecision Held.
Proof. solve_decision. Defined.

Record Locks := {
  held_VolumesListLock : Held;
  held_ReqMountListLock : Held;
}.

Global Instance Locks_eq_dec : EqDecision Locks.
Proof. solve_decision. Defined.

Definition no_locks : Locks :=
  {| held_VolumesListLock := Free; held_ReqMountListLock := Free |}.

Definition held (s : Locks) (m : Mutex) : Held :=
  match m with
  | VolumesListLock => held_VolumesListLock s
  | ReqMountListLock => held_ReqMountListLock s
  end.

Definition set_held (s : Locks) (m : Mutex) (h : Held) : Locks :=
  match m with
  | VolumesListLock =>
      {| held_VolumesListLock := h; held_ReqMountListLock := held_ReqMountListLock s |}
  | ReqMountListLock =>
      {| held_VolumesListLock := held_VolumesListLock s; held_ReqMountListLock := h |}
  end.

(** The lock operations of a goroutine are in order when it locks only what
    it does not hold and unlocks only what it holds in that mode. Its other
    effects are in order when
    - it writes [Volumes], or [DevicePath] through a pointer, only while it
      holds [VolumesListLock] for writing, and [ReqMountList] only while it
      holds [ReqMountListLock];
    - it swaps the CSIVolume CRs ([DeleteOldCSIVolumeCR],
      [CreateCSIVolumeCR]) only while it holds [VolumesListLock] for
      writing;
    - it starts a goroutine only while it does not hold [ReqMountListLock];
    - it sleeps, and calls anything else outside the process, only while it
      holds no lock. *)
Definition locks_step (s : Locks) (e : Event) : option Locks :=
  let change m from to :=
    if decide (held s m = from) then Some (set_held s m to) else None in
  let when (P : Prop) `{!Decision P} := if decide P then Some s else None in
  match e with
  | EvLock m => change m Free Writing
  | EvUnlock m => change m Writing Free
  | EvRLock m => change m Free Reading
  | EvRUnlock m => change m Reading Free
  | EvVolumesStore _ _ | EvVolumesDelete _ | EvSetDevicePath _ _ =>
      when (held s VolumesListLock = Writing)
  | EvReqMountStore _ | EvReqMountDelete _ =>
      when (held s ReqMountListLock = Writing)
  | EvDeleteOldCSIVolumeCR _ _ _ | EvCreateCSIVolumeCR _ _ _ _ =>
      when (held s VolumesListLock = Writing ∧ held s ReqMountListLock = Free)
  | EvGo _ => when (held s ReqMountListLock = Free)
  | _ => when (s = no_locks)
  end.

Fixpoint locks_run (s : Locks) (tr : list Event) : option Locks :=
  match tr with
  | [] => Some s
  | e :: tr' =>
      match locks_step s e with
      | Some s' => locks_run s' tr'
      | None => None
      end
  end.

(** A trace that starts and ends with no lock held and is in order in
    between. *)
Definition lock_discipline (tr : list Event) : Prop :=
  locks_run no_locks tr = Some no_locks.

(** ** What a tick of [MonitorMounts] looks for *)

(** The test of a volume against the mount table of the tick: the entry
    [listContains] finds for the mount path of the volume carries the
    option rw. *)
Definition mounted_rw (mlist : list MountPoint) (v : CSIVolume) : bool :=
  let '(mountPoint, exists_) := listContains (MountPath (Volume v)) mlist in
  exists_ && from_option (λ mp, verifyMountOpts (Opts mp) "rw") false mountPoint.

(** A volume [MonitorMounts] starts a repair for: its publish has finished,
    it does not pass the test, and its name is not in [ReqMountList]. *)
Definition needs_repair (w : World) (mlist : list MountPoint) (vol : loc) : Prop :=
  devicePath_at w vol ≠ ""
  ∧ mounted_rw mlist (default CSIVolume_zero (objects w !! vol)) = false
  ∧ ReqMountList w !! name_of w vol = None.

(** The arguments of the [go RemountVolume(...)] for a volume. *)
Definition remount_args (w : World) (mlist : list MountPoint) (vol : loc) : RemountArgs :=
  let v := default CSIVolume_zero (objects w !! vol) in
  {| r_exists := (listContains (MountPath (Volume v)) mlist).2;
     r_vol := vol;
     r_mountPoint := (listContains (MountPath (Volume v)) mlist).1;
     r_desiredMountOpt := MountPath (Volume v) |}.

Global Instance needs_repair_dec w mlist vol : Decision (needs_repair w mlist vol).
Proof. unfold needs_repair. apply _. Defined.

(** ** The goroutines [MonitorMounts] starts *)

(** [exists] and [mountPoint] as [listContains] returns them for a path:
    a mount point with that path and [true], or [nil] and [false]. *)
Definition found_at (path : string) (exists_ : bool) (mountPoint : option MountPoint)
  : Prop :=
  match mountPoint with
  | Some mp => exists_ = true ∧ Path mp = path
  | None => exists_ = false
  end.

(** The decision of [MonitorMounts] in hand, and the arguments of every
    [RemountVolume] in flight, are as [listContains] gave them for the
    mount path of the volume; no [RemountVolume] has panicked. *)
Definition Spawned (c : Config) : Prop :=
  (∀ mlist rest vol ex mp,
     monitor c = MM_mark mlist rest vol ex mp ∨ monitor c = MM_go mlist rest vol ex mp →
     found_at (MountPath (Volume (default CSIVolume_zero (objects (world c) !! vol))))
       ex mp)
  ∧ (∀ i args pc,
       goroutines c !! i = Some (GoRemount args pc) →
       pc ≠ RV_panic
       ∧ found_at (r_desiredMountOpt args) (r_exists args) (r_mountPoint args)).

(** pvc-1 is published on node-a; its path shows read-only in the mount
    table when [MonitorMounts] ticks, so a repair task is started. *)
Definition Config_remounting : Config :=
  last_config Config_init
    (exec_all (env_mounted "ro") "node-a" schedule_repair Config_init).

(** A repair of the volume named [n] is under way: a [RemountVolume] for
    it is in flight, or [MonitorMounts] is at the [go] statement for it. *)
Definition in_repair (c : Config) (n : string) : bool :=
  existsb (repairing (world c) n) (goroutines c)
  || match monitor c with
     | MM_go _ _ vol _ _ => bool_decide (name_of (world c) vol = n)
     | _ => false
     end.

(** Every entry of [ReqMountList] is [true] and stands for a repair under
    way. *)
Definition Marked (c : Config) : Prop :=
  ∀ n b, ReqMountList (world c) !! n = Some b →
    b = true
    ∧ ((∃ i vol, (repairs <$> goroutines c) !! i = Some (Some vol)
                 ∧ name_of (world c) vol = n)
       ∨ (∃ mlist rest vol ex mp,
            monitor c = MM_go mlist rest vol ex mp ∧ name_of (world c) vol = n)).

(** ** The history of the registry in the log *)

(** The volume id a write to the registry, or a CSIVolume CR created with
    success, is for. *)
Definition stores (volumeID : string) (e : Event) : bool :=
  match e with
  | EvVolumesStore id _ => bool_decide (id = volumeID)
  | _ => false
  end.

Definition deletes (volumeID : string) (e : Event) : bool :=
  match e with
  | EvVolumesDelete id => bool_decide (id = volumeID)
  | _ => false
  end.

Definition creates (volumeID : string) (e : Event) : bool :=
  match e with
  | EvCreateCSIVolumeCR vol _ _ None => bool_decide (Name (Volume vol) = volumeID)
  | _ => false
  end.

(** How many events of a trace pass a test. *)
Fixpoint count (f : Event → bool) (tr : list Event) : nat :=
  match tr with
  | [] => O
  | e :: tr' => ((if f e then 1 else 0) + count f tr')%nat
  end.

(** Of the three kinds of events none is in the trace. *)
Definition no_registry_event (tr : list Event) : Prop :=
  ∀ id, count (stores id) tr = O ∧ count (deletes id) tr = O
        ∧ count (creates id) tr = O.

(** For every volume: as many records stored as deleted, and one more
    while the volume has a record; as many CRs created as records
    stored. *)
Definition Alternating (c : Config) : Prop :=
  ∀ id,
    count (stores id) (log (world c))
    = (count (deletes id) (log (world c))
       + if Volumes (world c) !! id is Some _ then 1 else 0)%nat
    ∧ count (creates id) (log (world c)) = count (stores id) (log (world c)).


(** * Proofs *)

(** ** The monad and the log *)

Lemma with_log_nil w : with_log w [] = w.
Proof. destruct w; unfold with_log; simpl. by rewrite app_nil_r. Qed.

Lemma with_log_app w tr1 tr2 :
  with_log (with_log w tr1) tr2 = with_log w (tr1 ++ tr2).
Proof. unfold with_log; simpl. by rewrite app_assoc. Qed.

Lemma emit_with_log e w : emit e w = (tt, with_log w [e]).
Proof. reflexivity. Qed.

Lemma call_with_log {A} (answer : list Event → A) ev w :
  call answer ev w = (answer (log w), with_log w [ev (answer (log w))]).
Proof. reflexivity. Qed.

Section Probes.

Variable env : Env.

Lemma WaitForVolumeToBeReachable_loop_spec (fuel : nat) (targetPortal : string)
    (retries : Z) (w : World) :
  0 ≤ retries < 6 → (Z.to_nat (6 - retries) ≤ fuel)%nat →
  let (r, w') := WaitForVolumeToBeReachable_loop env fuel targetPortal retries w in
  (∃ errs, retries + Z.of_nat (length errs) < 6 ∧ r = Some None ∧
     w' = with_log w (flat_map (dial_failed targetPortal) errs ++ [EvDial targetPortal None]))
  ∨ (∃ errs err, retries + Z.of_nat (length errs) = 5 ∧
     r = Some (Some (unreachable_error targetPortal err)) ∧
     w' = with_log w (flat_map (dial_failed targetPortal) (errs ++ [err]))).
Proof.
  revert retries w. induction fuel as [|fuel IH]; intros retries w Hr Hf; [lia|].
  cbn [WaitForVolumeToBeReachable_loop]. unfold bind at 1, net_Dial.
  rewrite call_with_log.
  destruct (env_Dial env (log w) targetPortal) as [err|] eqn:Hd.
  - unfold bind, time_Sleep. rewrite emit_with_log, with_log_app. simpl app.
    unfold VolumeWaitTimeout, VolumeWaitRetryCount.
    destruct (decide (retries + 1 >= 6)) as [Hge|Hlt].
    + right. exists [], err. split; [simpl; lia|]. split; [done|]. done.
    + specialize (IH (retries + 1) (with_log w [EvDial targetPortal (Some err); EvSleep 2])).
      destruct (WaitForVolumeToBeReachable_loop env fuel targetPortal (retries + 1) _)
        as [r w'].
      destruct IH as [(errs & Hl & -> & ->)|(errs & e & Hl & -> & ->)]; [lia|lia|..].
      * left. exists (err :: errs). split; [simpl length; lia|]. split; [done|].
        by rewrite with_log_app.
      * right. exists (err :: errs), e. split; [simpl length; lia|]. split; [done|].
        by rewrite with_log_app.
  - left. exists []. simpl. split; [lia|]. done.
Qed.

Lemma checkVolumeStatus_spec (fuel : nat) (volumeID : string) (retries : Z)
    (w : World) :
  (0 ≤ retries ∧ retries ≤ 6)%Z → (Z.to_nat (7 - retries) ≤ fuel)%nat →
  let (r, w') := checkVolumeStatus env fuel volumeID retries w in
  ∃ sts, (retries + Z.of_nat (length sts) ≤ 6)%Z ∧ Forall (λ st, ¬ ready st) sts ∧
    ((∃ st, ready st ∧ r = Some None ∧
        w' = with_log w (flat_map (status_not_ready volumeID) sts
                         ++ [EvGetVolStatus volumeID (inr st)]))
     ∨ (∃ err, r = Some (Some err) ∧
        w' = with_log w (flat_map (status_not_ready volumeID) sts
                         ++ [EvGetVolStatus volumeID (inl err)]))
     ∨ (∃ st, ¬ ready st ∧ retries + Z.of_nat (length sts) = 6 ∧
        r = Some (Some not_ready_error) ∧
        w' = with_log w (flat_map (status_not_ready volumeID) sts
                         ++ [EvGetVolStatus volumeID (inr st)]))).
Proof.
  revert retries w. induction fuel as [|fuel IH]; intros retries w Hr Hf; [lia|].
  cbn [checkVolumeStatus]. unfold bind at 1, getVolStatus.
  rewrite call_with_log.
  destruct (env_getVolStatus env (log w) volumeID) as [err|st] eqn:Hq.
  - exists []. split; [simpl; lia|]. split; [constructor|]. right; left. by exists err.
  - destruct (decide (st = "Healthy" ∨ st = "Degraded")) as [Hok|Hno].
    + exists []. split; [simpl; lia|]. split; [constructor|]. left. by exists st.
    + unfold VolumeWaitRetryCount, VolumeWaitTimeout.
      destruct (decide (retries >= 6)) as [Hge|Hlt].
      * exists []. split; [simpl; lia|]. split; [constructor|]. right; right.
        exists st. split; [done|]. split; [simpl; lia|]. done.
      * unfold bind, time_Sleep. rewrite emit_with_log, with_log_app. simpl app.
        specialize (IH (retries + 1)
                       (with_log w [EvGetVolStatus volumeID (inr st); EvSleep 2])).
        destruct (checkVolumeStatus env fuel volumeID (retries + 1) _) as [r w'].
        destruct IH as (sts & Hl & Hall & Hcases); [lia|lia|].
        exists (st :: sts). split; [simpl length; lia|].
        split; [by constructor|].
        destruct Hcases as [(s & ? & -> & ->)|[(e & -> & ->)|(s & ? & ? & -> & ->)]].
        -- left. exists s. by rewrite with_log_app.
        -- right; left. exists e. by rewrite with_log_app.
        -- right; right. exists s. rewrite with_log_app.
           split; [done|]. split; [simpl length; lia|]. done.
Qed.

End Probes.

Arguments WaitForVolumeToBeReady : simpl never.
Arguments WaitForVolumeToBeReachable : simpl never.

Lemma WaitForVolumeToBeReachable_spec env (targetPortal : string) (w : World) :
  let (r, w') := WaitForVolumeToBeReachable env targetPortal w in
  (∃ errs, (length errs < 6)%nat ∧ r = None ∧
     w' = with_log w (flat_map (dial_failed targetPortal) errs
                      ++ [EvDial targetPortal None]))
  ∨ (∃ errs err, length errs = 5%nat ∧
     r = Some (unreachable_error targetPortal err) ∧
     w' = with_log w (flat_map (dial_failed targetPortal) (errs ++ [err]))).
Proof.
  unfold WaitForVolumeToBeReachable, bind, ret.
  pose proof (WaitForVolumeToBeReachable_loop_spec env
                (Z.to_nat VolumeWaitRetryCount) targetPortal 0 w) as H.
  destruct (WaitForVolumeToBeReachable_loop env _ targetPortal 0 w) as [r w'].
  destruct H as [(errs & Hl & -> & ->)|(errs & e & Hl & -> & ->)];
    [lia|unfold VolumeWaitRetryCount; lia|..].
  - left. exists errs. split; [lia|done].
  - right. exists errs, e. split; [lia|done].
Qed.

Lemma WaitForVolumeToBeReady_spec env (volumeID : string) (w : World) :
  let (r, w') := WaitForVolumeToBeReady env volumeID w in
  ∃ sts, (length sts ≤ 6)%nat ∧ Forall (λ st, ¬ ready st) sts ∧
    ((∃ st, ready st ∧ r = None ∧
        w' = with_log w (flat_map (status_not_ready volumeID) sts
                         ++ [EvGetVolStatus volumeID (inr st)]))
     ∨ (∃ err, r = Some err ∧
        w' = with_log w (flat_map (status_not_ready volumeID) sts
                         ++ [EvGetVolStatus volumeID (inl err)]))
     ∨ (∃ st, ¬ ready st ∧ length sts = 6%nat ∧ r = Some not_ready_error ∧
        w' = with_log w (flat_map (status_not_ready volumeID) sts
                         ++ [EvGetVolStatus volumeID (inr st)]))).
Proof.
  unfold WaitForVolumeToBeReady, bind, ret.
  pose proof (checkVolumeStatus_spec env
                (Z.to_nat (VolumeWaitRetryCount + 1)) volumeID 0 w) as H.
  destruct (checkVolumeStatus env _ volumeID 0 w) as [r w'].
  destruct H as (sts & Hl & Hall & Hcases);
    [lia|unfold VolumeWaitRetryCount; lia|].
  exists sts. split; [lia|]. split; [done|].
  destruct Hcases as [(s & ? & -> & ->)|[(e & -> & ->)|(s & ? & ? & -> & ->)]].
  - left. by exists s.
  - right; left. by exists e.
  - right; right. exists s. split; [done|]. split; [lia|done].
Qed.

(** An error of the oracle on the first query ends the wait at once. *)
Lemma WaitForVolumeToBeReady_error_first env (volumeID : string) (w : World) err :
  env_getVolStatus env (log w) volumeID = inl err →
  WaitForVolumeToBeReady env volumeID w
  = (Some err, with_log w [EvGetVolStatus volumeID (inl err)]).
Proof.
  intros H. unfold WaitForVolumeToBeReady.
  change (Z.to_nat (VolumeWaitRetryCount + 1)) with 7%nat.
  cbn [checkVolumeStatus]. unfold bind, getVolStatus, ret.
  rewrite call_with_log, H. reflexivity.
Qed.

(** Both probes leave the shared maps and the objects alone. *)
Lemma WaitForVolumeToBeReachable_frame env targetPortal w :
  ∃ tr, (WaitForVolumeToBeReachable env targetPortal w).2 = with_log w tr ∧
    Forall (λ e, (∃ res, e = EvDial targetPortal res) ∨ e = EvSleep 2) tr.
Proof.
  pose proof (WaitForVolumeToBeReachable_spec env targetPortal w) as H.
  destruct (WaitForVolumeToBeReachable env targetPortal w) as [r w'].
  assert (∀ errs, Forall (λ e, (∃ res, e = EvDial targetPortal res) ∨ e = EvSleep 2)
            (flat_map (dial_failed targetPortal) errs)) as Hf.
  { induction errs as [|a errs IH]; [constructor|].
    cbn [flat_map dial_failed app]. constructor; [left; eauto|].
    constructor; [by right|exact IH]. }
  destruct H as [(errs & _ & _ & ->)|(errs & e & _ & _ & ->)]; eexists; (split; [done|]).
  - apply Forall_app; split; [apply Hf|]. repeat constructor; eauto.
  - apply Hf.
Qed.

Lemma WaitForVolumeToBeReady_frame env volumeID w :
  ∃ tr, (WaitForVolumeToBeReady env volumeID w).2 = with_log w tr ∧
    Forall (λ e, (∃ res, e = EvGetVolStatus volumeID res) ∨ e = EvSleep 2) tr.
Proof.
  pose proof (WaitForVolumeToBeReady_spec env volumeID w) as H.
  destruct (WaitForVolumeToBeReady env volumeID w) as [r w'].
  assert (∀ sts, Forall (λ e, (∃ res, e = EvGetVolStatus volumeID res) ∨ e = EvSleep 2)
            (flat_map (status_not_ready volumeID) sts)) as Hf.
  { induction sts as [|a sts IH]; [constructor|].
    cbn [flat_map status_not_ready app]. constructor; [left; eauto|].
    constructor; [by right|exact IH]. }
  destruct H as (sts & _ & _ & [(s & _ & _ & ->)|[(e & _ & ->)|(s & _ & _ & _ & ->)]]);
    eexists; (split; [done|]); (apply Forall_app; split; [apply Hf|]);
    repeat constructor; eauto.
Qed.

(** ** Sanity checks on the concrete environments *)

Example GetVolumeDetails_pvc1 :
  GetVolumeDetails env_ok "pvc-1" "/var/lib/kubelet/pods/p1/mount" false ["rw"] World_init
  = (inr O, {| Volumes := ∅; objects := [vol1]; ReqMountList := ∅;
               log := [EvFetchPVDetails "pvc-1" (inr pv1)] |}).
Proof. vm_compute. reflexivity. Qed.

Example portal_down_six_dials :
  WaitForVolumeToBeReachable env_portal_down "10.0.0.5:3260" World_init
  = (Some (unreachable_error "10.0.0.5:3260" "connection refused"),
     with_log World_init
       (flat_map (dial_failed "10.0.0.5:3260") (replicate 6 "connection refused"))).
Proof. vm_compute. reflexivity. Qed.

Example portal_up_on_sixth_dial :
  WaitForVolumeToBeReachable env_portal_up_on_6th "10.0.0.5:3260" World_init
  = (None,
     with_log World_init
       (flat_map (dial_failed "10.0.0.5:3260") (replicate 5 "connection refused")
        ++ [EvDial "10.0.0.5:3260" None])).
Proof. vm_compute. reflexivity. Qed.

(** A tick over the published pvc-1: mounted read-write nothing is started;
    mounted read-only, or not mounted, a repair is. *)
Example tick_mounted_rw :
  (MonitorMounts_tick (env_mounted "rw") [O] World_published).1 = (MM_ticker, []).
Proof. vm_compute. reflexivity. Qed.

Example tick_mounted_ro :
  (MonitorMounts_tick (env_mounted "ro") [O] World_published).1
  = (MM_ticker,
     [{| r_exists := true; r_vol := O; r_mountPoint := Some (mount_pvc1 "ro");
         r_desiredMountOpt := "/var/lib/kubelet/pods/p1/mount" |}]).
Proof. vm_compute. reflexivity. Qed.

Example tick_not_mounted :
  (MonitorMounts_tick env_ok [O] World_published).1
  = (MM_ticker,
     [{| r_exists := false; r_vol := O; r_mountPoint := None;
         r_desiredMountOpt := "/var/lib/kubelet/pods/p1/mount" |}]).
Proof. vm_compute. reflexivity. Qed.

(** A tick while pvc-1 is still being mounted starts nothing. *)
Example tick_while_mounting :
  MonitorMounts_tick env_ok [O] World_mounting
  = ((MM_ticker, []),
     with_log World_mounting
       [EvMounterList []; EvRLock VolumesListLock; EvRUnlock VolumesListLock]).
Proof. vm_compute. reflexivity. Qed.

(** The repair of a read-only mount: unmount, mount rw, leave
    [ReqMountList]. *)
Example remount_read_only :
  RemountVolume (env_mounted "ro") 3
    {| r_exists := true; r_vol := O; r_mountPoint := Some (mount_pvc1 "ro");
       r_desiredMountOpt := "/var/lib/kubelet/pods/p1/mount" |}
    {| Volumes := {[ "pvc-1" := O ]}; objects := [with_DevicePath "/dev/sdb" vol1];
       ReqMountList := {[ "pvc-1" := true ]}; log := [] |}
  = (Some ("", None),
     {| Volumes := {[ "pvc-1" := O ]}; objects := [with_DevicePath "/dev/sdb" vol1];
        ReqMountList := ∅;
        log := [EvGetVolStatus "pvc-1" (inr "Healthy");
                EvDial "10.0.0.5:3260" None;
                EvUnmount "/var/lib/kubelet/pods/p1/mount" None;
                EvMount "/dev/sdb" "/var/lib/kubelet/pods/p1/mount" "" ["rw"] None;
                EvLock ReqMountListLock; EvReqMountDelete "pvc-1";
                EvUnlock ReqMountListLock] |}).
Proof. vm_compute. reflexivity. Qed.

Example publish_happy_path :
  (NodePublishVolume env_ok "node-a" publish_pvc1 World_init).1 = Some OK.
Proof. vm_compute. reflexivity. Qed.

(** ** Symbolic execution of the regions *)

Lemma trace_of_app (w w' : World) tr : log w' = log w ++ tr → trace_of w w' = tr.
Proof. intros H. unfold trace_of. rewrite H. apply drop_app_length. Qed.

Lemma trace_of_refl (w : World) : trace_of w w = [].
Proof. unfold trace_of. apply drop_all. Qed.

Lemma lookup_fresh {A} (l : list A) (x : A) : (l ++ [x]) !! length l = Some x.
Proof. by apply list_lookup_middle. Qed.

Lemma run_publish_return env fuel nodeID req resp (w : World) :
  run_publish env fuel nodeID req (NPV_return resp) w = (NPV_return resp, w).
Proof. by destruct fuel. Qed.

Lemma run_publish_O env nodeID req pc (w : World) :
  run_publish env 0 nodeID req pc w = (pc, w).
Proof. by destruct pc. Qed.

Lemma run_publish_S env fuel nodeID req pc (w : World) :
  response_of_publish pc = None →
  run_publish env (S fuel) nodeID req pc w
  = let (pc', w') := publish_step env nodeID req pc w in
    run_publish env fuel nodeID req pc' w'.
Proof. by destruct pc. Qed.

Lemma run_unpublish_return env fuel req resp (w : World) :
  run_unpublish env fuel req (NUV_return resp) w = (NUV_return resp, w).
Proof. by destruct fuel. Qed.

Lemma run_unpublish_S env fuel req pc (w : World) :
  response_of_unpublish pc = None →
  run_unpublish env (S fuel) req pc w
  = let (pc', w') := unpublish_step env req pc w in
    run_unpublish env fuel req pc' w'.
Proof. by destruct pc. Qed.

Lemma NodePublishVolume_unfold env nodeID req (w : World) :
  NodePublishVolume env nodeID req w
  = let (pc, w1) := publish_step env nodeID req NPV_entry w in
    let (pc', w') := run_publish env 6 nodeID req pc w1 in
    (response_of_publish pc', w').
Proof.
  unfold NodePublishVolume. cbn [run_publish]. unfold bind, ret.
  destruct (publish_step env nodeID req NPV_entry w) as [pc w1].
  by destruct (run_publish env 6 nodeID req pc w1).
Qed.

Lemma NodeUnpublishVolume_unfold env req (w : World) :
  NodeUnpublishVolume env req w
  = let (pc', w') := run_unpublish env 3 req NUV_entry w in
    (response_of_unpublish pc', w').
Proof.
  unfold NodeUnpublishVolume, bind, ret.
  by destruct (run_unpublish env 3 req NUV_entry w).
Qed.

(** Unfold the primitives of the monad in [H], one region at a time, and
    split on every answer of the environment and every test. *)
Ltac reduce_in H :=
  cbn [publish_step unpublish_step monitor_step remount_step
       response_of_publish response_of_unpublish
       bind ret Lock Unlock RLock RUnlock time_Sleep Volumes_lookup
       Volumes_store Volumes_delete store_DevicePath ReqMountList_lookup
       ReqMountList_store ReqMountList_delete load new_CSIVolume
       FetchPVDetails getVolStatus net_Dial DeleteOldCSIVolumeCR
       CreateCSIVolumeCR DeleteCSIVolumeCR AttachAndMountDisk
       UnmountAndDetachDisk mounter_List mounter_Unmount mounter_Mount
       ChmodMountPath call emit
       Volumes objects ReqMountList log fst snd negb] in H.

Ltac run_exec H :=
  repeat first
    [ rewrite run_publish_return in H
    | rewrite run_publish_O in H
    | rewrite run_publish_S in H by reflexivity
    | rewrite run_unpublish_return in H
    | rewrite run_unpublish_S in H by reflexivity
    | progress reduce_in H
    | progress unfold ret in H
    | match type of H with context [match ?x with _ => _ end] =>
        lazymatch x with
        | context [match _ with _ => _ end] => fail
        | _ => let E := fresh "E" in destruct x eqn:E
        end
      end ].

Ltac trace_norm :=
  rewrite ?trace_of_refl in *;
  repeat match goal with
  | |- context [trace_of ?w ?w'] =>
      erewrite (trace_of_app w w')
        by (cbn [log]; rewrite <- ?app_assoc; cbn [app]; reflexivity)
  | H : context [trace_of ?w ?w'] |- _ =>
      erewrite (trace_of_app w w') in H
        by (cbn [log]; rewrite <- ?app_assoc; cbn [app]; reflexivity)
  end.

Ltac elem_cases :=
  repeat match goal with
  | H : _ ∈ [] |- _ => by apply elem_of_nil in H
  | H : _ ∈ _ :: _ |- _ => apply elem_of_cons in H as [H|H]
  | H : _ ∈ _ ++ _ |- _ => apply elem_of_app in H as [H|H]
  | Hp : Forall is_probe ?tr, H : ?e ∈ ?tr |- _ =>
      let H' := fresh "Hprobe" in
      pose proof (proj1 (Forall_forall _ _) Hp _ H) as H'; clear H;
      cbn [is_probe] in H'
  end; simplify_eq.

(** The entry region of [NodePublishVolume]: argument checks, volume
    details, the two bounded waits. It allocates the volume object and
    touches nothing that is shared. *)
Lemma publish_entry_spec env nodeID req (w : World) :
  let (pc, w') := publish_step env nodeID req NPV_entry w in
  ∃ tr, log w' = log w ++ tr ∧ Forall is_probe tr ∧
    Volumes w' = Volumes w ∧ ReqMountList w' = ReqMountList w ∧
    ((∃ c m, pc = NPV_return (Error c m) ∧
        (objects w' = objects w
         ∨ ∃ v, objects w' = objects w ++ [v] ∧ DevicePath (Volume v) = ""))
     ∨ (∃ v, pc = NPV_verifyPublish (length (objects w)) false ∧
          objects w' = objects w ++ [v] ∧ DevicePath (Volume v) = "" ∧
          Name (Volume v) = VolumeId req ∧
          MountPath (Volume v) = TargetPath req ∧
          is_Some (VolumeCapability req) ∧ VolumeId req ≠ "")).
Proof.
  assert (∀ id tr, Forall (λ e, (∃ res, e = EvGetVolStatus id res) ∨ e = EvSleep 2) tr
                   → Forall is_probe tr) as Hp1.
  { intros id tr H. eapply Forall_impl; [exact H|]. intros e [[res ->]| ->]; exact I. }
  assert (∀ p tr, Forall (λ e, (∃ res, e = EvDial p res) ∨ e = EvSleep 2) tr
                  → Forall is_probe tr) as Hp2.
  { intros id tr H. eapply Forall_impl; [exact H|]. intros e [[res ->]| ->]; exact I. }
  unfold publish_step.
  destruct (VolumeCapability req) as [cap|] eqn:Hcap.
  2:{ exists []. rewrite app_nil_r. repeat split; [constructor|]. left; eauto. }
  destruct (decide (String.length (VolumeId req) = O)) as [Hid|Hid].
  { exists []. rewrite app_nil_r. repeat split; [constructor|]. left; eauto. }
  assert (VolumeId req ≠ "") as Hne by (intros E; rewrite E in Hid; done).
  unfold GetVolumeDetails. unfold bind at 1 2. unfold FetchPVDetails.
  rewrite call_with_log.
  destruct (env_FetchPVDetails env (log w) (VolumeId req)) as [err|pv] eqn:Hpv.
  { eexists [_]. simpl. repeat split; [repeat constructor|]. left; eauto. }
  unfold bind at 1. unfold new_CSIVolume at 1.
  cbn [with_log objects log Volumes ReqMountList].
  unfold ret at 1. unfold bind at 1.
  match goal with |- context [WaitForVolumeToBeReady env ?id ?w1] =>
    destruct (WaitForVolumeToBeReady_frame env id w1) as (tr1 & Hw1 & Htr1);
    destruct (WaitForVolumeToBeReady env id w1) as [r1 w1'] end.
  simpl in Hw1. subst w1'.
  destruct r1 as [err|].
  { exists (EvFetchPVDetails (VolumeId req) (inr pv) :: tr1).
    simpl. rewrite <- !app_assoc. simpl. repeat split.
    - constructor; [exact I|eauto].
    - left. do 2 eexists. split; [done|]. right. eexists. split; [done|]. done. }
  unfold bind at 1. unfold load at 1. unfold bind at 1.
  match goal with |- context [WaitForVolumeToBeReachable env ?p ?w1] =>
    destruct (WaitForVolumeToBeReachable_frame env p w1) as (tr2 & Hw2 & Htr2);
    destruct (WaitForVolumeToBeReachable env p w1) as [r2 w2'] end.
  simpl in Hw2. subst w2'.
  assert (Forall is_probe (EvFetchPVDetails (VolumeId req) (inr pv) :: tr1 ++ tr2))
    as Hall.
  { constructor; [exact I|]. apply Forall_app; split; eauto. }
  destruct r2 as [err|]; cbn beta iota;
    exists (EvFetchPVDetails (VolumeId req) (inr pv) :: tr1 ++ tr2);
    simpl; rewrite <- !app_assoc; simpl;
    (split; [done|]); (split; [done|]); (split; [done|]); (split; [done|]).
  - left. do 2 eexists. split; [done|]. right. eexists. split; [done|]. done.
  - right. eexists. repeat split; eauto.
Qed.

Lemma is_probe_not_write e :
  is_probe e →
  ¬ is_CreateCSIVolumeCR e ∧ ¬ is_DeleteCSIVolumeCR e ∧ ¬ is_iscsi e ∧
  (∀ id vol, e ≠ EvVolumesStore id vol) ∧ (∀ id, e ≠ EvVolumesDelete id).
Proof. destruct e; cbn; intros []; repeat split; auto; discriminate. Qed.

(** ** The bounded loops and the handlers always return *)

Lemma WaitForVolumeToBeReachable_loop_total env targetPortal (w : World) :
  is_Some (WaitForVolumeToBeReachable_loop env (Z.to_nat VolumeWaitRetryCount)
             targetPortal 0 w).1.
Proof.
  pose proof (WaitForVolumeToBeReachable_loop_spec env
                (Z.to_nat VolumeWaitRetryCount) targetPortal 0 w) as H.
  destruct (WaitForVolumeToBeReachable_loop env _ targetPortal 0 w) as [r w'].
  destruct H as [(errs & _ & -> & _)|(errs & e & _ & -> & _)];
    [lia|unfold VolumeWaitRetryCount; lia|..]; by eexists.
Qed.

Lemma checkVolumeStatus_total env volumeID (w : World) :
  is_Some (checkVolumeStatus env (Z.to_nat (VolumeWaitRetryCount + 1))
             volumeID 0 w).1.
Proof.
  pose proof (checkVolumeStatus_spec env
                (Z.to_nat (VolumeWaitRetryCount + 1)) volumeID 0 w) as H.
  destruct (checkVolumeStatus env _ volumeID 0 w) as [r w'].
  destruct H as (sts & _ & _ & [(s & _ & -> & _)|[(e & -> & _)|(s & _ & _ & -> & _)]]);
    [lia|unfold VolumeWaitRetryCount; lia|..]; by eexists.
Qed.

Lemma NodePublishVolume_returns env nodeID req (w : World) :
  is_Some (NodePublishVolume env nodeID req w).1.
Proof.
  destruct (NodePublishVolume env nodeID req w) as [r w'] eqn:Hrun.
  cbn [fst]. rewrite NodePublishVolume_unfold in Hrun.
  pose proof (publish_entry_spec env nodeID req w) as Hentry.
  destruct (publish_step env nodeID req NPV_entry w) as [pc w1].
  destruct Hentry as (_ & _ & _ & _ & _ & [(c & m & -> & _)|(v0 & -> & _)]);
    run_exec Hrun; simplify_eq; by eexists.
Qed.

Lemma NodeUnpublishVolume_returns env req (w : World) :
  is_Some (NodeUnpublishVolume env req w).1.
Proof.
  destruct (NodeUnpublishVolume env req w) as [r w'] eqn:Hrun.
  cbn [fst]. rewrite NodeUnpublishVolume_unfold in Hrun.
  run_exec Hrun; simplify_eq; by eexists.
Qed.

(** ** [NodeUnpublishVolume]: the record goes before the teardown *)

(** C7. NodeUnpublishVolume takes the record out of the registry, under the
    lock, before it calls unmount+logout: whenever the call into iscsi shows
    in the trace, the trace starts with lock, delete, unlock, and the final
    registry is the initial one without the record. When unmount+logout
    fails the call returns Internal with that error, nothing follows the
    failed call (the record is not put back, DeleteCSIVolumeCR is not
    called). DeleteCSIVolumeCR is only ever called right after an
    unmount+logout that succeeded. *)
Theorem NodeUnpublishVolume_removes_before_teardown env req (w : World) :
  let r := (NodeUnpublishVolume env req w).1 in
  let w' := (NodeUnpublishVolume env req w).2 in
  let volumeID := UnpublishVolumeId req in
  let teardown v res :=
    [EvLock VolumesListLock; EvVolumesDelete volumeID; EvUnlock VolumesListLock;
     EvUnmountAndDetachDisk v (UnpublishTargetPath req) res] in
  (∀ v path res, EvUnmountAndDetachDisk v path res ∈ trace_of w w' →
     is_Some (Volumes w !! volumeID) ∧
     Volumes w' = delete volumeID (Volumes w) ∧
     match res with
     | Some err => r = Some (Error Internal err) ∧ trace_of w w' = teardown v res
     | None => ∃ res', trace_of w w' = teardown v None ++ [EvDeleteCSIVolumeCR v res']
     end)
  ∧ (∀ v res, EvDeleteCSIVolumeCR v res ∈ trace_of w w' →
       trace_of w w' = teardown v None ++ [EvDeleteCSIVolumeCR v res]).
Proof.
  destruct (NodeUnpublishVolume env req w) as [r w'] eqn:Hrun. cbn [fst snd].
  rewrite NodeUnpublishVolume_unfold in Hrun.
  run_exec Hrun; simplify_eq; trace_norm.
  all: split; intros; elem_cases; eauto 10.
Qed.

(** A call in which unmount+logout fails. *)
Lemma NodeUnpublishVolume_removes_before_teardown_witness :
  (NodeUnpublishVolume env_unmount_fails unpublish_pvc1 World_published).1
  = Some (Error Internal "umount: target is busy")
  ∧ Volumes (NodeUnpublishVolume env_unmount_fails unpublish_pvc1 World_published).2
    = delete "pvc-1" (Volumes World_published).
Proof.
  pose proof (proj1 (NodeUnpublishVolume_removes_before_teardown
                       env_unmount_fails unpublish_pvc1 World_published)
                (with_DevicePath "/dev/sdb" vol1)
                "/var/lib/kubelet/pods/p1/mount"
                (Some "umount: target is busy")) as H.
  cbv zeta in H.
  destruct H as (_ & Hdel & Hr & _).
  - vm_compute. set_solver.
  - split; [exact Hr|exact Hdel].
Defined.

(** ** [NodePublishVolume]: a failed attach *)

(** C8. When the attach+mount call of NodePublishVolume fails, the call
    returns Internal with that error; the record it inserted earlier is in
    the registry with an empty devicePath; CreateCSIVolumeCR succeeded
    earlier in the same call and the trace holds no DeleteCSIVolumeCR and
    no delete from the registry. *)
Theorem NodePublishVolume_attach_failure_frame env nodeID req (w : World) v d err :
  let r := (NodePublishVolume env nodeID req w).1 in
  let w' := (NodePublishVolume env nodeID req w).2 in
  EvAttachAndMountDisk v (d, Some err) ∈ trace_of w w' →
  r = Some (Error Internal err) ∧
  ∃ vol pre,
    Volumes w !! VolumeId req = None ∧
    Volumes w' = <[VolumeId req := vol]> (Volumes w) ∧
    objects w' !! vol = Some v ∧ DevicePath (Volume v) = "" ∧
    registry_devicePath w' (VolumeId req) = Some "" ∧
    trace_of w w'
    = pre ++ [EvCreateCSIVolumeCR v nodeID (TargetPath req) None;
              EvVolumesStore (VolumeId req) vol;
              EvUnlock VolumesListLock;
              EvChmod (TargetPath req) 0 None;
              EvAttachAndMountDisk v (d, Some err)] ∧
    (∀ e, e ∈ trace_of w w' →
          ¬ is_DeleteCSIVolumeCR e ∧ e ≠ EvVolumesDelete (VolumeId req)).
Proof.
  destruct (NodePublishVolume env nodeID req w) as [r w'] eqn:Hrun.
  cbn [fst snd]. rewrite NodePublishVolume_unfold in Hrun.
  pose proof (publish_entry_spec env nodeID req w) as Hentry.
  destruct (publish_step env nodeID req NPV_entry w) as [pc w1].
  destruct Hentry as (tr & Hlog & Hprobe & HV & HR & Hpc).
  destruct w1 as [V1 O1 R1 L1]. cbn [Volumes objects ReqMountList log] in *.
  subst V1 R1 L1.
  destruct Hpc as [(c & m & -> & HO)|(v0 & -> & -> & Hdp & Hname & Hmp & Hcap & Hid)].
  { run_exec Hrun. simplify_eq. trace_norm. intros H. elem_cases. done. }
  run_exec Hrun; simplify_eq; trace_norm; intros H; elem_cases; try done.
  rewrite lookup_fresh in *. cbn [from_option id] in *.
  split; [done|].
  exists (length (objects w)),
    (tr ++ [EvLock VolumesListLock; EvDeleteOldCSIVolumeCR v0 nodeID None]).
  split; [done|]. split; [done|]. split; [apply lookup_fresh|]. split; [done|].
  split.
  { unfold registry_devicePath. cbn [Volumes objects].
    rewrite lookup_insert_eq, lookup_fresh. cbn. by rewrite Hdp. }
  split.
  { by rewrite Hmp, <- app_assoc. }
  intros e' He. elem_cases; cbn; try (split; [tauto|discriminate]).
  destruct (is_probe_not_write e') as (_ & ? & _ & _ & ?); eauto.
Qed.

(** A publish whose iscsi login fails. *)
Lemma NodePublishVolume_attach_failure_frame_witness :
  (NodePublishVolume env_attach_fails "node-a" publish_pvc1 World_init).1
  = Some (Error Internal "iscsiadm: login failed")
  ∧ registry_devicePath
      (NodePublishVolume env_attach_fails "node-a" publish_pvc1 World_init).2 "pvc-1"
    = Some "".
Proof.
  pose proof (NodePublishVolume_attach_failure_frame env_attach_fails "node-a"
                publish_pvc1 World_init vol1 "" "iscsiadm: login failed") as H.
  cbv zeta in H.
  destruct H as (Hr & vol & pre & _ & _ & _ & _ & Hdp & _).
  - vm_compute. set_solver.
  - split; [exact Hr|exact Hdp].
Defined.

(** ** Repeated publish and unpublish *)

(** C1, as stated, fails: pvc-1 is published (its record has a device
    path), the health oracle fails, and a repeated NodePublishVolume returns
    Internal, not Success. The wait for the volume comes before the look at
    the registry. *)
Lemma published_volume_publish_not_OK :
  registry_devicePath World_published "pvc-1" = Some "/dev/sdb"
  ∧ (NodePublishVolume env_oracle_error "node-a" publish_pvc1 World_published).1
    = Some (Error Internal "cstorvolume pvc-1 not found").
Proof. split; vm_compute; reflexivity. Qed.

(** C1, amended. Let the record of the volume exist with a non-empty
    devicePath. Then no NodePublishVolume creates a CSIVolume CR, calls into
    iscsi or changes the map, and every NodePublishVolume that gets past its
    entry region (arguments, volume details, the two bounded waits) returns
    OK after lock and unlock alone. A NodeUnpublishVolume with a volume id
    and a target path, for a volume without a record, returns OK after lock
    and unlock alone. *)
Theorem publish_unpublish_idempotent env nodeID :
  (∀ req (w : World) d,
     registry_devicePath w (VolumeId req) = Some d → d ≠ "" →
     let r := (NodePublishVolume env nodeID req w).1 in
     let w' := (NodePublishVolume env nodeID req w).2 in
     (∀ e, e ∈ trace_of w w' → ¬ is_CreateCSIVolumeCR e ∧ ¬ is_iscsi e) ∧
     Volumes w' = Volumes w ∧
     (∀ vol w1,
        publish_step env nodeID req NPV_entry w = (NPV_verifyPublish vol false, w1) →
        r = Some OK ∧
        w' = with_log w1 [EvLock VolumesListLock; EvUnlock VolumesListLock]))
  ∧ (∀ req (w : World),
       UnpublishVolumeId req ≠ "" → UnpublishTargetPath req ≠ "" →
       Volumes w !! UnpublishVolumeId req = None →
       NodeUnpublishVolume env req w
       = (Some OK, with_log w [EvLock VolumesListLock; EvUnlock VolumesListLock])).
Proof.
  split.
  - intros req w d Hd Hne.
    destruct (NodePublishVolume env nodeID req w) as [r w'] eqn:Hrun.
    cbn [fst snd]. rewrite NodePublishVolume_unfold in Hrun.
    pose proof (publish_entry_spec env nodeID req w) as Hentry.
    destruct (publish_step env nodeID req NPV_entry w) as [pc w1].
    destruct Hentry as (tr & Hlog & Hprobe & HV & HR & Hpc).
    unfold registry_devicePath in Hd.
    destruct (Volumes w !! VolumeId req) as [info|] eqn:Hinfo; [|done].
    destruct (objects w !! info) as [i|] eqn:Hi; cbn in Hd; simplify_eq; try done.
    destruct w1 as [V1 O1 R1 L1]. cbn [Volumes objects ReqMountList log] in *.
    subst V1 R1 L1.
    destruct Hpc as [(c & m & -> & HO)|(v0 & -> & -> & Hdp & Hname & Hmp & Hcap & Hid)].
    { run_exec Hrun. simplify_eq. trace_norm. cbn [Volumes].
      split; [|split; [done|]].
      - intros e He. elem_cases. destruct (is_probe_not_write e) as (? & _ & ? & _); auto.
      - intros; simplify_eq. }
    run_exec Hrun; simplify_eq; trace_norm; cbn [Volumes].
    + split; [|split; [done|]].
      * intros e He. elem_cases; cbn; try tauto.
        destruct (is_probe_not_write e) as (? & _ & ? & _); auto.
      * intros vol w1 ?; simplify_eq. split; [done|].
        unfold with_log; cbn [Volumes objects ReqMountList log].
        by rewrite <- app_assoc.
    + exfalso. match goal with Hn : ¬ (_ ≠ "") |- _ => apply Hn end.
      rewrite lookup_app_l by (by eapply lookup_lt_Some). by rewrite Hi.
  - intros req w Hid Hpath Hnone.
    destruct (NodeUnpublishVolume env req w) as [r w'] eqn:Hrun.
    rewrite NodeUnpublishVolume_unfold in Hrun.
    run_exec Hrun; simplify_eq.
    + by destruct (UnpublishVolumeId req).
    + by destruct (UnpublishTargetPath req).
    + unfold with_log. by rewrite <- app_assoc.
Qed.

(** A second publish of the published pvc-1, and an unpublish on the empty
    registry. *)
Lemma publish_unpublish_idempotent_witness :
  (NodePublishVolume env_ok "node-a" publish_pvc1 World_published).1 = Some OK
  ∧ (NodeUnpublishVolume env_ok unpublish_pvc1 World_init).1 = Some OK.
Proof.
  destruct (publish_unpublish_idempotent env_ok "node-a") as [Hpub Hunpub].
  split.
  - destruct (Hpub publish_pvc1 World_published "/dev/sdb") as (_ & _ & H);
      [reflexivity|discriminate|].
    eapply H. vm_compute. reflexivity.
  - rewrite (Hunpub unpublish_pvc1 World_init); [reflexivity|discriminate..|reflexivity].
Defined.

(** ** The registry after an error return *)

(** C9, as stated, fails: the iscsi login fails, NodePublishVolume returns
    Internal, and the registry holds a record it did not hold before. *)
Lemma publish_error_registry_changed :
  (NodePublishVolume env_attach_fails "node-a" publish_pvc1 World_init).1
  = Some (Error Internal "iscsiadm: login failed")
  ∧ Volumes World_init !! "pvc-1" = None
  ∧ Volumes (NodePublishVolume env_attach_fails "node-a" publish_pvc1 World_init).2
    !! "pvc-1" = Some O.
Proof. repeat split; vm_compute; reflexivity. Qed.

Lemma snoc_split {A} (l2 l1 : list A) (x : A) :
  l1 ++ l2 ++ [x] = (l1 ++ l2) ++ [x].
Proof. by rewrite app_assoc. Qed.

(** C9, amended. An error return of NodePublishVolume either leaves the map
    and every object as they were (the call wrote nothing to the registry),
    or it follows a failed chmod or a failed attach+mount, and then the
    registry is the initial one plus the record of the volume with an empty
    devicePath. An InvalidArgument return of NodeUnpublishVolume leaves the
    world as it was; an Internal return leaves the registry without the
    record of the volume, which was there at the start. *)
Theorem registry_after_error_return env nodeID :
  (∀ req (w : World) c m,
     (NodePublishVolume env nodeID req w).1 = Some (Error c m) →
     let w' := (NodePublishVolume env nodeID req w).2 in
     (∀ vol v, objects w !! vol = Some v → objects w' !! vol = Some v) ∧
     ((Volumes w' = Volumes w ∧
       ∀ e, e ∈ trace_of w w' → ∀ id vol, e ≠ EvVolumesStore id vol)
      ∨ (∃ vol v pre e,
           c = Internal ∧
           trace_of w w' = pre ++ [e] ∧
           (e = EvChmod (TargetPath req) 0 (Some m)
            ∨ ∃ d, e = EvAttachAndMountDisk v (d, Some m)) ∧
           Volumes w !! VolumeId req = None ∧
           Volumes w' = <[VolumeId req := vol]> (Volumes w) ∧
           objects w' !! vol = Some v ∧ DevicePath (Volume v) = "")))
  ∧ (∀ req (w : World) c m,
       (NodeUnpublishVolume env req w).1 = Some (Error c m) →
       let w' := (NodeUnpublishVolume env req w).2 in
       (c = InvalidArgument ∧ w' = w)
       ∨ (c = Internal ∧ is_Some (Volumes w !! UnpublishVolumeId req) ∧
          Volumes w' = delete (UnpublishVolumeId req) (Volumes w) ∧
          objects w' = objects w)).
Proof.
  split.
  - intros req w c m.
    destruct (NodePublishVolume env nodeID req w) as [r w'] eqn:Hrun.
    cbn [fst snd]. rewrite NodePublishVolume_unfold in Hrun.
    pose proof (publish_entry_spec env nodeID req w) as Hentry.
    destruct (publish_step env nodeID req NPV_entry w) as [pc w1].
    destruct Hentry as (tr & Hlog & Hprobe & HV & HR & Hpc).
    destruct w1 as [V1 O1 R1 L1]. cbn [Volumes objects ReqMountList log] in *.
    subst V1 R1 L1.
    assert (∀ v0 vol (v : CSIVolume),
              objects w !! vol = Some v → (objects w ++ [v0]) !! vol = Some v) as Hkeep.
    { intros v0 vol v Hv. by apply lookup_app_l_Some. }
    assert (∀ e, is_probe e → ∀ id vol, e ≠ EvVolumesStore id vol) as Htr.
    { intros e He. by destruct (is_probe_not_write e) as (_ & _ & _ & ? & _). }
    destruct Hpc as [(c' & m' & -> & HO)|(v0 & -> & -> & Hdp & Hname & Hmp & Hcap & Hid)].
    { run_exec Hrun. simplify_eq. trace_norm. cbn [Volumes objects].
      intros ?; simplify_eq. split.
      - destruct HO as [->|(v0 & -> & _)]; eauto.
      - left. split; [done|]. intros e' He. elem_cases. by apply Htr. }
    run_exec Hrun; simplify_eq; trace_norm; cbn [Volumes objects];
      intros ?; simplify_eq; (split; [by eauto|]).
    all: rewrite ?lookup_fresh in *; cbn [from_option id] in *.
    all: try (left; split; [done|]; intros e' He id' vol'; elem_cases;
              try discriminate; by eapply Htr).
    + right. eexists (length (objects w)), v0, _, _.
      split; [done|]. split; [apply (snoc_split (_ :: _ :: _ :: _ :: [_]))|].
      rewrite Hmp. split; [by left|].
      split; [done|]. split; [done|]. split; [apply lookup_fresh|done].
    + right. eexists (length (objects w)), v0, _, _.
      split; [done|]. split; [apply (snoc_split (_ :: _ :: _ :: _ :: _ :: [_]))|].
      split; [right; eauto|].
      split; [done|]. split; [done|]. split; [apply lookup_fresh|done].
  - intros req w c m.
    destruct (NodeUnpublishVolume env req w) as [r w'] eqn:Hrun.
    cbn [fst snd]. rewrite NodeUnpublishVolume_unfold in Hrun.
    run_exec Hrun; simplify_eq; intros ?; simplify_eq; cbn [Volumes objects];
      eauto 10.
Qed.

(** An error return before the insert (the oracle fails) and one after it
    (unmount+logout fails in an unpublish). *)
Lemma registry_after_error_return_witness :
  Volumes (NodePublishVolume env_oracle_error "node-a" publish_pvc1 World_init).2
  = Volumes World_init
  ∧ Volumes (NodeUnpublishVolume env_unmount_fails unpublish_pvc1 World_published).2
    = delete "pvc-1" (Volumes World_published).
Proof.
  destruct (registry_after_error_return env_oracle_error "node-a") as [Hpub _].
  destruct (registry_after_error_return env_unmount_fails "node-a") as [_ Hunpub].
  split.
  - destruct (Hpub publish_pvc1 World_init Internal "cstorvolume pvc-1 not found")
      as (_ & [[H _]|(vol & v & pre & e & _ & _ & _ & _ & H & _)]);
      [vm_compute; reflexivity|exact H|].
    exfalso. apply (f_equal (λ m, m !! "pvc-1")) in H. vm_compute in H. discriminate.
  - destruct (Hunpub unpublish_pvc1 World_published Internal "umount: target is busy")
      as [[H _]|(_ & _ & H & _)]; [vm_compute; reflexivity|discriminate|exact H].
Defined.

(** ** [NodePublishVolume]: the health oracle fails *)

(** C10. When the query of the health oracle itself fails,
    WaitForVolumeToBeReady returns that error at once: the query is the only
    effect, there is no sleep and no second query. In NodePublishVolume,
    where the wait follows GetVolumeDetails, the first query failing makes
    the call return Internal with that error after those two calls. *)
Theorem oracle_error_fails_fast env nodeID req (w : World) cap pv err :
  VolumeCapability req = Some cap → VolumeId req ≠ "" →
  env_FetchPVDetails env (log w) (VolumeId req) = inr pv →
  env_getVolStatus env (log w ++ [EvFetchPVDetails (VolumeId req) (inr pv)])
    (VolumeId req) = inl err →
  (∀ w1 : World,
     env_getVolStatus env (log w1) (VolumeId req) = inl err →
     WaitForVolumeToBeReady env (VolumeId req) w1
     = (Some err, with_log w1 [EvGetVolStatus (VolumeId req) (inl err)]))
  ∧ (NodePublishVolume env nodeID req w).1 = Some (Error Internal err)
  ∧ trace_of w (NodePublishVolume env nodeID req w).2
    = [EvFetchPVDetails (VolumeId req) (inr pv);
       EvGetVolStatus (VolumeId req) (inl err)].
Proof.
  intros Hcap Hid Hpv Hst.
  split; [intros w1 H1; by apply WaitForVolumeToBeReady_error_first|].
  rewrite NodePublishVolume_unfold.
  assert (publish_step env nodeID req NPV_entry w
          = (NPV_return (Error Internal err),
             {| Volumes := Volumes w;
                objects := objects w ++
                  [{| Volume := {| Name := VolumeId req;
                                   Capacity := pvCapacityStorage pv;
                                   FSType := pvFSType pv;
                                   AccessModes := pvAccessModes pv;
                                   MountPath := TargetPath req;
                                   MountOptions := default [] cap;
                                   ReadOnly := Readonly req;
                                   DevicePath := "" |};
                      ISCSI := {| Iqn := default "" (pvVolumeAttributes pv !! "iqn");
                                  TargetPortal := default "" (pvVolumeAttributes pv !! "targetPortal");
                                  IscsiInterface := default "" (pvVolumeAttributes pv !! "iscsiInterface");
                                  Lun := default "" (pvVolumeAttributes pv !! "lun") |} |}];
                ReqMountList := ReqMountList w;
                log := log w ++ [EvFetchPVDetails (VolumeId req) (inr pv);
                                 EvGetVolStatus (VolumeId req) (inl err)] |})) as ->.
  { unfold publish_step. rewrite Hcap.
    destruct (decide (String.length (VolumeId req) = O)) as [H0|_].
    { destruct (VolumeId req); [done|discriminate]. }
    unfold GetVolumeDetails, FetchPVDetails. unfold bind at 1 2.
    rewrite call_with_log, Hpv. unfold bind at 1, new_CSIVolume, ret at 1.
    unfold bind at 1. cbn [with_log log Volumes objects ReqMountList].
    erewrite WaitForVolumeToBeReady_error_first by exact Hst.
    unfold ret, with_log. cbn [log Volumes objects ReqMountList].
    by rewrite <- app_assoc. }
  rewrite run_publish_return. cbn [fst snd response_of_publish].
  split; [done|]. by apply trace_of_app.
Qed.

(** The oracle fails on the first query of a publish of pvc-1. *)
Lemma oracle_error_fails_fast_witness :
  (NodePublishVolume env_oracle_error "node-a" publish_pvc1 World_init).1
  = Some (Error Internal "cstorvolume pvc-1 not found")
  ∧ trace_of World_init
      (NodePublishVolume env_oracle_error "node-a" publish_pvc1 World_init).2
    = [EvFetchPVDetails "pvc-1" (inr pv1);
       EvGetVolStatus "pvc-1" (inl "cstorvolume pvc-1 not found")].
Proof.
  exact (proj2 (oracle_error_fails_fast env_oracle_error "node-a" publish_pvc1
                  World_init (Some ["rw"]) pv1 "cstorvolume pvc-1 not found"
                  eq_refl ltac:(discriminate) eq_refl eq_refl)).
Defined.

(** ** [NodePublishVolume]: a duplicate request during the mount *)

(** C4. When the region at [verifyPublish] finds the record of the volume
    with an empty devicePath and [reVerified] is false, it unlocks and goes
    to the sleep; the sleep lasts R*T = 12 s, is taken without the lock, and
    leads back to [verifyPublish] with [reVerified] set. Whatever the world
    is by then: a record with a devicePath gives OK, a record still without
    one gives Internal "Mount under progress", and in no case a second
    sleep. *)
Theorem duplicate_publish_during_mount env nodeID req vol (w : World) :
  registry_devicePath w (VolumeId req) = Some "" →
  publish_step env nodeID req (NPV_verifyPublish vol false) w
  = (NPV_sleep vol, with_log w [EvLock VolumesListLock; EvUnlock VolumesListLock])
  ∧ (∀ w1 : World,
       publish_step env nodeID req (NPV_sleep vol) w1
       = (NPV_verifyPublish vol true, with_log w1 [EvSleep 12]))
  ∧ (∀ (w2 : World) d,
       registry_devicePath w2 (VolumeId req) = Some d →
       publish_step env nodeID req (NPV_verifyPublish vol true) w2
       = (NPV_return (if decide (d = "") then Error Internal "Mount under progress"
                      else OK),
          with_log w2 [EvLock VolumesListLock; EvUnlock VolumesListLock]))
  ∧ (∀ (w2 : World) fuel,
       let (pc, w3) := run_publish env fuel nodeID req (NPV_verifyPublish vol true) w2 in
       (∀ vol', pc ≠ NPV_sleep vol') ∧
       ∀ e, e ∈ trace_of w2 w3 → ¬ is_Sleep e).
Proof.
  intros Hd. split; [|split; [|split]].
  - unfold registry_devicePath in Hd.
    destruct (Volumes w !! VolumeId req) as [info|] eqn:Hinfo; [|done].
    simplify_eq.
    destruct (publish_step env nodeID req (NPV_verifyPublish vol false) w)
      as [pc w'] eqn:Hrun.
    run_exec Hrun; simplify_eq; try done.
    unfold with_log. cbn [log Volumes objects ReqMountList].
    by rewrite <- app_assoc.
  - intros w1. reflexivity.
  - intros w2 d Hd2. unfold registry_devicePath in Hd2.
    destruct (Volumes w2 !! VolumeId req) as [info|] eqn:Hinfo; [|done].
    simplify_eq.
    destruct (publish_step env nodeID req (NPV_verifyPublish vol true) w2)
      as [pc w'] eqn:Hrun.
    run_exec Hrun; simplify_eq; unfold with_log;
      cbn [log Volumes objects ReqMountList]; rewrite <- app_assoc;
      match goal with |- context [decide (?P = "")] => destruct (decide (P = "")) end;
      done.
  - intros w2 fuel. destruct fuel as [|fuel].
    { cbn [run_publish ret]. split; [by intros ??|].
      rewrite trace_of_refl. intros ev Hev. elem_cases. }
    destruct (run_publish env (S fuel) nodeID req (NPV_verifyPublish vol true) w2)
      as [pc w3] eqn:Hrun.
    do 4 (destruct fuel as [|fuel];
          [run_exec Hrun; simplify_eq;
           trace_norm; (split; [by intros ??|]);
           intros ev Hev; elem_cases; cbn; tauto|]).
    run_exec Hrun; simplify_eq; trace_norm; (split; [by intros ??|]);
      intros ev Hev; elem_cases; cbn; tauto.
Qed.

(** A second publish of pvc-1 while the first one is still mounting. *)
Lemma duplicate_publish_during_mount_witness :
  publish_step env_ok "node-a" publish_pvc1 (NPV_verifyPublish 1 false) World_mounting
  = (NPV_sleep 1,
     with_log World_mounting [EvLock VolumesListLock; EvUnlock VolumesListLock]).
Proof.
  exact (proj1 (duplicate_publish_during_mount env_ok "node-a" publish_pvc1 1%nat
                  World_mounting eq_refl)).
Defined.

(** ** The two bounded waits *)

(** C6, as stated, fails: the volume reports Offline on six queries, each
    followed by a sleep of 2 s, and WaitForVolumeToBeReady does not fail:
    it asks a seventh time and, the volume being healthy by then, returns
    nil. *)
Lemma WaitForVolumeToBeReady_seventh_query :
  WaitForVolumeToBeReady env_ready_on_7th "pvc-1" World_init
  = (None,
     with_log World_init
       (flat_map (status_not_ready "pvc-1") (replicate 6 "Offline")
        ++ [EvGetVolStatus "pvc-1" (inr "Healthy")])).
Proof. vm_compute. reflexivity. Qed.

(** C6, amended. WaitForVolumeToBeReady asks the oracle; statuses other
    than Healthy and Degraded are each followed by a sleep of T = 2 s and a
    new query, at most R = 6 times. It returns nil at the first Healthy or
    Degraded, the error of the oracle at the first query that fails, and the
    not-ready error when the query after the sixth sleep, the seventh,
    still does not report Healthy or Degraded. WaitForVolumeToBeReachable
    dials; every failed dial is followed by a sleep of 2 s. It returns nil
    at the first dial that succeeds, which is one of the first six, and
    the unreachable error, with the error of the last dial, after exactly
    six failed dials. *)
Theorem readiness_probes_bounded env (volumeID targetPortal : string) (w : World) :
  (let (r, w') := WaitForVolumeToBeReady env volumeID w in
   ∃ sts, (length sts ≤ 6)%nat ∧ Forall (λ st, ¬ ready st) sts ∧
     ((∃ st, ready st ∧ r = None ∧
         w' = with_log w (flat_map (status_not_ready volumeID) sts
                          ++ [EvGetVolStatus volumeID (inr st)]))
      ∨ (∃ err, r = Some err ∧
         w' = with_log w (flat_map (status_not_ready volumeID) sts
                          ++ [EvGetVolStatus volumeID (inl err)]))
      ∨ (∃ st, ¬ ready st ∧ length sts = 6%nat ∧ r = Some not_ready_error ∧
         w' = with_log w (flat_map (status_not_ready volumeID) sts
                          ++ [EvGetVolStatus volumeID (inr st)]))))
  ∧ (let (r, w') := WaitForVolumeToBeReachable env targetPortal w in
     (∃ errs, (length errs < 6)%nat ∧ r = None ∧
        w' = with_log w (flat_map (dial_failed targetPortal) errs
                         ++ [EvDial targetPortal None]))
     ∨ (∃ errs err, length (errs ++ [err]) = 6%nat ∧
        r = Some (unreachable_error targetPortal err) ∧
        w' = with_log w (flat_map (dial_failed targetPortal) (errs ++ [err])))).
Proof.
  split.
  - exact (WaitForVolumeToBeReady_spec env volumeID w).
  - pose proof (WaitForVolumeToBeReachable_spec env targetPortal w) as H.
    destruct (WaitForVolumeToBeReachable env targetPortal w) as [r w'].
    destruct H as [H|(errs & err & Hl & H)]; [by left|].
    right. exists errs, err. split; [|done].
    rewrite length_app. simpl. lia.
Qed.

(** ** [MonitorMounts] *)

Lemma monitor_step_spec env order pc (w : World) :
  let '((pc', a), w') := monitor_step env order pc w in
  objects w' = objects w ∧ Volumes w' = Volumes w ∧
  match pc with
  | MM_ticker =>
      pc' = MM_range (env_mounterList env (log w)) order ∧ a = None ∧
      ReqMountList w' = ReqMountList w
  | MM_range mlist [] =>
      pc' = MM_ticker ∧ a = None ∧ ReqMountList w' = ReqMountList w
  | MM_range mlist (vol :: rest) =>
      a = None ∧ ReqMountList w' = ReqMountList w ∧
      (pc' = MM_range mlist rest
       ∨ (∃ ex mp, pc' = MM_mark mlist rest vol ex mp ∧
            devicePath_at w vol ≠ "" ∧
            ReqMountList w !! name_of w vol = None))
  | MM_mark mlist rest vol ex mp =>
      pc' = MM_go mlist rest vol ex mp ∧ a = None ∧
      ReqMountList w' = <[name_of w vol := true]> (ReqMountList w)
  | MM_go mlist rest vol ex mp =>
      pc' = MM_range mlist rest ∧ ReqMountList w' = ReqMountList w ∧
      ∃ args, a = Some args ∧ r_vol args = vol
  end.
Proof.
  destruct (monitor_step env order pc w) as [[pc' a] w'] eqn:Hrun.
  destruct pc as [|mlist [|vol rest]| |];
    run_exec Hrun; simplify_eq; cbn [objects Volumes ReqMountList];
    unfold devicePath_at, name_of; eauto 10.
Qed.

Lemma run_monitor_spec env fuel pc (w : World) :
  (∀ vol, monitor_chosen pc = Some vol → devicePath_at w vol ≠ "") →
  let '((pc', gos), w') := run_monitor env fuel pc w in
  objects w' = objects w ∧ Volumes w' = Volumes w ∧
  ((monitor_rank pc ≤ fuel)%nat → pc' = MM_ticker) ∧
  ∀ args, args ∈ gos →
    r_vol args ∈ monitor_vols pc ∧ devicePath_at w (r_vol args) ≠ "".
Proof.
  revert pc w. induction fuel as [|fuel IH]; intros pc w Hchosen.
  { assert (run_monitor env 0 pc w = ((pc, []), w)) as -> by (by destruct pc).
    split; [done|]. split; [done|]. split.
    - destruct pc; cbn; intros; (done || lia).
    - intros args Ha. by apply elem_of_nil in Ha. }
  assert (pc = MM_ticker ∨ pc ≠ MM_ticker) as [->|Hpc]
    by (destruct pc; auto).
  { cbn. split; [done|]. split; [done|]. split; [done|].
    intros args Ha. by apply elem_of_nil in Ha. }
  assert (run_monitor env (S fuel) pc w
          = let '((pc1, a), w1) := monitor_step env [] pc w in
            let '((pc2, gos), w2) := run_monitor env fuel pc1 w1 in
            ((pc2, option_list a ++ gos), w2)) as ->.
  { destruct pc; [done|..]; cbn [run_monitor]; unfold bind, ret;
      destruct (monitor_step env [] _ w) as [[pc1 a] w1]; cbn [fst snd];
      by destruct (run_monitor env fuel pc1 w1) as [[pc2 gos] w2]. }
  pose proof (monitor_step_spec env [] pc w) as Hstep.
  destruct (monitor_step env [] pc w) as [[pc1 a] w1].
  destruct Hstep as (Hobj & Hvol & Hcase).
  assert (∀ vol, devicePath_at w1 vol = devicePath_at w vol) as Hdp.
  { intros vol. unfold devicePath_at. by rewrite Hobj. }
  specialize (IH pc1 w1).
  destruct (run_monitor env fuel pc1 w1) as [[pc2 gos] w2].
  destruct pc as [|mlist [|vol rest]|mlist rest vol ex mp|mlist rest vol ex mp];
    [done|..]; cbn [monitor_rank monitor_vols monitor_chosen] in *.
  - destruct Hcase as (-> & -> & _).
    destruct IH as (Ho2 & Hv2 & Hrank & Hgos); [done|].
    split; [by rewrite Ho2|]. split; [by rewrite Hv2|].
    split; [intros Hle; apply Hrank; cbn [length monitor_rank] in *; lia|].
    intros args Ha. cbn in Ha. apply Hgos in Ha as [Ha _].
    cbn in Ha. by apply elem_of_nil in Ha.
  - destruct Hcase as (-> & _ & [->|(ex & mp & -> & Hne & _)]);
      (destruct IH as (Ho2 & Hv2 & Hrank & Hgos);
       [cbn; intros; simplify_eq; by rewrite Hdp|]);
      (split; [by rewrite Ho2|]); (split; [by rewrite Hv2|]);
      (split; [intros Hle; apply Hrank; cbn [length monitor_rank] in *; lia|]);
      intros args Ha; cbn in Ha; apply Hgos in Ha as [Ha1 Ha2];
      rewrite Hdp in Ha2; (split; [|done]); cbn in Ha1;
      (done || by apply list_elem_of_further).
  - destruct Hcase as (-> & -> & _).
    destruct IH as (Ho2 & Hv2 & Hrank & Hgos);
      [cbn; intros; simplify_eq; rewrite Hdp; by apply Hchosen|].
    split; [by rewrite Ho2|]. split; [by rewrite Hv2|].
    split; [intros Hle; apply Hrank; cbn [length monitor_rank] in *; lia|].
    intros args Ha. cbn in Ha. apply Hgos in Ha as [Ha1 Ha2].
    rewrite Hdp in Ha2. done.
  - destruct Hcase as (-> & _ & args0 & -> & Hargs).
    destruct IH as (Ho2 & Hv2 & Hrank & Hgos); [done|].
    split; [by rewrite Ho2|]. split; [by rewrite Hv2|].
    split; [intros Hle; apply Hrank; cbn [length monitor_rank] in *; lia|].
    intros args Ha. cbn in Ha. apply elem_of_cons in Ha as [->|Ha].
    + rewrite Hargs. split; [apply list_elem_of_here|]. by apply Hchosen.
    + apply Hgos in Ha as [Ha1 Ha2]. rewrite Hdp in Ha2. cbn in Ha1.
      split; [by apply list_elem_of_further|done].
Qed.

(** C2. A visit of [MonitorMounts] to a volume whose devicePath is empty
    does nothing at all and goes on to the next volume, whatever the mount
    table holds: the table is not looked at. A whole tick ends back at the
    ticker, leaves registry and objects alone, and every goroutine it
    started is for a volume of this tick whose devicePath is not empty; so
    none is started for a volume whose registry record has an empty
    devicePath. *)
Theorem monitor_skips_unfinished_publish env :
  (∀ order mlist rest vol (w : World),
     devicePath_at w vol = "" →
     monitor_step env order (MM_range mlist (vol :: rest)) w
     = ((MM_range mlist rest, None), w))
  ∧ (∀ order (w : World),
       let '((pc, gos), w') := MonitorMounts_tick env order w in
       pc = MM_ticker ∧ objects w' = objects w ∧ Volumes w' = Volumes w ∧
       (∀ args, args ∈ gos →
          r_vol args ∈ order ∧ devicePath_at w (r_vol args) ≠ "") ∧
       (∀ volumeID vol,
          Volumes w !! volumeID = Some vol →
          registry_devicePath w volumeID = Some "" →
          ∀ args, args ∈ gos → r_vol args ≠ vol)).
Proof.
  split.
  - intros order mlist rest vol w Hdp. unfold devicePath_at in Hdp.
    cbn [monitor_step]. unfold bind, load, ret.
    by destruct (decide (DevicePath (Volume (default CSIVolume_zero
                                              (objects w !! vol))) = "")).
  - intros order w. unfold MonitorMounts_tick, bind.
    pose proof (monitor_step_spec env order MM_ticker w) as Hstep.
    destruct (monitor_step env order MM_ticker w) as [[pc1 a] w1].
    destruct Hstep as (Hobj & Hvol & -> & -> & _). cbn [fst].
    pose proof (run_monitor_spec env (3 * length order + 1)
                  (MM_range (env_mounterList env (log w)) order) w1) as Hrun.
    destruct (run_monitor env _ _ w1) as [[pc gos] w'].
    destruct Hrun as (Hobj' & Hvol' & Hrank & Hgos); [done|].
    assert (∀ vol, devicePath_at w1 vol = devicePath_at w vol) as Hdp.
    { intros vol. unfold devicePath_at. by rewrite Hobj. }
    split; [by apply Hrank|]. split; [congruence|]. split; [congruence|].
    assert (∀ args, args ∈ gos →
              r_vol args ∈ order ∧ devicePath_at w (r_vol args) ≠ "") as Hspawn.
    { intros args Ha. apply Hgos in Ha as [Ha1 Ha2]. by rewrite Hdp in Ha2. }
    split; [exact Hspawn|].
    intros volumeID vol Hv Hreg args Ha Heq.
    apply Hspawn in Ha as [_ Ha]. apply Ha. rewrite Heq.
    unfold registry_devicePath in Hreg. rewrite Hv in Hreg. by simplify_eq.
Qed.

(** pvc-1 is still being mounted when [MonitorMounts] comes to it. *)
Lemma monitor_skips_unfinished_publish_witness :
  monitor_step env_ok [O] (MM_range [] [O]) World_mounting
  = ((MM_range [] [], None), World_mounting).
Proof.
  exact (proj1 (monitor_skips_unfinished_publish env_ok) [O] [] [] O
           World_mounting eq_refl).
Defined.

(** ** What one region does to the shared state *)

Lemma publish_step_spec env nodeID req pc (w : World) :
  let (pc', w') := publish_step env nodeID req pc w in
  ReqMountList w' = ReqMountList w ∧
  (Volumes w' = Volumes w
   ∨ ∃ vol, publish_holds pc = Some vol ∧ Volumes w !! VolumeId req = None ∧
       Volumes w' = <[VolumeId req := vol]> (Volumes w)) ∧
  match pc with
  | NPV_entry =>
      (publish_holds pc' = None ∧
       (objects w' = objects w
        ∨ ∃ v, objects w' = objects w ++ [v] ∧ DevicePath (Volume v) = ""))
      ∨ (∃ v, publish_holds pc' = Some (length (objects w)) ∧
           objects w' = objects w ++ [v] ∧ DevicePath (Volume v) = "")
  | NPV_setDevicePath vol d =>
      objects w' = alter (with_DevicePath d) vol (objects w) ∧
      publish_holds pc' = None
  | _ =>
      objects w' = objects w ∧
      (publish_holds pc' = publish_holds pc ∨ publish_holds pc' = None)
  end.
Proof.
  assert (pc = NPV_entry ∨ pc ≠ NPV_entry) as [->|Hpc] by (destruct pc; auto).
  { pose proof (publish_entry_spec env nodeID req w) as H.
    destruct (publish_step env nodeID req NPV_entry w) as [pc' w'].
    destruct H as (tr & _ & _ & HV & HR & Hcase).
    split; [done|]. split; [by left|].
    destruct Hcase as [(c & m & -> & HO)|(v & -> & HO & Hdp & _)]; [by left|].
    right. by exists v. }
  destruct (publish_step env nodeID req pc w) as [pc' w'] eqn:Hrun.
  destruct pc; [done|..]; run_exec Hrun; simplify_eq;
    cbn [Volumes objects ReqMountList publish_holds]; eauto 10.
Qed.

Lemma unpublish_step_spec env req pc (w : World) :
  let (pc', w') := unpublish_step env req pc w in
  ReqMountList w' = ReqMountList w ∧ objects w' = objects w ∧
  (Volumes w' = Volumes w
   ∨ Volumes w' = delete (UnpublishVolumeId req) (Volumes w)).
Proof.
  destruct (unpublish_step env req pc w) as [pc' w'] eqn:Hrun.
  destruct pc; run_exec Hrun; simplify_eq;
    cbn [Volumes objects ReqMountList]; eauto.
Qed.

Lemma remount_step_spec env args pc (w : World) :
  let (pc', w') := remount_step env args pc w in
  objects w' = objects w ∧ Volumes w' = Volumes w ∧
  match pc with
  | RV_clear d err =>
      pc' = RV_return d err ∧
      ReqMountList w' = delete (name_of w (r_vol args)) (ReqMountList w)
  | RV_return d err => pc' = pc ∧ ReqMountList w' = ReqMountList w
  | _ => ReqMountList w' = ReqMountList w ∧ ∀ d err, pc' ≠ RV_return d err
  end.
Proof.
  destruct (remount_step env args pc w) as [pc' w'] eqn:Hrun.
  destruct pc.
  - cbn [remount_step] in Hrun. unfold bind at 1, load at 1 in Hrun.
    unfold bind at 1 in Hrun.
    match type of Hrun with context [WaitForVolumeToBeReady env ?id ?w1] =>
      destruct (WaitForVolumeToBeReady_frame env id w1) as (tr1 & Hw1 & _);
      destruct (WaitForVolumeToBeReady env id w1) as [r1 w1'] end.
    cbn [snd] in Hw1. subst w1'. destruct r1 as [err|].
    { unfold ret in Hrun. simplify_eq. cbn. by repeat split. }
    unfold bind at 1, load at 1 in Hrun. unfold bind at 1 in Hrun.
    match type of Hrun with context [WaitForVolumeToBeReachable env ?p ?w1] =>
      destruct (WaitForVolumeToBeReachable_frame env p w1) as (tr2 & Hw2 & _);
      destruct (WaitForVolumeToBeReachable env p w1) as [r2 w2'] end.
    cbn [snd] in Hw2. subst w2'.
    destruct r2; unfold ret in Hrun; simplify_eq; cbn; by repeat split.
  - run_exec Hrun; simplify_eq; cbn [Volumes objects ReqMountList];
      by repeat split.
  - run_exec Hrun; simplify_eq; cbn [Volumes objects ReqMountList];
      by repeat split.
  - run_exec Hrun; by simplify_eq.
  - run_exec Hrun; simplify_eq. by repeat split.
Qed.

(** ** The invariant is kept by every move of the system *)

Lemma name_in_app os v vol :
  (vol < length os)%nat → name_in (os ++ [v]) vol = name_in os vol.
Proof. intros H. unfold name_in. by rewrite lookup_app_l. Qed.

Lemma name_in_alter os d vol vol' :
  name_in (alter (with_DevicePath d) vol os) vol' = name_in os vol'.
Proof.
  unfold name_in. destruct (decide (vol = vol')) as [->|Hne].
  - rewrite list_lookup_alter_eq. by destruct (os !! vol').
  - by rewrite list_lookup_alter_ne.
Qed.

(** Fewer holders and fewer repairs keep the invariant. *)
Lemma Inv'_weaken os V rml m hs rs hs' rs' :
  (∀ i vol, hs' !! i = Some (Some vol) → hs !! i = Some (Some vol)) →
  (∀ i vol, rs' !! i = Some (Some vol) → rs !! i = Some (Some vol)) →
  Inv' os V rml m hs rs → Inv' os V rml m hs' rs'.
Proof.
  intros Hh Hr [I1 I2 I3 I4 I5 I6 I7 I8 I9]. split; eauto.
Qed.

Lemma insert_None_sub {A} (l : list (option A)) i j (x : A) :
  <[i := None]> l !! j = Some (Some x) → l !! j = Some (Some x).
Proof.
  intros H. apply list_lookup_insert_Some in H as [(_ & ? & _)|[_ H]]; done.
Qed.

Lemma insert_same_sub {A} (l : list (option A)) i j (o : option A) (x : A) :
  l !! i = Some o → <[i := o]> l !! j = Some (Some x) → l !! j = Some (Some x).
Proof. intros Hi. by rewrite list_insert_id. Qed.

Lemma snoc_None_sub {A} (l : list (option A)) j (x : A) :
  (l ++ [None]) !! j = Some (Some x) → l !! j = Some (Some x).
Proof.
  intros H. apply lookup_app_Some in H as [H|[_ H]]; [done|].
  by destruct (j - length l)%nat.
Qed.

(** A new object, and possibly goroutine [i], which held nothing, now
    holding it. *)
Lemma Inv'_alloc os V rml m hs rs v i (fresh : bool) :
  DevicePath (Volume v) = "" →
  Inv' os V rml m hs rs →
  Inv' (os ++ [v]) V rml m
       (if fresh then <[i := Some (length os)]> hs else hs) rs.
Proof.
  intros Hdp [I1 I2 I3 I4 I5 I6 I7 I8 I9].
  assert (∀ vol, (vol < length os)%nat → (vol < length (os ++ [v]))%nat) as Hlt.
  { intros vol ?. rewrite length_app. simpl. lia. }
  assert (∀ j vol, hs !! j = Some (Some vol) → (vol < length os)%nat) as Hheld.
  { intros j vol Hj. destruct (I1 _ _ Hj) as (v' & Hv' & _).
    by eapply lookup_lt_Some. }
  split.
  - intros j vol Hj. destruct fresh.
    + apply list_lookup_insert_Some in Hj as [(_ & ? & _)|[_ Hj]].
      * simplify_eq. exists v. by rewrite lookup_fresh.
      * destruct (I1 _ _ Hj) as (v' & Hv' & ?). exists v'.
        split; [|done]. by apply lookup_app_l_Some.
    + destruct (I1 _ _ Hj) as (v' & Hv' & ?). exists v'.
      split; [|done]. by apply lookup_app_l_Some.
  - intros j k vol Hj Hk. destruct fresh; [|by eauto].
    apply list_lookup_insert_Some in Hj as [(-> & ? & _)|[? Hj]];
      apply list_lookup_insert_Some in Hk as [(-> & ? & _)|[? Hk]];
      simplify_eq; try done.
    + apply Hheld in Hk. lia.
    + apply Hheld in Hj. lia.
    + eauto.
  - eauto.
  - eauto.
  - eauto.
  - intros j k vj vk Hj Hk. rewrite !name_in_app by eauto. eauto.
  - intros j vol Hj. rewrite name_in_app by eauto. eauto.
  - intros vol j vol' Hm Hj. rewrite !name_in_app; eauto.
    apply I4. destruct m; simplify_eq/=; apply list_elem_of_here.
  - intros mlist rest vol ex mp ->. rewrite name_in_app; eauto.
    apply I4. apply list_elem_of_here.
Qed.

(** The record of a held object is inserted into the registry. *)
Lemma Inv'_insert os V rml m hs rs i id vol :
  hs !! i = Some (Some vol) →
  Inv' os V rml m hs rs → Inv' os (<[id := vol]> V) rml m hs rs.
Proof.
  intros Hi [I1 I2 I3 I4 I5 I6 I7 I8 I9]. split; eauto.
  intros id' vol' H. apply lookup_insert_Some in H as [[_ <-]|[_ H]]; [|eauto].
  destruct (I1 _ _ Hi) as (v & Hv & _). by eapply lookup_lt_Some.
Qed.

(** A record is deleted from the registry. *)
Lemma Inv'_delete os V rml m hs rs id :
  Inv' os V rml m hs rs → Inv' os (delete id V) rml m hs rs.
Proof.
  intros [I1 I2 I3 I4 I5 I6 I7 I8 I9]. split; eauto.
  intros id' vol' H. apply lookup_delete_Some in H as [_ H]. eauto.
Qed.

(** The holder of an object writes its devicePath and lets go of it. *)
Lemma Inv'_setDevicePath os V rml m hs rs i vol d :
  hs !! i = Some (Some vol) →
  Inv' os V rml m hs rs →
  Inv' (alter (with_DevicePath d) vol os) V rml m (<[i := None]> hs) rs.
Proof.
  intros Hi [I1 I2 I3 I4 I5 I6 I7 I8 I9].
  split; try (setoid_rewrite length_alter); try (setoid_rewrite name_in_alter);
    eauto.
  - intros j vol' Hj.
    apply list_lookup_insert_Some in Hj as [(_ & ? & _)|[Hne Hj]]; [done|].
    destruct (I1 _ _ Hj) as (v & Hv & ?). exists v. split; [|done].
    rewrite list_lookup_alter_ne; [done|].
    intros ->. apply Hne. eauto.
  - intros j k vol' Hj Hk. apply insert_None_sub in Hj, Hk. eauto.
Qed.

(** A repair task removes its volume from [ReqMountList] and returns. *)
Lemma Inv'_clear os V rml m hs rs i vol :
  rs !! i = Some (Some vol) →
  Inv' os V rml m hs rs →
  Inv' os V (delete (name_in os vol) rml) m hs (<[i := None]> rs).
Proof.
  intros Hi [I1 I2 I3 I4 I5 I6 I7 I8 I9]. split; eauto.
  - intros j vol' Hj. apply insert_None_sub in Hj. eauto.
  - intros j k vj vk Hj Hk. apply insert_None_sub in Hj, Hk. eauto.
  - intros j vol' Hj.
    apply list_lookup_insert_Some in Hj as [(_ & ? & _)|[Hne Hj]]; [done|].
    rewrite lookup_delete_ne; [eauto|].
    intros Heq. apply Hne. eauto.
  - intros vol' j vol'' Hm Hj. apply insert_None_sub in Hj. eauto.
  - intros mlist rest vol' ex mp ->.
    rewrite lookup_delete_ne; [eauto|].
    intros Heq. by eapply (I8 vol' i vol).
Qed.

(** [MonitorMounts] moves on without a chosen volume. *)
Lemma Inv'_monitor os V rml m m' hs rs :
  (∀ vol, vol ∈ monitor_vols m' → (vol < length os)%nat) →
  monitor_chosen m' = None →
  Inv' os V rml m hs rs → Inv' os V rml m' hs rs.
Proof.
  intros Hvols Hnone [I1 I2 I3 I4 I5 I6 I7 I8 I9]. split; eauto.
  - intros vol i vol' Hm. congruence.
  - intros mlist rest vol ex mp ->. done.
Qed.

(** [MonitorMounts] chooses a volume whose name is not in [ReqMountList]. *)
Lemma Inv'_monitor_mark os V rml mlist rest vol ex mp hs rs :
  rml !! name_in os vol = None →
  Inv' os V rml (MM_range mlist (vol :: rest)) hs rs →
  Inv' os V rml (MM_mark mlist rest vol ex mp) hs rs.
Proof.
  intros Hnone [I1 I2 I3 I4 I5 I6 I7 I8 I9]. split; eauto.
  - intros vol' i vol'' Hm Hi Heq. cbn in Hm. simplify_eq.
    apply I7 in Hi. congruence.
  - intros ????? [=].
Qed.

(** [MonitorMounts] puts the name of the chosen volume into [ReqMountList]. *)
Lemma Inv'_monitor_store os V rml mlist rest vol ex mp hs rs :
  Inv' os V rml (MM_mark mlist rest vol ex mp) hs rs →
  Inv' os V (<[name_in os vol := true]> rml) (MM_go mlist rest vol ex mp) hs rs.
Proof.
  intros [I1 I2 I3 I4 I5 I6 I7 I8 I9]. split; eauto.
  - intros i vol' Hi. apply lookup_insert_Some.
    destruct (decide (name_in os vol = name_in os vol')); [by left|right; eauto].
  - intros ????? [=]. simplify_eq. apply lookup_insert_eq.
Qed.

(** [MonitorMounts] starts the repair task of the chosen volume. *)
Lemma Inv'_monitor_go os V rml mlist rest vol ex mp hs rs :
  Inv' os V rml (MM_go mlist rest vol ex mp) hs rs →
  Inv' os V rml (MM_range mlist rest) (hs ++ [None]) (rs ++ [Some vol]).
Proof.
  intros [I1 I2 I3 I4 I5 I6 I7 I8 I9].
  assert (∀ j vol', (rs ++ [Some vol]) !! j = Some (Some vol') →
            rs !! j = Some (Some vol') ∨ (j = length rs ∧ vol' = vol)) as Hsnoc.
  { intros j vol' H. apply lookup_app_Some in H as [H|[Hge H]]; [by left|].
    right. destruct (j - length rs)%nat eqn:E; simplify_eq/=.
    split; [lia|done]. }
  assert (∀ j vol', rs !! j = Some (Some vol') → (j < length rs)%nat) as Hlt.
  { intros j vol' H. by eapply lookup_lt_Some. }
  split.
  - intros i vol' Hi. apply snoc_None_sub in Hi. eauto.
  - intros i j vol' Hi Hj. apply snoc_None_sub in Hi, Hj. eauto.
  - eauto.
  - intros vol' Hv. apply I4. by apply list_elem_of_further.
  - intros i vol' Hi. apply Hsnoc in Hi as [Hi|[_ ->]]; [eauto|].
    apply I4. apply list_elem_of_here.
  - intros i j vi vj Hi Hj Heq.
    apply Hsnoc in Hi as [Hi|[-> ->]]; apply Hsnoc in Hj as [Hj|[-> ->]].
    + eauto.
    + by destruct (I8 vol i vi eq_refl Hi).
    + by destruct (I8 vol j vj eq_refl Hj).
    + done.
  - intros i vol' Hi. apply Hsnoc in Hi as [Hi|[_ ->]]; eauto.
  - intros vol' i vol'' [=].
  - intros ????? [=].
Qed.

Lemma lookup_holds (gs : list Goroutine) (i : nat) g :
  gs !! i = Some g → (holds <$> gs) !! i = Some (holds g).
Proof. intros H. by rewrite list_lookup_fmap, H. Qed.

Lemma lookup_repairs (gs : list Goroutine) (i : nat) g :
  gs !! i = Some g → (repairs <$> gs) !! i = Some (repairs g).
Proof. intros H. by rewrite list_lookup_fmap, H. Qed.

(** Replacing a goroutine by one that holds and repairs the same or
    nothing. *)
Lemma Inv'_replace os V rml m (gs : list Goroutine) (i : nat) g g' :
  gs !! i = Some g →
  (holds g' = holds g ∨ holds g' = None) →
  (repairs g' = repairs g ∨ repairs g' = None) →
  Inv' os V rml m (holds <$> gs) (repairs <$> gs) →
  Inv' os V rml m (holds <$> <[i := g']> gs) (repairs <$> <[i := g']> gs).
Proof.
  intros Hi Hh Hr. apply Inv'_weaken; intros j vol; rewrite list_fmap_insert.
  - destruct Hh as [->| ->]; [|apply insert_None_sub].
    apply insert_same_sub. by apply lookup_holds.
  - destruct Hr as [->| ->]; [|apply insert_None_sub].
    apply insert_same_sub. by apply lookup_repairs.
Qed.

Section Invariant.

Variable env : Env.
Variable nodeID : string.

Lemma step_Inv c l c' : step env nodeID c l c' → Inv c → Inv c'.
Proof.
  unfold Inv. intros Hstep HI.
  destruct Hstep as [c req|c req|c i req pc pc' w' Hi _ Hrun
                    |c i req pc pc' w' Hi _ Hrun|c i args pc pc' w' Hi Hrun
                    |c order pc' a w' Horder Hrun];
    cbn [world monitor goroutines].
  - rewrite !fmap_app. cbn.
    revert HI. apply Inv'_weaken; intros j vl; apply snoc_None_sub.
  - rewrite !fmap_app. cbn.
    revert HI. apply Inv'_weaken; intros j vl; apply snoc_None_sub.
  - pose proof (publish_step_spec env nodeID req pc (world c)) as Hspec.
    rewrite Hrun in Hspec. destruct Hspec as (-> & HV & HO).
    pose proof (lookup_holds _ _ _ Hi) as Hh. cbn [holds] in Hh.
    assert (Inv' (objects (world c)) (Volumes w') (ReqMountList (world c))
                 (monitor c) (holds <$> goroutines c) (repairs <$> goroutines c))
      as HI1.
    { destruct HV as [->|(vol & Hvol & _ & ->)]; [done|].
      eapply Inv'_insert; [|done]. by rewrite Hh, Hvol. }
    clear HI HV.
    assert (repairs <$> <[i := GoPublish req pc']> (goroutines c)
            = repairs <$> goroutines c) as ->.
    { rewrite list_fmap_insert. apply list_insert_id.
      by rewrite (lookup_repairs _ _ _ Hi). }
    rewrite list_fmap_insert. cbn [holds].
    destruct pc.
    + destruct HO as [[-> HO]|(v & -> & -> & Hdp)].
      * assert (Inv' (objects w') (Volumes w') (ReqMountList (world c))
                  (monitor c) (holds <$> goroutines c) (repairs <$> goroutines c)).
        { destruct HO as [->|(v & -> & Hdp)]; [done|].
          by apply (Inv'_alloc _ _ _ _ _ _ v O false). }
        revert H. apply Inv'_weaken; [|done]. intros j vl. apply insert_None_sub.
      * by apply (Inv'_alloc _ _ _ _ _ _ v i true).
    + destruct HO as [-> [-> | ->]]; revert HI1; (apply Inv'_weaken; [|done]);
        intros j vl; [by apply insert_same_sub|apply insert_None_sub].
    + destruct HO as [-> [-> | ->]]; revert HI1; (apply Inv'_weaken; [|done]);
        intros j vl; [by apply insert_same_sub|apply insert_None_sub].
    + destruct HO as [-> [-> | ->]]; revert HI1; (apply Inv'_weaken; [|done]);
        intros j vl; [by apply insert_same_sub|apply insert_None_sub].
    + destruct HO as [-> [-> | ->]]; revert HI1; (apply Inv'_weaken; [|done]);
        intros j vl; [by apply insert_same_sub|apply insert_None_sub].
    + destruct HO as [-> ->]. by apply Inv'_setDevicePath.
    + destruct HO as [-> [-> | ->]]; revert HI1; (apply Inv'_weaken; [|done]);
        intros j vl; [by apply insert_same_sub|apply insert_None_sub].
  - pose proof (unpublish_step_spec env req pc (world c)) as Hspec.
    rewrite Hrun in Hspec. destruct Hspec as (-> & -> & HV).
    apply (Inv'_replace _ _ _ _ _ _ _ _ Hi); [by left..|].
    destruct HV as [->| ->]; [done|by apply Inv'_delete].
  - pose proof (remount_step_spec env args pc (world c)) as Hspec.
    rewrite Hrun in Hspec. destruct Hspec as (-> & -> & HR).
    unfold name_of in HR.
    pose proof (lookup_repairs _ _ _ Hi) as Hr.
    destruct pc;
      try (destruct HR as [-> Hpc'];
           apply (Inv'_replace _ _ _ _ _ _ _ _ Hi); [by left| |done];
           left; destruct pc'; try done; by edestruct Hpc').
    + destruct HR as [-> ->].
      assert (holds <$> <[i := GoRemount args (RV_return devicePath err)]> (goroutines c)
              = holds <$> goroutines c) as ->.
      { rewrite list_fmap_insert. apply list_insert_id.
        by rewrite (lookup_holds _ _ _ Hi). }
      rewrite list_fmap_insert. by apply Inv'_clear.
    + destruct HR as [-> ->]. by apply (Inv'_replace _ _ _ _ _ _ _ _ Hi); [left..|].
  - pose proof (monitor_step_spec env order (monitor c) (world c)) as Hspec.
    rewrite Hrun in Hspec. destruct Hspec as (-> & -> & Hcase).
    unfold name_of in Hcase.
    destruct (monitor c) as [|mlist [|vol rest]|mlist rest vol ex mp|mlist rest vol ex mp]
      eqn:Hm.
    + destruct Hcase as (-> & -> & ->). cbn [spawned]. rewrite !app_nil_r.
      eapply Inv'_monitor; [|done|exact HI]. cbn. intros vol Hvol.
      rewrite Horder in Hvol. apply list_elem_of_fmap in Hvol as ([id vol'] & -> & Hin).
      apply elem_of_map_to_list in Hin. by eapply (inv_Volumes _ _ _ _ _ _ HI).
    + destruct Hcase as (-> & -> & ->). cbn [spawned]. rewrite !app_nil_r.
      eapply Inv'_monitor; [|done|exact HI]. cbn. intros vol Hvol.
      by apply elem_of_nil in Hvol.
    + destruct Hcase as (-> & -> & [->|(ex & mp & -> & _ & Hnone)]);
        cbn [spawned]; rewrite !app_nil_r.
      * eapply Inv'_monitor; [|done|exact HI]. cbn. intros vol' Hvol.
        eapply (inv_monitor _ _ _ _ _ _ HI). by apply list_elem_of_further.
      * by apply Inv'_monitor_mark.
    + destruct Hcase as (-> & -> & ->). cbn [spawned]. rewrite !app_nil_r.
      by apply Inv'_monitor_store.
    + destruct Hcase as (-> & -> & args & -> & <-). cbn [spawned].
      rewrite !fmap_app. cbn [fmap list_fmap holds repairs].
      by eapply Inv'_monitor_go.
Qed.

Lemma reachable_Inv c : reachable env nodeID c → Inv c.
Proof.
  induction 1 as [|c l c' _ IH Hstep]; [|by eapply step_Inv].
  unfold Inv. cbn. split; intros; try done.
  - by apply elem_of_nil in H.
Qed.

End Invariant.

(** ** Schedules give runs *)

Section Schedules.

Variable env : Env.
Variable nodeID : string.

Lemma exec_step s c l c' : exec env nodeID s c = Some (l, c') → step env nodeID c l c'.
Proof.
  destruct s as [req|req|i|]; cbn [exec].
  - intros [= <- <-]. constructor.
  - intros [= <- <-]. constructor.
  - destruct (goroutines c !! i) as [[req pc|req pc|args pc]|] eqn:Hi; [..|done].
    + destruct (publish_locks pc && negb (at_ticker (monitor c))) eqn:Hl; [done|].
      destruct (publish_step env nodeID req pc (world c)) as [pc' w'] eqn:Hrun.
      intros [= <- <-]. eapply step_publish; [done| |done].
      intros Hpc. rewrite Hpc in Hl. by destruct (monitor c).
    + destruct (unpublish_locks req pc && negb (at_ticker (monitor c))) eqn:Hl; [done|].
      destruct (unpublish_step env req pc (world c)) as [pc' w'] eqn:Hrun.
      intros [= <- <-]. eapply step_unpublish; [done| |done].
      intros Hpc. rewrite Hpc in Hl. by destruct (monitor c).
    + destruct (remount_step env args pc (world c)) as [pc' w'] eqn:Hrun.
      intros [= <- <-]. by eapply step_remount.
  - destruct (monitor_step env _ (monitor c) (world c)) as [[pc' a] w'] eqn:Hrun.
    intros [= <- <-]. by eapply step_monitor.
Qed.

Lemma exec_all_run ss c : run env nodeID c (exec_all env nodeID ss c).
Proof.
  revert c. induction ss as [|s ss IH]; intros c; cbn [exec_all]; [constructor|].
  destruct (exec env nodeID s c) as [[l c']|] eqn:Hs; [|constructor].
  constructor; [by eapply exec_step|apply IH].
Qed.

Lemma run_reachable c r :
  reachable env nodeID c → run env nodeID c r →
  Forall (reachable env nodeID) (c :: r.*2).
Proof.
  intros Hc Hr. revert Hc. induction Hr as [c|c l c' r Hstep Hr IH]; intros Hc.
  - by repeat constructor.
  - constructor; [done|]. apply IH. by eapply reachable_step.
Qed.

Lemma last_config_reachable c r :
  reachable env nodeID c → run env nodeID c r →
  reachable env nodeID (last_config c r).
Proof.
  intros Hc Hr. pose proof (run_reachable c r Hc Hr) as Hall.
  unfold last_config. destruct (last r.*2) as [c'|] eqn:Hlast; [|done].
  rewrite Forall_forall in Hall. apply Hall.
  apply list_elem_of_further. rewrite last_lookup in Hlast.
  by eapply list_elem_of_lookup_2.
Qed.

End Schedules.

(** ** At most one repair *)

Lemma filter_none {A} (P : A → Prop) `{!∀ x, Decision (P x)} (l : list A) :
  (∀ i x, l !! i = Some x → ¬ P x) → length (filter P l) = 0%nat.
Proof.
  induction l as [|a l IH]; intros Hnone; [done|].
  rewrite filter_cons_False by (by apply (Hnone O)).
  apply IH. intros i x Hi. by apply (Hnone (S i)).
Qed.

Lemma filter_at_most_one {A} (P : A → Prop) `{!∀ x, Decision (P x)} (l : list A) :
  (∀ i j x y, l !! i = Some x → l !! j = Some y → P x → P y → i = j) →
  (length (filter P l) ≤ 1)%nat.
Proof.
  induction l as [|a l IH]; intros Hone; [cbn; lia|].
  destruct (decide (P a)) as [Ha|Ha].
  - rewrite filter_cons_True by done. cbn [length].
    rewrite filter_none; [lia|]. intros j x Hj Hpx.
    specialize (Hone O (S j) a x eq_refl Hj Ha Hpx). done.
  - rewrite filter_cons_False by done.
    apply IH. intros i j x y Hi Hj Hx Hy.
    specialize (Hone (S i) (S j) x y Hi Hj Hx Hy). lia.
Qed.

Lemma repairing_true w volumeID g :
  repairing w volumeID g = true ↔
  ∃ vol, repairs g = Some vol ∧ name_of w vol = volumeID.
Proof.
  unfold repairing. destruct (repairs g) as [vol|].
  - rewrite bool_decide_eq_true. split; [intros H; by exists vol|].
    by intros (vol' & [= <-] & H).
  - split; [done|]. by intros (vol & H & _).
Qed.

Lemma run_remount_spec env fuel args pc (w : World) d err w' :
  run_remount env fuel args pc w = (RV_return d err, w') →
  (∀ d' err', pc ≠ RV_return d' err') →
  ReqMountList w' = delete (name_of w (r_vol args)) (ReqMountList w).
Proof.
  revert pc w. induction fuel as [|fuel IH]; intros pc w Hrun Hpc.
  { destruct pc; cbn in Hrun; simplify_eq. by edestruct Hpc. }
  assert (run_remount env (S fuel) args pc w
          = let (pc1, w1) := remount_step env args pc w in
            run_remount env fuel args pc1 w1) as Heq.
  { destruct pc; try reflexivity; [by edestruct Hpc|].
    cbn. by destruct fuel. }
  rewrite Heq in Hrun. clear Heq.
  pose proof (remount_step_spec env args pc w) as Hspec.
  destruct (remount_step env args pc w) as [pc1 w1].
  destruct Hspec as (Hobj & _ & Hcase).
  assert (name_of w1 (r_vol args) = name_of w (r_vol args)) as Hname.
  { unfold name_of. by rewrite Hobj. }
  destruct pc.
  - destruct Hcase as [HR Hpc1]. rewrite <- HR, <- Hname. by eapply IH.
  - destruct Hcase as [HR Hpc1]. rewrite <- HR, <- Hname. by eapply IH.
  - destruct Hcase as [-> HR].
    assert (run_remount env fuel args (RV_return devicePath err0) w1
            = (RV_return devicePath err0, w1)) as Hret by (by destruct fuel).
    rewrite Hret in Hrun. by simplify_eq.
  - by edestruct Hpc.
  - destruct Hcase as [HR Hpc1]. rewrite <- HR, <- Hname. by eapply IH.
Qed.

Example Config_repairing_goroutines :
  goroutines Config_repairing
  = [GoPublish publish_pvc1 (NPV_return OK);
     GoRemount {| r_exists := false; r_vol := 0; r_mountPoint := None;
                  r_desiredMountOpt := "/var/lib/kubelet/pods/p1/mount" |} RV_wait]
  ∧ ReqMountList (world Config_repairing) = {[ "pvc-1" := true ]}
  ∧ registry_devicePath (world Config_repairing) "pvc-1" = Some "/dev/sdb".
Proof. vm_compute. done. Qed.

(** C5. In every reachable configuration of the system at most one repair
    task is in flight for any volume id. [MonitorMounts] starts a goroutine
    only at its [go] statement, and there the name of the volume is in
    [ReqMountList] and no repair task is in flight for it; the [go]
    statement is only reached through the region that stores the name
    under [ReqMountListLock], and that one only from a visit that found the
    name absent. [RemountVolume] returns only through the region that
    deletes the name from [ReqMountList] under the lock, whatever the
    mount or the attach answered; run alone, a [RemountVolume] that returns
    has removed it. *)
Theorem at_most_one_repair env nodeID :
  (∀ c volumeID,
     reachable env nodeID c → (repairs_in_flight c volumeID ≤ 1)%nat)
  ∧ (∀ c order pc' args w',
       reachable env nodeID c →
       monitor_step env order (monitor c) (world c) = ((pc', Some args), w') →
       (∃ mlist rest ex mp, monitor c = MM_go mlist rest (r_vol args) ex mp) ∧
       ReqMountList (world c) !! name_of (world c) (r_vol args) = Some true ∧
       repairs_in_flight c (name_of (world c) (r_vol args)) = 0%nat)
  ∧ (∀ order pc (w : World) mlist rest vol ex mp a w',
       monitor_step env order pc w = ((MM_go mlist rest vol ex mp, a), w') →
       pc = MM_mark mlist rest vol ex mp ∧ a = None ∧
       ReqMountList w' = <[name_of w vol := true]> (ReqMountList w))
  ∧ (∀ order pc (w : World) mlist rest vol ex mp a w',
       monitor_step env order pc w = ((MM_mark mlist rest vol ex mp, a), w') →
       pc = MM_range mlist (vol :: rest) ∧ a = None ∧
       ReqMountList w !! name_of w vol = None)
  ∧ (∀ args pc (w : World) d err w',
       remount_step env args pc w = (RV_return d err, w') →
       pc = RV_return d err
       ∨ (pc = RV_clear d err ∧
          ReqMountList w' = delete (name_of w (r_vol args)) (ReqMountList w)))
  ∧ (∀ fuel args (w : World) d err w',
       RemountVolume env fuel args w = (Some (d, err), w') →
       ReqMountList w' = delete (name_of w (r_vol args)) (ReqMountList w)).
Proof.
  split; [|split; [|split; [|split; [|split]]]].
  - intros c volumeID Hc. apply reachable_Inv in Hc.
    unfold repairs_in_flight. apply filter_at_most_one.
    intros i j gi gj Hi Hj Hgi Hgj.
    apply repairing_true in Hgi as (vi & Hvi & Hni).
    apply repairing_true in Hgj as (vj & Hvj & Hnj).
    eapply (inv_one _ _ _ _ _ _ Hc i j vi vj).
    + by rewrite list_lookup_fmap, Hi, <- Hvi.
    + by rewrite list_lookup_fmap, Hj, <- Hvj.
    + unfold name_of in *. congruence.
  - intros c order pc' args w' Hc Hrun. apply reachable_Inv in Hc.
    pose proof (monitor_step_spec env order (monitor c) (world c)) as Hspec.
    rewrite Hrun in Hspec. destruct Hspec as (_ & _ & Hcase).
    destruct (monitor c) as [|mlist [|vol rest]|mlist rest vol ex mp|mlist rest vol ex mp]
      eqn:Hm; try (by destruct Hcase as (_ & ? & _)); try (by destruct Hcase as (? & _)).
    destruct Hcase as (_ & _ & args' & [= <-] & Hvol). subst vol.
    split; [eauto|]. unfold Inv in Hc. rewrite Hm in Hc.
    split; [by eapply (inv_go _ _ _ _ _ _ Hc)|].
    unfold repairs_in_flight. apply filter_none.
    intros i g Hi Hg. apply repairing_true in Hg as (vol & Hvol & Hname).
    eapply (inv_chosen _ _ _ _ _ _ Hc (r_vol args) i vol); [done| |done].
    by rewrite list_lookup_fmap, Hi, <- Hvol.
  - intros order pc w mlist rest vol ex mp a w' Hrun.
    pose proof (monitor_step_spec env order pc w) as Hspec.
    rewrite Hrun in Hspec. destruct Hspec as (_ & _ & Hcase).
    destruct pc as [|ml [|v r]|ml r v e m|ml r v e m].
    + by destruct Hcase as ([=] & _).
    + by destruct Hcase as ([=] & _).
    + by destruct Hcase as (_ & _ & [[=]|(? & ? & [=] & _)]).
    + destruct Hcase as ([= -> -> -> -> ->] & -> & ->). done.
    + by destruct Hcase as ([=] & _).
  - intros order pc w mlist rest vol ex mp a w' Hrun.
    pose proof (monitor_step_spec env order pc w) as Hspec.
    rewrite Hrun in Hspec. destruct Hspec as (_ & _ & Hcase).
    destruct pc as [|ml [|v r]|ml r v e m|ml r v e m].
    + by destruct Hcase as ([=] & _).
    + by destruct Hcase as ([=] & _).
    + destruct Hcase as (-> & _ & [[=]|(? & ? & [= -> -> -> -> ->] & _ & Hnone)]).
      done.
    + by destruct Hcase as ([=] & _).
    + by destruct Hcase as ([=] & _).
  - intros args pc w d err w' Hrun.
    pose proof (remount_step_spec env args pc w) as Hspec.
    rewrite Hrun in Hspec. destruct Hspec as (_ & _ & Hcase).
    destruct pc; try (destruct Hcase as [_ Hne]; by edestruct Hne).
    + destruct Hcase as [[= -> ->] ->]. by right.
    + destruct Hcase as [[= -> ->] _]. by left.
  - intros fuel args w d err w' Hrun. unfold RemountVolume, bind, ret in Hrun.
    destruct (run_remount env fuel args RV_wait w) as [pc w1] eqn:Hr.
    destruct pc; simplify_eq. by eapply run_remount_spec.
Qed.

(** pvc-1 published, nothing mounted at its path at the next tick: one
    repair task is in flight, and it is the only one. *)
Lemma at_most_one_repair_witness :
  (repairs_in_flight Config_repairing "pvc-1" ≤ 1)%nat.
Proof.
  apply (proj1 (at_most_one_repair env_ok "node-a")).
  apply last_config_reachable; [constructor|apply exec_all_run].
Defined.

(** ** The device path of a record *)

Section DevicePath.

Variable env : Env.
Variable nodeID : string.

(** One step leaves every object as it is, except the step that writes
    the devicePath, which finds it empty. *)
Lemma step_objects c l c' vol v :
  Inv c → step env nodeID c l c' →
  objects (world c) !! vol = Some v →
  objects (world c') !! vol = Some v
  ∨ (DevicePath (Volume v) = "" ∧
     ∃ i d, l = L_publish i (NPV_setDevicePath vol d) ∧
       objects (world c') !! vol = Some (with_DevicePath d v)).
Proof.
  intros HI Hstep Hv.
  destruct Hstep as [c req|c req|c i req pc pc' w' Hi _ Hrun
                    |c i req pc pc' w' Hi _ Hrun|c i args pc pc' w' Hi Hrun
                    |c order pc' a w' Horder Hrun];
    cbn [world]; try (by left).
  - pose proof (publish_step_spec env nodeID req pc (world c)) as Hspec.
    rewrite Hrun in Hspec. destruct Hspec as (_ & _ & HO).
    destruct pc; try (destruct HO as [-> _]; by left).
    + left. destruct HO as [[_ [->|(v0 & -> & _)]]|(v0 & _ & -> & _)];
        [done|by apply lookup_app_l_Some..].
    + destruct HO as [-> _].
      destruct (decide (vol0 = vol)) as [->|Hne].
      * right. unfold Inv in HI.
        destruct (inv_pending _ _ _ _ _ _ HI i vol) as (v' & Hv' & Hdp).
        { by rewrite list_lookup_fmap, Hi. }
        simplify_eq. split; [done|]. exists i, devicePath. split; [done|].
        by rewrite list_lookup_alter_eq, Hv.
      * left. by rewrite list_lookup_alter_ne.
  - pose proof (unpublish_step_spec env req pc (world c)) as Hspec.
    rewrite Hrun in Hspec. destruct Hspec as (_ & -> & _). by left.
  - pose proof (remount_step_spec env args pc (world c)) as Hspec.
    rewrite Hrun in Hspec. destruct Hspec as (-> & _). by left.
  - pose proof (monitor_step_spec env order (monitor c) (world c)) as Hspec.
    rewrite Hrun in Hspec. destruct Hspec as (-> & _). by left.
Qed.

(** While a volume has a record, it is the same record. *)
Lemma step_Volumes c l c' volumeID vol vol' :
  step env nodeID c l c' →
  Volumes (world c) !! volumeID = Some vol →
  Volumes (world c') !! volumeID = Some vol' → vol' = vol.
Proof.
  intros Hstep Hv Hv'.
  destruct Hstep as [c req|c req|c i req pc pc' w' Hi _ Hrun
                    |c i req pc pc' w' Hi _ Hrun|c i args pc pc' w' Hi Hrun
                    |c order pc' a w' Horder Hrun];
    cbn [world] in Hv'; try congruence.
  - pose proof (publish_step_spec env nodeID req pc (world c)) as Hspec.
    rewrite Hrun in Hspec. destruct Hspec as (_ & [HV|(v0 & _ & Hnone & HV)] & _);
      rewrite HV in Hv'; [congruence|].
    apply lookup_insert_Some in Hv' as [[<- _]|[_ Hv']]; congruence.
  - pose proof (unpublish_step_spec env req pc (world c)) as Hspec.
    rewrite Hrun in Hspec. destruct Hspec as (_ & _ & [HV|HV]);
      rewrite HV in Hv'; [congruence|].
    apply lookup_delete_Some in Hv' as [_ Hv']. congruence.
  - pose proof (remount_step_spec env args pc (world c)) as Hspec.
    rewrite Hrun in Hspec. destruct Hspec as (_ & HV & _). congruence.
  - pose proof (monitor_step_spec env order (monitor c) (world c)) as Hspec.
    rewrite Hrun in Hspec. destruct Hspec as (_ & HV & _). congruence.
Qed.

(** One step, record present before and after: a devicePath that is set
    stays what it is, and it changes only under the write of the publish. *)
Lemma step_registry_devicePath c l c' volumeID d d' :
  Inv c → step env nodeID c l c' →
  registry_devicePath (world c) volumeID = Some d →
  registry_devicePath (world c') volumeID = Some d' →
  d' = d ∨ (d = "" ∧ ∃ i vol, l = L_publish i (NPV_setDevicePath vol d')).
Proof.
  intros HI Hstep Hd Hd'. unfold registry_devicePath in *.
  destruct (Volumes (world c) !! volumeID) as [vol|] eqn:Hv; [|done].
  destruct (Volumes (world c') !! volumeID) as [vol'|] eqn:Hv'; [|done].
  assert (vol' = vol) as -> by (by eapply step_Volumes).
  pose proof (inv_Volumes _ _ _ _ _ _ HI _ _ Hv) as Hlt.
  apply lookup_lt_is_Some in Hlt as [v Hobj].
  rewrite Hobj in Hd. cbn in Hd.
  destruct (step_objects c l c' vol v HI Hstep Hobj)
    as [Hobj'|(Hempty & i & d0 & -> & Hobj')];
    rewrite Hobj' in Hd'; cbn in Hd'; simplify_eq; [by left|].
  right. split; [done|]. eauto.
Qed.

End DevicePath.

Lemma rises_falls_step (d d' : string) (dps : list string) :
  (d ≠ "" → d' = d) →
  (rises (d' :: dps) ≤ 1)%nat → falls (d' :: dps) = 0%nat →
  (d' ≠ "" → rises (d' :: dps) = 0%nat) →
  (rises (d :: d' :: dps) ≤ 1)%nat ∧ falls (d :: d' :: dps) = 0%nat ∧
  (d ≠ "" → rises (d :: d' :: dps) = 0%nat).
Proof.
  intros Hstable Hr Hf Hr0.
  change (rises (d :: d' :: dps))
    with ((if bool_decide (d = "" ∧ d' ≠ "") then 1 else 0) + rises (d' :: dps))%nat.
  change (falls (d :: d' :: dps))
    with ((if bool_decide (d ≠ "" ∧ d' = "") then 1 else 0) + falls (d' :: dps))%nat.
  repeat case_bool_decide; destruct_and?.
  - congruence.
  - rewrite Hr0 by done. split; [lia|]. split; [lia|]. done.
  - rewrite Hstable in * by done. done.
  - split; [lia|]. split; [lia|]. intros Hne. apply Hr0.
    by rewrite Hstable.
Qed.

Example devicePath_of_pvc1_along_mount :
  (λ c, default "" (registry_devicePath (world c) "pvc-1"))
    <$> (Config_inserted :: (exec_all env_ok "node-a" schedule_mount Config_inserted).*2)
  = [""; ""; ""; "/dev/sdb"; "/dev/sdb"].
Proof. vm_compute. reflexivity. Qed.

(** C3. In every reachable configuration a step of any goroutine leaves
    every CSIVolume object as it is, with one exception: the region of
    NodePublishVolume that sets the devicePath, run by the publish that
    holds the object, and it finds the devicePath empty. [RemountVolume]
    never writes an object. So along every run in which the volume has a
    registry record throughout (from after the insert of a publish to before
    the delete of the matching unpublish), the devicePath of the record
    goes from empty to non-empty at most once and never from non-empty to
    empty. *)
Theorem devicePath_monotone env nodeID :
  (∀ c l c' vol v,
     reachable env nodeID c → step env nodeID c l c' →
     objects (world c) !! vol = Some v →
     objects (world c') !! vol = Some v
     ∨ (DevicePath (Volume v) = "" ∧
        ∃ i d, l = L_publish i (NPV_setDevicePath vol d) ∧
          objects (world c') !! vol = Some (with_DevicePath d v)))
  ∧ (∀ args pc (w : World), objects (remount_step env args pc w).2 = objects w)
  ∧ (∀ c0 r volumeID,
       reachable env nodeID c0 → run env nodeID c0 r →
       Forall (λ c, is_Some (Volumes (world c) !! volumeID)) (c0 :: r.*2) →
       let dps := (λ c, default "" (registry_devicePath (world c) volumeID))
                    <$> (c0 :: r.*2) in
       (rises dps ≤ 1)%nat ∧ falls dps = 0%nat).
Proof.
  split; [|split].
  - intros c l c' vol v Hc. apply step_objects. by apply reachable_Inv in Hc.
  - intros args pc w. pose proof (remount_step_spec env args pc w) as Hspec.
    destruct (remount_step env args pc w) as [pc' w']. by destruct Hspec as [? _].
  - intros c0 r volumeID Hc0 Hrun Hall.
    cut (let dps := (λ c, default "" (registry_devicePath (world c) volumeID))
                      <$> (c0 :: r.*2) in
         (rises dps ≤ 1)%nat ∧ falls dps = 0%nat ∧
         (default "" (registry_devicePath (world c0) volumeID) ≠ "" →
          rises dps = 0%nat)).
    { cbv zeta. tauto. }
    revert Hc0 Hall. induction Hrun as [c|c l c' r Hstep Hrun IH]; intros Hc Hall.
    { cbn. split; [lia|]. done. }
    cbn [fmap list_fmap snd] in *.
    apply Forall_cons in Hall as [Hsome Hall].
    pose proof Hall as Hall'. apply Forall_cons in Hall' as [Hsome' _].
    destruct IH as (Hr & Hf & Hr0); [by eapply reachable_step|done|].
    apply rises_falls_step; try done.
    intros Hne.
    assert (∀ c1, is_Some (Volumes (world c1) !! volumeID) →
              ∃ d, registry_devicePath (world c1) volumeID = Some d) as Hreg.
    { intros c1 [vol Hvol]. unfold registry_devicePath. rewrite Hvol. eauto. }
    destruct (Hreg c Hsome) as [d Hd]. destruct (Hreg c' Hsome') as [d' Hd'].
    rewrite Hd, Hd' in *. cbn in *.
    apply reachable_Inv in Hc.
    destruct (step_registry_devicePath env nodeID c l c' volumeID d d' Hc Hstep Hd Hd')
      as [->|[-> _]]; done.
Qed.

(** pvc-1 from the insert of its record through chmod, attach and the write
    of the devicePath, and a tick of the supervisor. *)
Lemma devicePath_monotone_witness :
  let dps := (λ c, default "" (registry_devicePath (world c) "pvc-1"))
               <$> (Config_inserted
                    :: (exec_all env_ok "node-a" schedule_mount Config_inserted).*2) in
  (rises dps ≤ 1)%nat ∧ falls dps = 0%nat.
Proof.
  apply (proj2 (proj2 (devicePath_monotone env_ok "node-a"))).
  - apply last_config_reachable; [constructor|apply exec_all_run].
  - apply exec_all_run.
  - vm_compute. repeat constructor; eauto.
Defined.

(** ** [parseEndpoint] *)

Lemma string_app_nil_l s : "" +:+ s = s.
Proof. reflexivity. Qed.

Lemma string_app_cons a s r : String a s +:+ r = String a (s +:+ r).
Proof. reflexivity. Qed.

Lemma string_app_assoc a b c : (a +:+ b) +:+ c = a +:+ b +:+ c.
Proof. induction a as [|x a IH]; [done|]. rewrite !string_app_cons. by f_equal. Qed.

Lemma prefix_nil s : String.prefix "" s = true.
Proof. by destruct s. Qed.

Lemma prefix_app p s : String.prefix p s = true → ∃ r, s = p +:+ r.
Proof.
  revert s. induction p as [|a p IH]; intros s H; [by exists s|].
  destruct s as [|b s]; [done|]. cbn in H.
  destruct (Ascii.ascii_dec a b) as [->|]; [|done].
  destruct (IH s H) as [r ->]. by exists r.
Qed.

Lemma prefix_app_true p r : String.prefix p (p +:+ r) = true.
Proof.
  induction p as [|a p IH]; [apply prefix_nil|]. rewrite string_app_cons. cbn.
  by destruct (Ascii.ascii_dec a a).
Qed.

Lemma slice_from_app p r : slice_from (p +:+ r) (String.length p) = r.
Proof.
  induction p as [|a p IH]; [by destruct r|]. rewrite string_app_cons. cbn. exact IH.
Qed.

Lemma slice_to_app p r : slice_to (p +:+ r) (String.length p) = p.
Proof.
  induction p as [|a p IH]; [by destruct r|]. rewrite string_app_cons. cbn. by f_equal.
Qed.

(** [strings.Index] finds an occurrence, and the first one. *)
Lemma strings_Index_Some s sep m :
  sep ≠ "" → strings_Index s sep = Some m →
  s = slice_to s m +:+ sep +:+ slice_from s (m + String.length sep)
  ∧ strings_Index (slice_to s m) sep = None.
Proof.
  intros Hsep. revert m. induction s as [|c s IH]; intros m H.
  - cbn in H. destruct sep; [done|]. by cbn in H.
  - cbn [strings_Index] in H. destruct (String.prefix sep (String c s)) eqn:Hp.
    + simplify_eq. destruct (prefix_app _ _ Hp) as [r Hr]. rewrite Hr.
      cbn [slice_to plus]. rewrite slice_from_app. split; [done|].
      destruct sep; [done|]. by cbn.
    + destruct (strings_Index s sep) as [m'|] eqn:Hi; [|done]. cbn in H. simplify_eq.
      destruct (IH m' eq_refl) as [IH1 IH2]. cbn [slice_to slice_from plus].
      split; [rewrite string_app_cons; by f_equal|].
      cbn [strings_Index]. rewrite IH2.
      destruct (String.prefix sep (String c (slice_to s m'))) eqn:Hp'; [|done].
      exfalso. destruct (prefix_app _ _ Hp') as [r Hr].
      rewrite IH1, <- string_app_cons, Hr, string_app_assoc in Hp.
      by rewrite prefix_app_true in Hp.
Qed.

Lemma slice_from_add s m n : slice_from s (m + n) = slice_from (slice_from s m) n.
Proof.
  revert s. induction m as [|m IH]; intros s; [done|].
  destruct s as [|c s]; [by destruct n|]. cbn. apply IH.
Qed.

Lemma lower_byte_colon c : lower_byte c = ":"%char ↔ c = ":"%char.
Proof. destruct c as [[] [] [] [] [] [] [] []]; vm_compute; split; congruence. Qed.

Lemma lower_byte_slash c : lower_byte c = "/"%char ↔ c = "/"%char.
Proof. destruct c as [[] [] [] [] [] [] [] []]; vm_compute; split; congruence. Qed.

Lemma string_map_app f a b : string_map f (a +:+ b) = string_map f a +:+ string_map f b.
Proof.
  induction a as [|x a IH]; [reflexivity|]. rewrite !string_app_cons. cbn.
  rewrite string_app_cons. by f_equal.
Qed.

Lemma string_map_length f s : String.length (string_map f s) = String.length s.
Proof. induction s as [|x s IH]; [done|]. cbn. by f_equal. Qed.

Lemma string_map_slice_to f s m : string_map f (slice_to s m) = slice_to (string_map f s) m.
Proof.
  revert s. induction m as [|m IH]; intros s; [done|].
  destruct s as [|c s]; [done|]. cbn. by f_equal.
Qed.

Lemma isASCII_app a b : isASCII (a +:+ b) = isASCII a && isASCII b.
Proof.
  induction a as [|x a IH]; [reflexivity|]. rewrite string_app_cons. unfold isASCII in *. cbn.
  by rewrite IH, andb_assoc.
Qed.

Lemma prefix_sep_lower s :
  String.prefix "://" (string_map lower_byte s) = String.prefix "://" s.
Proof.
  assert (∀ x c (X : bool), (x = ":"%char ∨ x = "/"%char) →
            (if Ascii.ascii_dec x (lower_byte c) then X else false)
            = (if Ascii.ascii_dec x c then X else false)) as H.
  { intros x c X Hx. destruct (Ascii.ascii_dec x (lower_byte c)) as [E|E],
      (Ascii.ascii_dec x c) as [E'|E']; try done; exfalso.
    - destruct Hx as [-> | ->]; symmetry in E;
        [apply (proj1 (lower_byte_colon c)) in E
        |apply (proj1 (lower_byte_slash c)) in E]; congruence.
    - subst c. destruct Hx as [-> | ->]; by apply E. }
  assert (∀ a p b s', String.prefix (String a p) (String b s')
                       = if Ascii.ascii_dec a b then String.prefix p s' else false)
    as Hc by reflexivity.
  destruct s as [|a [|b [|c r]]]; cbn [string_map];
    rewrite ?Hc, ?H, ?prefix_nil by auto; reflexivity.
Qed.

Lemma strings_Index_cons c s sep :
  strings_Index (String c s) sep
  = if String.prefix sep (String c s) then Some O else S <$> strings_Index s sep.
Proof. reflexivity. Qed.

Lemma strings_Index_lower s :
  strings_Index (string_map lower_byte s) "://" = strings_Index s "://".
Proof.
  induction s as [|c s IH]; [done|].
  rewrite strings_Index_cons, <- IH, <- prefix_sep_lower. reflexivity.
Qed.

Lemma strings_ToLower_ascii u s :
  isASCII s = true → strings_ToLower u s = string_map lower_byte s.
Proof. intros H. unfold strings_ToLower. by rewrite H. Qed.

(** What [parseEndpoint] does once the test on the prefix has passed. *)
Lemma parseEndpoint_split u ep m :
  String.prefix "unix://" (strings_ToLower u ep)
  || String.prefix "tcp://" (strings_ToLower u ep) = true →
  strings_Index ep "://" = Some m →
  parseEndpoint u ep
  = if decide (slice_from ep (m + 3) ≠ "")
    then Some (slice_to ep m, slice_from ep (m + 3)%nat, None)
    else Some ("", "", Some ("Invalid endpoint: " +:+ ep)).
Proof.
  intros Hp Hi. unfold parseEndpoint, strings_SplitN_2. rewrite Hp, Hi. reflexivity.
Qed.

Lemma endpoint_of_accepted u ep scheme addr :
  isASCII ep = true → endpoint_of ep scheme addr →
  parseEndpoint u ep = Some (scheme, addr, None).
Proof.
  intros Ha (-> & Haddr & Hs).
  assert (strings_ToLower u (scheme +:+ "://" +:+ addr)
          = string_map lower_byte scheme +:+ "://" +:+ string_map lower_byte addr) as HL.
  { rewrite strings_ToLower_ascii by done. by rewrite !string_map_app. }
  assert (String.length scheme = String.length (string_map lower_byte scheme)) as Hlen
    by (by rewrite string_map_length).
  assert (strings_Index (scheme +:+ "://" +:+ addr) "://" = Some (String.length scheme))
    as Hi.
  { rewrite <- strings_Index_lower, <- strings_ToLower_ascii with (u := u), HL, Hlen by done.
    destruct Hs as [-> | ->]; by destruct (string_map lower_byte addr). }
  rewrite (parseEndpoint_split u _ (String.length scheme)); [|rewrite HL|done].
  - rewrite slice_from_add, slice_from_app, slice_to_app.
    change (slice_from ("://" +:+ addr) 3) with addr. by rewrite decide_True.
  - destruct Hs as [-> | ->]; by destruct (string_map lower_byte addr).
Qed.

(** The test on the prefix finds the separator in an ASCII endpoint. *)
Lemma prefix_scheme_Index u ep :
  isASCII ep = true →
  String.prefix "unix://" (strings_ToLower u ep)
  || String.prefix "tcp://" (strings_ToLower u ep) = true →
  ∃ m, strings_Index ep "://" = Some m ∧
    (string_map lower_byte (slice_to ep m) = "unix"
     ∨ string_map lower_byte (slice_to ep m) = "tcp").
Proof.
  intros Ha Hp. rewrite strings_ToLower_ascii in Hp by done.
  rewrite <- strings_Index_lower. setoid_rewrite string_map_slice_to.
  apply orb_true_iff in Hp as [Hp|Hp]; apply prefix_app in Hp as [r ->].
  - exists 4%nat. split; [by destruct r|by left].
  - exists 3%nat. split; [by destruct r|by right].
Qed.

Lemma parseEndpoint_Some u ep scheme addr err :
  parseEndpoint u ep = Some (scheme, addr, err) →
  match err with
  | None =>
      ep = scheme +:+ "://" +:+ addr ∧ addr ≠ ""
      ∧ strings_Index scheme "://" = None
  | Some e => scheme = "" ∧ addr = "" ∧ e = "Invalid endpoint: " +:+ ep
  end.
Proof.
  unfold parseEndpoint, strings_SplitN_2. intros H.
  destruct (_ || _); [|by simplify_eq].
  destruct (strings_Index ep "://") as [m|] eqn:Hi; [|done].
  cbn in H. destruct (decide _) as [Hne|]; [|by simplify_eq]. simplify_eq.
  destruct (strings_Index_Some ep "://" m) as [H1 H2]; [done..|].
  split; [exact H1|by split].
Qed.

(** X1. Whatever the endpoint and whatever Unicode lowering does: what
    [parseEndpoint] accepts it cuts at the first "://", giving back both
    sides unchanged, the second not empty; what it rejects comes back as
    two empty strings and the error that quotes the endpoint. *)
Theorem parseEndpoint_joins u ep scheme addr err :
  parseEndpoint u ep = Some (scheme, addr, err) →
  match err with
  | None =>
      ep = scheme +:+ "://" +:+ addr ∧ addr ≠ ""
      ∧ strings_Index scheme "://" = None
  | Some e => scheme = "" ∧ addr = "" ∧ e = "Invalid endpoint: " +:+ ep
  end.
Proof. apply parseEndpoint_Some. Qed.

Lemma parseEndpoint_joins_witness :
  "tcp://10.0.0.1:10000" = "tcp" +:+ "://" +:+ "10.0.0.1:10000"
  ∧ "10.0.0.1:10000" ≠ "" ∧ strings_Index "tcp" "://" = None.
Proof.
  exact (parseEndpoint_joins (λ s, s) "tcp://10.0.0.1:10000" "tcp" "10.0.0.1:10000"
           None eq_refl).
Defined.

(** X2. On an ASCII endpoint [parseEndpoint] does not panic. It accepts exactly
    the endpoints [scheme://addr] whose scheme is unix or tcp in any mix of
    upper and lower case and whose address is not empty; it returns the
    scheme as it was written, not in lower case. Everything else it
    rejects. *)
Theorem parseEndpoint_ascii u ep :
  isASCII ep = true →
  match parseEndpoint u ep with
  | Some (scheme, addr, None) => endpoint_of ep scheme addr
  | Some (scheme, addr, Some err) =>
      scheme = "" ∧ addr = "" ∧ err = "Invalid endpoint: " +:+ ep
      ∧ ∀ scheme' addr', ¬ endpoint_of ep scheme' addr'
  | None => False
  end.
Proof.
  intros Ha. destruct (parseEndpoint u ep) as [[[scheme addr] [err|]]|] eqn:H.
  - destruct (parseEndpoint_Some _ _ _ _ _ H) as (-> & -> & ->).
    repeat split. intros scheme' addr' Hacc.
    by rewrite (endpoint_of_accepted u _ _ _ Ha Hacc) in H.
  - destruct (parseEndpoint_Some _ _ _ _ _ H) as (Hep & Hne & _).
    split; [done|]. split; [done|].
    unfold parseEndpoint in H. destruct (_ || _) eqn:Hp; [|done].
    destruct (prefix_scheme_Index u ep Ha Hp) as (m & Hi & Hs).
    unfold strings_SplitN_2 in H. rewrite Hi in H. cbn in H.
    clear Hep. destruct (decide _); by simplify_eq.
  - unfold parseEndpoint in H. destruct (_ || _) eqn:Hp; [|done].
    destruct (prefix_scheme_Index u ep Ha Hp) as (m & Hi & Hs).
    unfold strings_SplitN_2 in H. rewrite Hi in H. cbn in H.
    destruct (decide _); by simplify_eq.
Qed.

Lemma parseEndpoint_ascii_witness :
  endpoint_of "UNIX:///csi/csi.sock" "UNIX" "/csi/csi.sock".
Proof. exact (parseEndpoint_ascii (λ s, s) "UNIX:///csi/csi.sock" eq_refl). Defined.

(** ** [init] *)

(** X3. init returns only when both environment variables are set, the
    service named by OPENEBS_MAPI_SVC is found in the namespace named by
    OPENEBS_NAMESPACE, and the service has a port. Then the endpoint is
    http://, the cluster IP, a colon and the first port in decimal, and
    the two maps are empty: the state is the initial one of the node
    plugin. A service without ports makes init panic, not exit through
    Fatalf; the namespace is checked before the service name is read. *)
Theorem init_starts_empty (ienv : InitEnv) :
  let ns := os_Getenv ienv "OPENEBS_NAMESPACE" in
  let name := os_Getenv ienv "OPENEBS_MAPI_SVC" in
  (∀ ns' ep w,
     init ienv = Started ns' ep w ↔
     ns' = ns ∧ ns ≠ "" ∧ name ≠ "" ∧ w = World_init
     ∧ ∃ svc port, service_Get ienv ns name = inr svc
         ∧ head (Ports svc) = Some port
         ∧ ep = "http://" +:+ ClusterIP svc +:+ ":" +:+ strconv_FormatInt_10 port)
  ∧ (init ienv = Panicked ↔
     ns ≠ "" ∧ name ≠ "" ∧ ∃ svc, service_Get ienv ns name = inr svc ∧ Ports svc = [])
  ∧ (ns = "" → init ienv = Fatalf "OPENEBS_NAMESPACE environment variable not set").
Proof.
  cbv zeta. unfold init.
  destruct (decide (os_Getenv ienv "OPENEBS_NAMESPACE" = "")) as [Hns|Hns].
  { split; [|split]; [| |done].
    - intros ns' ep w. split; [done|]. by intros (_ & ? & _).
    - split; [done|]. by intros (? & _). }
  destruct (decide (os_Getenv ienv "OPENEBS_MAPI_SVC" = "")) as [Hname|Hname].
  { split; [|split]; [| |done].
    - intros ns' ep w. split; [done|]. by intros (_ & _ & ? & _).
    - split; [done|]. by intros (_ & ? & _). }
  destruct (service_Get ienv _ _) as [err|svc] eqn:Hsvc.
  { split; [|split]; [| |done].
    - intros ns' ep w. split; [done|]. by intros (_ & _ & _ & _ & ? & ? & ? & _).
    - split; [done|]. by intros (_ & _ & ? & ? & _). }
  destruct (Ports svc) as [|port ports] eqn:Hports; cbn [lookup list_lookup].
  { split; [|split]; [| |done].
    - intros ns' ep w. split; [done|].
      intros (_ & _ & _ & _ & svc' & port & Hs & Hp & _). simplify_eq.
      by rewrite Hports in Hp.
    - split; [|done]. intros _. split; [done|]. split; [done|]. by exists svc. }
  split; [|split]; [| |done].
  - intros ns' ep w. split.
    + intros ?. simplify_eq. repeat split; try done.
      exists svc, port. by rewrite Hports.
    + intros (-> & _ & _ & -> & svc' & port' & Hs & Hp & ->). simplify_eq.
      rewrite Hports in Hp. cbn in Hp. by simplify_eq.
  - split; [done|]. intros (_ & _ & svc' & Hs & Hp). simplify_eq.
    by rewrite Hports in Hp.
Qed.

(** The service maya-apiserver-service at 10.0.0.9, port 5656. *)
Lemma init_starts_empty_witness :
  init {| os_Getenv := λ k, if decide (k = "OPENEBS_NAMESPACE") then "openebs"
                            else "maya-apiserver-service";
          service_Get := λ _ _, inr {| ClusterIP := "10.0.0.9"; Ports := [5656] |} |}
  = Started "openebs" "http://10.0.0.9:5656" World_init.
Proof.
  apply (proj1 (init_starts_empty _)). cbn.
  split; [done|]. split; [done|]. split; [done|]. split; [done|].
  by eexists _, _.
Defined.

(** ** The list builder *)

Lemma List_range_filter {Predicate} (all : list Predicate → CSIVolume → bool)
    (fs : list Predicate) items filtered :
  Items (List_range Predicate all fs items filtered)
  = Items filtered ++ filter (λ vol, all fs vol = true) items.
Proof.
  revert filtered. induction items as [|vol items IH]; intros filtered.
  { cbn. by rewrite app_nil_r. }
  cbn [List_range]. rewrite IH. destruct (all fs vol) eqn:Hvol.
  - rewrite filter_cons_True by done. cbn. by rewrite <- app_assoc.
  - rewrite filter_cons_False; [done|]. by rewrite Hvol.
Qed.

Lemma WithFilter_chain {Predicate} (b : ListBuilder Predicate) preds :
  let b' := foldl (λ b pred, WithFilter pred b) b preds in
  list_ b' = list_ b ∧ filters b' = filters b ++ concat preds.
Proof.
  cbv zeta. revert b. induction preds as [|pred preds IH]; intros b.
  { cbn. by rewrite app_nil_r. }
  cbn [foldl concat]. destruct (IH (WithFilter pred b)) as [-> ->].
  cbn. by rewrite app_assoc.
Qed.

(** X21. What List returns for a builder made by ListBuilderFrom and any number
    of calls of WithFilter. The filters of the builder are the predicates
    of all the calls, in the order given. When there are none, List returns
    the volumes that were put in, all of them and in the same order, and
    the predicates are not consulted. Otherwise it returns the volumes
    that pass the filters taken together, each as often as it was put in
    and in the order in which they were put in. A new builder lists
    nothing. *)
Theorem ListBuilder_List {Predicate} (all : list Predicate → CSIVolume → bool)
    (vols : CSIVolumeList) (preds : list (list Predicate)) :
  let b := foldl (λ b pred, WithFilter pred b) (ListBuilderFrom vols) preds in
  filters b = concat preds
  ∧ Items (List Predicate all b)
    = (if decide (concat preds = []) then Items vols
       else filter (λ vol, all (concat preds) vol = true) (Items vols))
  ∧ Items (List Predicate all b) `sublist_of` Items vols
  ∧ Items (List Predicate all NewListBuilder) = [].
Proof.
  cbv zeta.
  destruct (WithFilter_chain (ListBuilderFrom (Predicate := Predicate) vols) preds)
    as [Hlist Hfilters].
  assert (Items (list_ (ListBuilderFrom (Predicate := Predicate) vols)) = Items vols
          ∧ filters (ListBuilderFrom (Predicate := Predicate) vols) = []) as [Hitems Hnone].
  { unfold ListBuilderFrom. destruct (decide (length (Items vols) = O)) as [H|H]; [|done].
    cbn. split; [|done]. by destruct (Items vols). }
  rewrite Hnone in Hfilters. cbn [app] in Hfilters.
  assert (Items (List Predicate all
                   (foldl (λ b pred, WithFilter pred b) (ListBuilderFrom vols) preds))
          = if decide (concat preds = []) then Items vols
            else filter (λ vol, all (concat preds) vol = true) (Items vols)) as HList.
  { unfold List. rewrite Hfilters, Hlist.
    destruct (decide (concat preds = [])) as [->|Hne]; [done|].
    rewrite decide_False by (by destruct (concat preds)).
    by rewrite List_range_filter, Hitems. }
  split; [done|]. split; [done|]. split; [|done].
  rewrite HList. destruct (decide _); [done|apply sublist_filter].
Qed.

(** ** Every path through [NodePublishVolume] *)

Lemma alter_fresh {A} (f : A → A) (l : list A) (x : A) :
  alter f (length l) (l ++ [x]) = l ++ [f x].
Proof.
  induction l as [|a l IH]; [done|]. cbn. by f_equal.
Qed.

Lemma devicePath_fresh (os : list CSIVolume) (v : CSIVolume) (n : nat) :
  DevicePath (Volume v) = "" →
  DevicePath (Volume (default CSIVolume_zero ((os ++ [v]) !! n)))
  = DevicePath (Volume (default CSIVolume_zero (os !! n))).
Proof.
  intros Hv. destruct (decide (n < length os)%nat) as [Hlt|Hge].
  - by rewrite lookup_app_l.
  - rewrite (lookup_ge_None_2 os) by lia.
    destruct (decide (n = length os)) as [->|Hne].
    + by rewrite lookup_fresh.
    + rewrite lookup_ge_None_2; [done|]. rewrite length_app. simpl. lia.
Qed.

(** Pick the path a symbolic run has taken. *)
Ltac path :=
  lazymatch goal with
  | |- _ ∨ _ => first [left; path | right; path]
  | |- ∃ _, _ => eexists; path
  | |- _ ∧ _ => split; [path|path]
  | |- _ => solve [reflexivity | eassumption]
  end.

Lemma NodePublishVolume_paths env nodeID req (w : World) :
  ∃ tr, Forall is_probe tr ∧
  log (publish_step env nodeID req NPV_entry w).2 = log w ++ tr ∧
  ((∃ c m os,
      NodePublishVolume env nodeID req w
      = (Some (Error c m),
         {| Volumes := Volumes w; objects := os; ReqMountList := ReqMountList w;
            log := log w ++ tr |})
      ∧ (os = objects w ∨ ∃ v, os = objects w ++ [v] ∧ DevicePath (Volume v) = ""))
   ∨ ∃ v, (publish_step env nodeID req NPV_entry w).1
          = NPV_verifyPublish (length (objects w)) false
      ∧ Name (Volume v) = VolumeId req ∧ MountPath (Volume v) = TargetPath req
      ∧ DevicePath (Volume v) = "" ∧
      let id := VolumeId req in
      let path := TargetPath req in
      let vol := length (objects w) in
      let W V os tr' :=
        {| Volumes := V; objects := os; ReqMountList := ReqMountList w;
           log := log w ++ tr ++ tr' |} in
      let run := NodePublishVolume env nodeID req w in
      (∃ d, registry_devicePath w id = Some d ∧ d ≠ "" ∧
         run = (Some OK, W (Volumes w) (objects w ++ [v])
                  [EvLock VolumesListLock; EvUnlock VolumesListLock]))
      ∨ (registry_devicePath w id = Some "" ∧
         run = (Some (Error Internal "Mount under progress"),
                W (Volumes w) (objects w ++ [v])
                  [EvLock VolumesListLock; EvUnlock VolumesListLock; EvSleep 12;
                   EvLock VolumesListLock; EvUnlock VolumesListLock]))
      ∨ (Volumes w !! id = None ∧
         ((∃ e, run = (Some (Error Internal e),
                       W (Volumes w) (objects w ++ [v])
                         [EvLock VolumesListLock;
                          EvDeleteOldCSIVolumeCR v nodeID (Some e);
                          EvUnlock VolumesListLock]))
          ∨ (∃ e, run = (Some (Error Internal e),
                         W (Volumes w) (objects w ++ [v])
                           [EvLock VolumesListLock;
                            EvDeleteOldCSIVolumeCR v nodeID None;
                            EvCreateCSIVolumeCR v nodeID path (Some e);
                            EvUnlock VolumesListLock]))
          ∨ (∃ e, run = (Some (Error Internal e),
                         W (<[id := vol]> (Volumes w)) (objects w ++ [v])
                           [EvLock VolumesListLock;
                            EvDeleteOldCSIVolumeCR v nodeID None;
                            EvCreateCSIVolumeCR v nodeID path None;
                            EvVolumesStore id vol;
                            EvUnlock VolumesListLock;
                            EvChmod path 0 (Some e)]))
          ∨ (∃ d e, run = (Some (Error Internal e),
                           W (<[id := vol]> (Volumes w)) (objects w ++ [v])
                             [EvLock VolumesListLock;
                              EvDeleteOldCSIVolumeCR v nodeID None;
                              EvCreateCSIVolumeCR v nodeID path None;
                              EvVolumesStore id vol;
                              EvUnlock VolumesListLock;
                              EvChmod path 0 None;
                              EvAttachAndMountDisk v (d, Some e)]))
          ∨ (∃ d, run = (Some OK,
                         W (<[id := vol]> (Volumes w))
                           (objects w ++ [with_DevicePath d v])
                           [EvLock VolumesListLock;
                            EvDeleteOldCSIVolumeCR v nodeID None;
                            EvCreateCSIVolumeCR v nodeID path None;
                            EvVolumesStore id vol;
                            EvUnlock VolumesListLock;
                            EvChmod path 0 None;
                            EvAttachAndMountDisk v (d, None);
                            EvLock VolumesListLock;
                            EvSetDevicePath vol d;
                            EvUnlock VolumesListLock]))))).
Proof.
  destruct (NodePublishVolume env nodeID req w) as [r w'] eqn:Hrun.
  rewrite NodePublishVolume_unfold in Hrun.
  pose proof (publish_entry_spec env nodeID req w) as Hentry.
  destruct (publish_step env nodeID req NPV_entry w) as [pc w1].
  destruct Hentry as (tr & Hlog & Hprobe & HV & HR & Hpc).
  destruct w1 as [V1 O1 R1 L1]. cbn [Volumes objects ReqMountList log] in *.
  subst V1 R1 L1. exists tr. split; [done|]. split; [done|].
  destruct Hpc as [(c & m & -> & HO)|(v0 & -> & -> & Hdp & Hname & Hmp & Hcap & Hid)].
  { run_exec Hrun. simplify_eq. left. by exists c, m, O1. }
  right. exists v0. split; [done|]. split; [done|]. split; [done|]. split; [done|].
  cbv zeta.
  unfold registry_devicePath.
  run_exec Hrun; simplify_eq;
    repeat match goal with
    | H : decide _ = _ |- _ => clear H
    | H : ¬ (_ ≠ _) |- _ => apply dec_stable in H
    end;
    rewrite ?devicePath_fresh in * by done;
    rewrite ?lookup_fresh in *; cbn [from_option id] in *;
    rewrite <- ?app_assoc; cbn [app]; rewrite ?alter_fresh, ?Hmp.
  all: try path.
  all: try (right; left; split; [by f_equal|reflexivity]).
Qed.

(** ** Every path through [NodeUnpublishVolume] *)

Lemma NodeUnpublishVolume_paths env req (w : World) :
  let id := UnpublishVolumeId req in
  let path := UnpublishTargetPath req in
  let run := NodeUnpublishVolume env req w in
  (id = "" ∧ run = (Some (Error InvalidArgument "Volume ID missing in request"), w))
  ∨ (id ≠ "" ∧ path = ""
     ∧ run = (Some (Error InvalidArgument "Target path missing in request"), w))
  ∨ (id ≠ "" ∧ path ≠ "" ∧
     ((Volumes w !! id = None
       ∧ run = (Some OK,
                with_log w [EvLock VolumesListLock; EvUnlock VolumesListLock]))
      ∨ ∃ vol, Volumes w !! id = Some vol ∧
          let v := default CSIVolume_zero (objects w !! vol) in
          let W tr :=
            {| Volumes := delete id (Volumes w); objects := objects w;
               ReqMountList := ReqMountList w;
               log := log w ++ [EvLock VolumesListLock; EvVolumesDelete id;
                                EvUnlock VolumesListLock] ++ tr |} in
          (∃ e, run = (Some (Error Internal e),
                       W [EvUnmountAndDetachDisk v path (Some e)]))
          ∨ (∃ e, run = (Some (Error Internal e),
                         W [EvUnmountAndDetachDisk v path None;
                            EvDeleteCSIVolumeCR v (Some e)]))
          ∨ run = (Some OK,
                   W [EvUnmountAndDetachDisk v path None;
                      EvDeleteCSIVolumeCR v None]))).
Proof.
  cbv zeta.
  destruct (NodeUnpublishVolume env req w) as [r w'] eqn:Hrun.
  rewrite NodeUnpublishVolume_unfold in Hrun.
  assert (∀ s, String.length s = O ↔ s = "") as Hlen by (by intros []).
  run_exec Hrun; simplify_eq;
    repeat match goal with
    | H : decide _ = _ |- _ => clear H
    | H : String.length _ = O |- _ => apply Hlen in H
    | H : String.length _ ≠ O |- _ => rewrite Hlen in H
    end;
    unfold with_log; rewrite <- ?app_assoc; cbn [app].
  all: try path.
  all: try (destruct w; path).
Qed.

(** ** Time asleep *)







(** ** The locks of the two handlers *)

Lemma locks_run_app s tr1 tr2 :
  locks_run s (tr1 ++ tr2)
  = match locks_run s tr1 with Some s' => locks_run s' tr2 | None => None end.
Proof.
  revert s. induction tr1 as [|e tr1 IH]; intros s; [done|]. cbn.
  destruct (locks_step s e); [apply IH|done].
Qed.

Lemma locks_run_probes tr : Forall is_probe tr → locks_run no_locks tr = Some no_locks.
Proof.
  induction 1 as [|e tr He _ IH]; [done|]. by destruct e.
Qed.


(** ** How long [NodePublishVolume] sleeps *)

(** The volume reports Offline six times, the portal refuses five
    connections, and the record of the volume is still without a device
    path. *)
Example publish_sleeps_34 :
  slept (trace_of World_mounting
           (NodePublishVolume
              (with_Dial (λ h _, if decide (count_dial h < 5)%nat
                                 then Some "connection refused" else None)
                 env_ready_on_7th)
              "node-a" publish_pvc1 World_mounting).2) = 34.
Proof. vm_compute. reflexivity. Qed.


(** ** What a success of [NodePublishVolume] means *)



(** ** What the handlers leave alone *)

(** X15. A call of NodePublishVolume or NodeUnpublishVolume leaves the records
    of all other volumes where they are, leaves ReqMountList as it is, and
    changes no object that existed before: NodePublishVolume allocates one
    object at most and writes only to that one, NodeUnpublishVolume
    allocates and writes none. *)
Theorem handlers_frame env nodeID :
  (∀ req (w : World),
     let w' := (NodePublishVolume env nodeID req w).2 in
     ReqMountList w' = ReqMountList w
     ∧ (∀ id, id ≠ VolumeId req → Volumes w' !! id = Volumes w !! id)
     ∧ (∀ vol v, objects w !! vol = Some v → objects w' !! vol = Some v)
     ∧ (length (objects w') ≤ S (length (objects w)))%nat)
  ∧ (∀ req (w : World),
       let w' := (NodeUnpublishVolume env req w).2 in
       ReqMountList w' = ReqMountList w ∧ objects w' = objects w
       ∧ (∀ id, id ≠ UnpublishVolumeId req → Volumes w' !! id = Volumes w !! id)).
Proof.
  split; intros req w; cbv zeta.
  - destruct (NodePublishVolume_paths env nodeID req w)
      as (tr & _ & _ & [(c & m & os & -> & Hos)|(v & _ & _ & _ & _ & H)]).
    { cbn [snd Volumes objects ReqMountList]. split; [done|]. split; [done|].
      destruct Hos as [->|(v & -> & _)]; [split; [done|lia]|].
      split; [intros; by apply lookup_app_l_Some|]. rewrite length_app. simpl. lia. }
    cbv zeta in H.
    destruct H as [(d & _ & _ & ->)|[(_ & ->)|(_ & [(e & ->)|[(e & ->)|[(e & ->)
                  |[(d & e & ->)|(d & ->)]]]])]];
      cbn [snd Volumes objects ReqMountList]; (split; [done|]);
      (split; [intros id Hid; by rewrite ?lookup_insert_ne|]);
      (split; [intros; by apply lookup_app_l_Some|]);
      rewrite length_app; simpl; lia.
  - pose proof (NodeUnpublishVolume_paths env req w) as H. cbv zeta in H.
    destruct H as [(_ & ->)|[(_ & _ & ->)|(_ & _ & [(_ & ->)|(vol & _ & H)])]];
      cbn [snd]; try done.
    destruct H as [(e & ->)|[(e & ->)| ->]];
      cbn [snd Volumes objects ReqMountList]; (split; [done|]); (split; [done|]);
      intros id Hid; by rewrite lookup_delete_ne.
Qed.

Lemma handlers_frame_witness :
  Volumes (NodePublishVolume env_ok "node-a" publish_pvc1 World_init).2 !! "pvc-2"
  = Volumes World_init !! "pvc-2".
Proof.
  apply (proj1 (handlers_frame env_ok "node-a") publish_pvc1 World_init). discriminate.
Defined.

(** ** Publish, then unpublish *)

Lemma devicePath_valid (os : list CSIVolume) (n : nat) :
  DevicePath (Volume (default CSIVolume_zero (os !! n))) ≠ "" → is_Some (os !! n).
Proof. by destruct (os !! n). Qed.

(** X16. A NodePublishVolume that returns OK followed by a NodeUnpublishVolume
    for the same volume that returns OK leaves the registry as it was
    before the publish, without the record of the volume (whether it was
    there before or not), and leaves ReqMountList as it was. The unpublish
    unmounts at the target path of its own request and deletes the CR of
    the record the publish left in the registry, device path included. *)
Theorem publish_unpublish_round_trip env nodeID req ureq (w : World) :
  UnpublishVolumeId ureq = VolumeId req →
  (NodePublishVolume env nodeID req w).1 = Some OK →
  let w1 := (NodePublishVolume env nodeID req w).2 in
  (NodeUnpublishVolume env ureq w1).1 = Some OK →
  let w2 := (NodeUnpublishVolume env ureq w1).2 in
  Volumes w2 = delete (VolumeId req) (Volumes w)
  ∧ ReqMountList w2 = ReqMountList w
  ∧ ∃ vol v,
      Volumes w1 !! VolumeId req = Some vol ∧ objects w1 !! vol = Some v
      ∧ trace_of w1 w2
        = [EvLock VolumesListLock; EvVolumesDelete (VolumeId req);
           EvUnlock VolumesListLock;
           EvUnmountAndDetachDisk v (UnpublishTargetPath ureq) None;
           EvDeleteCSIVolumeCR v None].
Proof.
  cbv zeta. intros Hid Hr.
  assert (∃ vol v,
            Volumes (NodePublishVolume env nodeID req w).2 !! VolumeId req = Some vol
            ∧ objects (NodePublishVolume env nodeID req w).2 !! vol = Some v
            ∧ ReqMountList (NodePublishVolume env nodeID req w).2 = ReqMountList w
            ∧ delete (VolumeId req) (Volumes (NodePublishVolume env nodeID req w).2)
              = delete (VolumeId req) (Volumes w))
    as (vol & v & Hvol & Hv & HR & HV).
  { destruct (NodePublishVolume_paths env nodeID req w)
      as (tr & _ & _ & [(c & m & os & H & _)|(v & _ & _ & _ & _ & H)]);
      [by rewrite H in Hr|].
    cbv zeta in H.
    destruct H as [(d & Hd & Hne & H)|[(_ & H)|(Hnone & [(e & H)|[(e & H)|[(e & H)
                  |[(d & e & H)|(d & H)]]]])]]; rewrite H in Hr |- *;
      cbn [fst snd Volumes objects ReqMountList] in *; try done.
    - unfold registry_devicePath in Hd.
      destruct (Volumes w !! VolumeId req) as [n|] eqn:Hn; [|done].
      simplify_eq. destruct (devicePath_valid _ _ Hne) as [v' Hv'].
      exists n, v'. split; [done|]. split; [by apply lookup_app_l_Some|]. done.
    - exists (length (objects w)), (with_DevicePath d v).
      split; [by rewrite lookup_insert_eq|]. split; [apply lookup_fresh|].
      split; [done|]. by rewrite delete_insert_eq. }
  set (w1 := (NodePublishVolume env nodeID req w).2) in *. clearbody w1. intros Hu.
  pose proof (NodeUnpublishVolume_paths env ureq w1) as H. cbv zeta in H.
  rewrite Hid in H.
  destruct H as [(_ & H)|[(_ & _ & H)|(_ & _ & [(Hnone & H)|(vol' & Hvol' & H)])]];
    [by rewrite H in Hu..|by rewrite Hnone in Hvol|].
  rewrite Hvol' in Hvol. simplify_eq. rewrite Hv in H. cbn [default from_option id] in H.
  destruct H as [(e & H)|[(e & H)|H]]; rewrite H in Hu |- *; [done..|].
  cbn [snd Volumes ReqMountList]. split; [done|]. split; [done|].
  exists vol, v. split; [done|]. split; [done|]. by apply trace_of_app.
Qed.

Lemma publish_unpublish_round_trip_witness :
  Volumes (NodeUnpublishVolume env_ok unpublish_pvc1
             (NodePublishVolume env_ok "node-a" publish_pvc1 World_init).2).2
  = delete "pvc-1" (Volumes World_init).
Proof.
  apply (publish_unpublish_round_trip env_ok "node-a" publish_pvc1 unpublish_pvc1
           World_init); vm_compute; reflexivity.
Defined.

(** ** The mount table test *)

(** X7. listContains returns the first mount point of the table with the path
    asked for, together with true, or nil and false when the table has
    none: the flag and the pointer never disagree. verifyMountOpts says
    whether the option is among the options. So the test of MonitorMounts
    looks at the first entry for the mount path only: a volume passes
    exactly when that entry carries rw, whatever later entries for the
    same path say. *)
Theorem mounted_rw_first_entry mlist (v : CSIVolume) :
  (∀ mountPath,
     match listContains mountPath mlist with
     | (Some mp, true) =>
         ∃ l1 l2, mlist = l1 ++ mp :: l2 ∧ Path mp = mountPath
                  ∧ Forall (λ m, Path m ≠ mountPath) l1
     | (None, false) => Forall (λ m, Path m ≠ mountPath) mlist
     | _ => False
     end)
  ∧ (∀ opts desiredOpt, verifyMountOpts opts desiredOpt = true ↔ desiredOpt ∈ opts)
  ∧ (mounted_rw mlist v = true
     ↔ ∃ l1 mp l2, mlist = l1 ++ mp :: l2 ∧ Path mp = MountPath (Volume v)
                   ∧ Forall (λ m, Path m ≠ MountPath (Volume v)) l1
                   ∧ "rw" ∈ Opts mp).
Proof.
  assert (∀ mountPath l,
            match listContains mountPath l with
            | (Some mp, true) =>
                ∃ l1 l2, l = l1 ++ mp :: l2 ∧ Path mp = mountPath
                         ∧ Forall (λ m, Path m ≠ mountPath) l1
            | (None, false) => Forall (λ m, Path m ≠ mountPath) l
            | _ => False
            end) as Hlc.
  { intros mountPath l. induction l as [|info l IH]; [constructor|].
    cbn [listContains]. destruct (decide (Path info = mountPath)) as [Hp|Hp].
    { by exists [], l. }
    destruct (listContains mountPath l) as [[mp|] []]; try done.
    - destruct IH as (l1 & l2 & -> & Hmp & Hl1). exists (info :: l1), l2.
      split; [done|]. split; [done|]. by constructor.
    - by constructor. }
  assert (∀ opts desiredOpt, verifyMountOpts opts desiredOpt = true ↔ desiredOpt ∈ opts)
    as Hvm.
  { intros opts d. induction opts as [|opt opts IH]; cbn [verifyMountOpts].
    { split; [done|]. intros H. by apply elem_of_nil in H. }
    destruct (decide (opt = d)) as [->|Hne].
    - split; [intros _; apply list_elem_of_here|done].
    - rewrite IH. split; [by apply list_elem_of_further|].
      intros H. apply elem_of_cons in H as [?|?]; done. }
  split; [intros; apply Hlc|]. split; [done|].
  unfold mounted_rw. specialize (Hlc (MountPath (Volume v)) mlist).
  destruct (listContains (MountPath (Volume v)) mlist) as [[mp|] []]; try done.
  - destruct Hlc as (l1 & l2 & -> & Hmp & Hl1). cbn. rewrite Hvm. split.
    + intros Hrw. by exists l1, mp, l2.
    + intros (l1' & mp' & l2' & Heq & Hmp' & Hl1' & Hrw).
      assert (l1 = l1' ∧ mp = mp') as [_ ->]; [|done].
      clear Hrw. revert l1' Heq Hl1'. induction Hl1 as [|m l1 Hm _ IH]; intros l1' Heq Hl1'.
      * destruct l1' as [|m' l1']; [by simplify_eq|].
        apply Forall_cons in Hl1' as [Hm' _]. by simplify_eq.
      * destruct l1' as [|m' l1']; [by simplify_eq|].
        apply Forall_cons in Hl1' as [_ Hl1']. cbn in Heq. simplify_eq.
        destruct (IH l1' H0 Hl1') as [-> ->]. done.
  - cbn. split; [done|]. intros (l1 & mp & l2 & -> & Hmp & _ & _).
    apply Forall_app in Hlc as [_ Hlc]. apply Forall_cons in Hlc as [Hlc _]. done.
Qed.

(** ** Requests with missing arguments *)

(** X13. NodePublishVolume rejects a request without a volume capability, and
    then one with an empty volume id, with InvalidArgument before it does
    anything; it does not look at the target path. NodeUnpublishVolume
    rejects an empty volume id, and then an empty target path, the same
    way. Neither returns InvalidArgument for any other reason. *)
Theorem handlers_reject_missing_arguments env nodeID :
  (∀ req (w : World),
     let run := NodePublishVolume env nodeID req w in
     (VolumeCapability req = None →
      run = (Some (Error InvalidArgument "Volume capability missing in request"), w))
     ∧ (VolumeCapability req ≠ None → VolumeId req = "" →
        run = (Some (Error InvalidArgument "Volume ID missing in request"), w))
     ∧ (∀ m, run.1 = Some (Error InvalidArgument m) →
          VolumeCapability req = None ∨ VolumeId req = ""))
  ∧ (∀ req (w : World),
       let run := NodeUnpublishVolume env req w in
       (UnpublishVolumeId req = "" →
        run = (Some (Error InvalidArgument "Volume ID missing in request"), w))
       ∧ (UnpublishVolumeId req ≠ "" → UnpublishTargetPath req = "" →
          run = (Some (Error InvalidArgument "Target path missing in request"), w))
       ∧ (∀ m, run.1 = Some (Error InvalidArgument m) →
            UnpublishVolumeId req = "" ∨ UnpublishTargetPath req = "")).
Proof.
  split; intros req w; cbv zeta.
  - split; [|split].
    + intros Hcap. rewrite NodePublishVolume_unfold. cbn [publish_step]. by rewrite Hcap.
    + intros Hcap Hid. rewrite NodePublishVolume_unfold. cbn [publish_step].
      destruct (VolumeCapability req); [|done]. by rewrite Hid.
    + intros m Hr.
      destruct (VolumeCapability req) as [cap|] eqn:Hcap; [|by left].
      destruct (decide (VolumeId req = "")) as [Hid|Hid]; [by right|]. exfalso.
      assert (String.length (VolumeId req) ≠ O) as Hlen by (by destruct (VolumeId req)).
      destruct (NodePublishVolume env nodeID req w) as [r w'] eqn:Hrun.
      cbn [fst] in Hr. subst r. rewrite NodePublishVolume_unfold in Hrun.
      destruct (publish_step env nodeID req NPV_entry w) as [pc w1] eqn:Hentry.
      assert (∀ m', pc ≠ NPV_return (Error InvalidArgument m')) as Hpc.
      { intros m' ->. cbn [publish_step] in Hentry. rewrite Hcap in Hentry.
        rewrite decide_False in Hentry by done.
        unfold bind at 1 in Hentry.
        destruct (GetVolumeDetails env _ _ _ _ w) as [[?|?] ?];
          [by unfold ret in Hentry|].
        unfold bind at 1 in Hentry.
        destruct (WaitForVolumeToBeReady env _ _) as [[?|] ?];
          [by unfold ret in Hentry|].
        unfold bind at 1, load at 1 in Hentry. unfold bind at 1 in Hentry.
        by destruct (WaitForVolumeToBeReachable env _ _) as [[?|] ?]. }
      pose proof (publish_entry_spec env nodeID req w) as Hspec.
      rewrite Hentry in Hspec.
      destruct Hspec as (_ & _ & _ & _ & _ & [(c & m' & -> & _)|(v0 & -> & _)]).
      * rewrite run_publish_return in Hrun. cbn in Hrun. simplify_eq.
        by eapply Hpc.
      * run_exec Hrun; simplify_eq.
  - pose proof (NodeUnpublishVolume_paths env req w) as H. cbv zeta in H.
    destruct H as [(Hid & ->)|[(Hid & Hp & ->)|(Hid & Hp & [(_ & ->)|(vol & _ & H)])]].
    + split; [done|]. split; [done|]. by left.
    + split; [done|]. split; [done|]. by right.
    + by repeat split.
    + destruct H as [(e & ->)|[(e & ->)| ->]]; by repeat split.
Qed.

Lemma handlers_reject_missing_arguments_witness :
  NodeUnpublishVolume env_ok
    {| UnpublishVolumeId := "pvc-1"; UnpublishTargetPath := "" |} World_published
  = (Some (Error InvalidArgument "Target path missing in request"), World_published).
Proof.
  apply (proj2 (handlers_reject_missing_arguments env_ok "node-a")); done.
Defined.

(** ** A tick of [MonitorMounts], volume by volume *)

Lemma run_monitor_S env fuel pc (w : World) :
  pc ≠ MM_ticker →
  run_monitor env (S fuel) pc w
  = let '((pc1, a), w1) := monitor_step env [] pc w in
    let '((pc2, gos), w2) := run_monitor env fuel pc1 w1 in
    ((pc2, option_list a ++ gos), w2).
Proof.
  intros Hpc. destruct pc; [done|..]; cbn [run_monitor]; unfold bind, ret;
    destruct (monitor_step env [] _ w) as [[pc1 a] w1]; cbn [fst snd];
    by destruct (run_monitor env fuel pc1 w1) as [[pc2 gos] w2].
Qed.

Lemma run_monitor_ticker env fuel (w : World) :
  run_monitor env fuel MM_ticker w = ((MM_ticker, []), w).
Proof. by destruct fuel. Qed.

Lemma monitor_ticker env order (w : World) :
  monitor_step env order MM_ticker w
  = ((MM_range (env_mounterList env (log w)) order, None),
     with_log w [EvMounterList (env_mounterList env (log w));
                 EvRLock VolumesListLock]).
Proof. cbn. unfold with_log. cbn. by rewrite <- app_assoc. Qed.

(** The visit of one volume. *)
Lemma monitor_visit env order mlist vol rest (w : World) :
  (needs_repair w mlist vol →
   monitor_step env order (MM_range mlist (vol :: rest)) w
   = ((MM_mark mlist rest vol (r_exists (remount_args w mlist vol))
         (r_mountPoint (remount_args w mlist vol)), None), w))
  ∧ (¬ needs_repair w mlist vol →
     monitor_step env order (MM_range mlist (vol :: rest)) w
     = ((MM_range mlist rest, None), w)).
Proof.
  unfold needs_repair, devicePath_at, name_of, name_in, mounted_rw, remount_args.
  cbn [monitor_step r_exists r_mountPoint]. unfold bind, load, ret, ReqMountList_lookup.
  set (v := default CSIVolume_zero (objects w !! vol)).
  destruct (decide (DevicePath (Volume v) = "")) as [Hd|Hd].
  { split; [by intros [? _]|done]. }
  destruct (listContains (MountPath (Volume v)) mlist) as [mp ex] eqn:Hlc. cbn [fst snd].
  destruct (ex && from_option _ false mp) eqn:Hrw.
  { split; [by intros (_ & ? & _)|done]. }
  destruct (ReqMountList w !! Name (Volume v)) as [b|] eqn:Hr.
  { split; [by intros (_ & _ & ?)|done]. }
  split; [done|]. intros H. by destruct H.
Qed.

Lemma monitor_mark_go env order mlist rest vol ex mp (w : World) :
  monitor_step env order (MM_mark mlist rest vol ex mp) w
  = ((MM_go mlist rest vol ex mp, None),
     {| Volumes := Volumes w; objects := objects w;
        ReqMountList := <[name_of w vol := true]> (ReqMountList w);
        log := log w ++ [EvLock ReqMountListLock; EvReqMountStore (name_of w vol);
                         EvUnlock ReqMountListLock] |})
  ∧ monitor_step env order (MM_go mlist rest vol ex mp) w
    = let args := {| r_exists := ex; r_vol := vol; r_mountPoint := mp;
                     r_desiredMountOpt :=
                       MountPath (Volume (default CSIVolume_zero (objects w !! vol))) |} in
      ((MM_range mlist rest, Some args), with_log w [EvGo args]).
Proof.
  split; cbn; unfold with_log; by rewrite <- ?app_assoc.
Qed.

Lemma needs_repair_marked (w w1 : World) mlist vol name :
  objects w1 = objects w →
  ReqMountList w1 = <[name := true]> (ReqMountList w) →
  needs_repair w1 mlist vol ↔ needs_repair w mlist vol ∧ name_of w vol ≠ name.
Proof.
  intros Ho HR. unfold needs_repair, devicePath_at, name_of. rewrite Ho, HR.
  destruct (decide (name_in (objects w) vol = name)) as [->|Hne].
  - rewrite lookup_insert_eq. split; [by intros (_ & _ & ?)|by intros [_ ?]].
  - rewrite lookup_insert_ne by done. tauto.
Qed.


(** The rest of a tick, from any volume of the [range] loop on. *)
Lemma monitor_range env mlist rest (w : World) fuel :
  (3 * length rest + 1 ≤ fuel)%nat →
  ∃ gos tr R',
    run_monitor env fuel (MM_range mlist rest) w
    = ((MM_ticker, gos),
       {| Volumes := Volumes w; objects := objects w; ReqMountList := R';
          log := log w ++ tr |})
    ∧ locks_run {| held_VolumesListLock := Reading; held_ReqMountListLock := Free |} tr
      = Some no_locks
    ∧ (∀ args, args ∈ gos →
         r_vol args ∈ rest ∧ needs_repair w mlist (r_vol args)
         ∧ args = remount_args w mlist (r_vol args))
    ∧ (∀ vol, vol ∈ rest → needs_repair w mlist vol →
         ∃ args, args ∈ gos ∧ name_of w (r_vol args) = name_of w vol)
    ∧ NoDup ((λ a, name_of w (r_vol a)) <$> gos)
    ∧ (∀ n, R' !! n
            = if decide (n ∈ (λ a, name_of w (r_vol a)) <$> gos) then Some true
              else ReqMountList w !! n).
Proof.
  revert w fuel. induction rest as [|vol rest IH]; intros w fuel Hfuel.
  { destruct fuel as [|fuel]; [simpl in Hfuel; lia|].
    rewrite run_monitor_S by done. cbn [monitor_step]. unfold bind, RUnlock, ret.
    rewrite emit_with_log, run_monitor_ticker.
    exists [], [EvRUnlock VolumesListLock], (ReqMountList w).
    split; [done|]. split; [done|].
    split; [intros ? H; by apply elem_of_nil in H|].
    split; [intros ? H; by apply elem_of_nil in H|].
    split; [constructor|]. intros n. rewrite decide_False; [done|].
    intros H. by apply elem_of_nil in H. }
  destruct fuel as [|fuel]; [simpl in Hfuel; lia|].
  rewrite run_monitor_S by done.
  destruct (monitor_visit env [] mlist vol rest w) as [Hyes Hno].
  destruct (decide (needs_repair w mlist vol)) as [Hneed|Hneed].
  - rewrite (Hyes Hneed).
    destruct fuel as [|fuel]; [simpl in Hfuel; lia|].
    rewrite run_monitor_S by done.
    rewrite (proj1 (monitor_mark_go env [] mlist rest vol _ _ w)).
    destruct fuel as [|fuel]; [simpl in Hfuel; lia|].
    rewrite run_monitor_S by done.
    rewrite (proj2 (monitor_mark_go env [] mlist rest vol _ _ _)).
    cbv zeta. cbn [objects].
    change {| r_exists := r_exists (remount_args w mlist vol); r_vol := vol;
              r_mountPoint := r_mountPoint (remount_args w mlist vol);
              r_desiredMountOpt :=
                MountPath (Volume (default CSIVolume_zero (objects w !! vol))) |}
      with (remount_args w mlist vol).
    set (w2 := with_log _ [EvGo _]).
    assert (objects w2 = objects w) as Ho by done.
    assert (ReqMountList w2 = <[name_of w vol := true]> (ReqMountList w)) as HR by done.
    assert (∀ vol', name_of w2 vol' = name_of w vol') as Hname
      by (intros; unfold name_of; by rewrite Ho).
    destruct (IH w2 fuel) as (gos & tr & R' & -> & Hlocks & Hsound & Hcomplete & Hnd & HR');
      [simpl in Hfuel; lia|].
    assert ((λ a, name_of w2 (r_vol a)) <$> gos = (λ a, name_of w (r_vol a)) <$> gos)
      as Hnames.
    { apply list_fmap_ext. intros ???. apply Hname. }
    rewrite Hnames in Hnd, HR'.
    assert (name_of w vol ∉ (λ a, name_of w (r_vol a)) <$> gos) as Hfresh.
    { intros Hin. apply list_elem_of_fmap in Hin as (a & Ha & Hin).
      destruct (Hsound a Hin) as (_ & Hn & _).
      apply (needs_repair_marked w w2 mlist _ _ Ho HR) in Hn as [_ Hn]. done. }
    exists (remount_args w mlist vol :: gos),
      ([EvLock ReqMountListLock; EvReqMountStore (name_of w vol);
        EvUnlock ReqMountListLock; EvGo (remount_args w mlist vol)] ++ tr), R'.
    split.
    { cbn [option_list app]. do 2 f_equal. subst w2. unfold with_log. cbn.
      by rewrite <- !app_assoc. }
    split; [by rewrite locks_run_app|].
    split.
    { intros args Ha. apply elem_of_cons in Ha as [->|Ha].
      - split; [apply list_elem_of_here|]. by split.
      - destruct (Hsound args Ha) as (Hin & Hn & Hargs).
        split; [by apply list_elem_of_further|].
        apply (needs_repair_marked w w2 mlist _ _ Ho HR) in Hn as [Hn _].
        split; [done|]. rewrite Hargs at 1. unfold remount_args. by rewrite Ho. }
    split.
    { intros vol' Hin Hn. apply elem_of_cons in Hin as [->|Hin].
      - exists (remount_args w mlist vol). split; [apply list_elem_of_here|done].
      - destruct (decide (name_of w vol' = name_of w vol)) as [Heq|Hne].
        + exists (remount_args w mlist vol). split; [apply list_elem_of_here|done].
        + destruct (Hcomplete vol' Hin) as (args & Ha & Hargs).
          { by apply (needs_repair_marked w w2 mlist _ _ Ho HR). }
          exists args. split; [by apply list_elem_of_further|].
          by rewrite <- !Hname. }
    split; [cbn [fmap list_fmap]; by constructor|].
    intros n. rewrite HR', HR. cbn [fmap list_fmap r_vol remount_args].
    destruct (decide (n = name_of w vol)) as [->|Hne].
    + rewrite (decide_True (P := _ ∈ _ :: _)) by apply list_elem_of_here.
      rewrite lookup_insert_eq. by destruct (decide _).
    + rewrite lookup_insert_ne by done.
      destruct (decide (n ∈ _ <$> gos)) as [Hin|Hnin].
      * rewrite decide_True; [done|]. by apply list_elem_of_further.
      * rewrite decide_False; [done|]. intros Hin.
        apply elem_of_cons in Hin as [?|?]; done.
  - rewrite (Hno Hneed).
    destruct (IH w fuel) as (gos & tr & R' & -> & Hlocks & Hsound & Hcomplete & Hnd & HR');
      [simpl in Hfuel; lia|].
    exists gos, tr, R'. split; [done|]. split; [done|].
    split.
    { intros args Ha. destruct (Hsound args Ha) as (Hin & Hn & Hargs).
      split; [by apply list_elem_of_further|done]. }
    split; [|done].
    intros vol' Hin Hn. apply elem_of_cons in Hin as [->|Hin]; [done|].
    by apply Hcomplete.
Qed.



(** ** [RemountVolume], pass by pass *)

Lemma run_remount_S env fuel args pc (w : World) :
  (∀ d err, pc ≠ RV_return d err) → pc ≠ RV_panic →
  run_remount env (S fuel) args pc w
  = let (pc1, w1) := remount_step env args pc w in
    run_remount env fuel args pc1 w1.
Proof. intros H1 H2. destruct pc; try done. by edestruct H1. Qed.

Lemma run_remount_return env fuel args d err (w : World) :
  run_remount env fuel args (RV_return d err) w = (RV_return d err, w).
Proof. by destruct fuel. Qed.

Lemma run_remount_panic env fuel args (w : World) :
  run_remount env fuel args RV_panic w = (RV_panic, w).
Proof. by destruct fuel. Qed.

Lemma Forall_probe_status volumeID sts :
  Forall is_probe (flat_map (status_not_ready volumeID) sts).
Proof. induction sts; [constructor|]. cbn. by repeat constructor. Qed.

Lemma Forall_probe_dial targetPortal errs :
  Forall is_probe (flat_map (dial_failed targetPortal) errs).
Proof. induction errs; [constructor|]. cbn. by repeat constructor. Qed.

(** One pass of [WaitForVolumeReadyAndReachable]: it goes on to the remount
    only from a status that is ready followed by a dial that succeeds. *)
Lemma remount_wait env args (w : World) :
  let v := default CSIVolume_zero (objects w !! r_vol args) in
  let (pc', w') := remount_step env args RV_wait w in
  ∃ tr, w' = with_log w tr ∧
    ((pc' = RV_wait ∧ Forall is_probe tr)
     ∨ (pc' = RV_remount ∧ ∃ pre st errs,
          tr = pre ++ [EvGetVolStatus (Name (Volume v)) (inr st)]
                   ++ flat_map (dial_failed (TargetPortal (ISCSI v))) errs
                   ++ [EvDial (TargetPortal (ISCSI v)) None]
          ∧ Forall is_probe pre ∧ ready st ∧ (length errs < 6)%nat)).
Proof.
  cbv zeta. cbn [remount_step]. unfold bind at 1, load at 1. unfold bind at 1.
  set (v := default CSIVolume_zero (objects w !! r_vol args)).
  pose proof (WaitForVolumeToBeReady_spec env (Name (Volume v)) w) as H1.
  destruct (WaitForVolumeToBeReady env (Name (Volume v)) w) as [r1 w1].
  destruct H1 as (sts & _ & _ & [(st & Hst & -> & ->)|[(e & -> & ->)|(st & _ & _ & -> & ->)]]).
  2,3: eexists; (split; [reflexivity|]); left; (split; [done|]);
       apply Forall_app; (split; [apply Forall_probe_status|by repeat constructor]).
  unfold bind at 1, load at 1. unfold bind at 1. cbn [objects with_log]. fold v.
  match goal with |- context [WaitForVolumeToBeReachable env ?p ?w1] =>
    pose proof (WaitForVolumeToBeReachable_spec env p w1) as H2;
    destruct (WaitForVolumeToBeReachable env p w1) as [r2 w2] end.
  destruct H2 as [(errs & Hl & -> & ->)|(errs & e & Hl & -> & ->)];
    rewrite with_log_app; eexists; (split; [reflexivity|]).
  - right. split; [done|]. exists (flat_map (status_not_ready (Name (Volume v))) sts), st, errs.
    split; [by rewrite <- !app_assoc|]. split; [apply Forall_probe_status|done].
  - left. split; [done|]. apply Forall_app. split.
    + apply Forall_app. split; [apply Forall_probe_status|by repeat constructor].
    + apply Forall_probe_dial.
Qed.

(** From the remount on. *)
Lemma run_remount_ops env fuel args (w : World) d err w' :
  run_remount env fuel args RV_remount w = (RV_return d err, w') →
  let v := default CSIVolume_zero (objects w !! r_vol args) in
  ∃ ops,
    w' = {| Volumes := Volumes w; objects := objects w;
            ReqMountList := delete (Name (Volume v)) (ReqMountList w);
            log := log w ++ ops ++ [EvLock ReqMountListLock;
                                    EvReqMountDelete (Name (Volume v));
                                    EvUnlock ReqMountListLock] |}
    ∧ (if r_exists args then
         d = "" ∧ ∃ mp uerr, r_mountPoint args = Some mp
           ∧ ops = [EvUnmount (Path mp) uerr;
                    EvMount (Device mp) (Path mp) "" ["rw"] err]
       else ops = [EvAttachAndMountDisk v (d, err)]).
Proof.
  cbv zeta. intros Hrun.
  destruct fuel as [|[|fuel]].
  - done.
  - rewrite run_remount_S in Hrun by done.
    destruct (remount_step env args RV_remount w) as [pc1 w1] eqn:Hs.
    cbn [remount_step] in Hs. destruct (r_exists args), (r_mountPoint args);
      reduce_in Hs; unfold ret in Hs; simplify_eq; by cbn in Hrun.
  - rewrite run_remount_S in Hrun by done.
    destruct (remount_step env args RV_remount w) as [pc1 w1] eqn:Hs.
    cbn [remount_step] in Hs.
    destruct (r_exists args) eqn:Hex; [destruct (r_mountPoint args) as [mp|] eqn:Hmp|];
      reduce_in Hs; unfold ret in Hs; simplify_eq.
    + rewrite run_remount_S in Hrun by done. reduce_in Hrun.
      rewrite run_remount_return in Hrun. simplify_eq.
      eexists. split; [|split; [done|]; by do 2 eexists].
      cbn. by rewrite <- !app_assoc.
    + rewrite run_remount_S in Hrun by done. reduce_in Hrun.
      rewrite run_remount_return in Hrun. simplify_eq.
      eexists. split; [|reflexivity].
      destruct (env_AttachAndMountDisk _ _ _). cbn. by rewrite <- !app_assoc.
Qed.

Lemma run_remount_wait env fuel args (w : World) d err w' :
  run_remount env fuel args RV_wait w = (RV_return d err, w') →
  let v := default CSIVolume_zero (objects w !! r_vol args) in
  let name := Name (Volume v) in
  let portal := TargetPortal (ISCSI v) in
  ∃ pre st errs ops,
    w' = {| Volumes := Volumes w; objects := objects w;
            ReqMountList := delete name (ReqMountList w);
            log := log w ++ pre ++ [EvGetVolStatus name (inr st)]
                     ++ flat_map (dial_failed portal) errs ++ [EvDial portal None]
                     ++ ops ++ [EvLock ReqMountListLock; EvReqMountDelete name;
                                EvUnlock ReqMountListLock] |}
    ∧ Forall is_probe pre ∧ ready st ∧ (length errs < 6)%nat
    ∧ (if r_exists args then
         d = "" ∧ ∃ mp uerr, r_mountPoint args = Some mp
           ∧ ops = [EvUnmount (Path mp) uerr;
                    EvMount (Device mp) (Path mp) "" ["rw"] err]
       else ops = [EvAttachAndMountDisk v (d, err)]).
Proof.
  cbv zeta. revert w. induction fuel as [|fuel IH]; intros w Hrun; [done|].
  rewrite run_remount_S in Hrun by done.
  pose proof (remount_wait env args w) as Hw. cbv zeta in Hw.
  destruct (remount_step env args RV_wait w) as [pc1 w1].
  destruct Hw as (tr & -> & [[-> Htr]|(-> & pre & st & errs & -> & Hpre & Hst & Hl)]).
  - destruct (IH _ Hrun) as (pre & st & errs & ops & -> & Hpre & Hst & Hl & Hops).
    cbn [objects Volumes ReqMountList log with_log] in *.
    exists (tr ++ pre), st, errs, ops.
    split; [by rewrite <- !app_assoc|]. split; [by apply Forall_app|done].
  - destruct (run_remount_ops env fuel args _ d err w' Hrun) as (ops & -> & Hops).
    cbn [objects Volumes ReqMountList log with_log] in *.
    exists pre, st, errs, ops. split; [by rewrite <- !app_assoc|done].
Qed.

Lemma RemountVolume_unfold env fuel args (w : World) :
  RemountVolume env fuel args w
  = let (pc, w') := run_remount env fuel args RV_wait w in
    (match pc with RV_return d err => Some (d, err) | _ => None end, w').
Proof.
  unfold RemountVolume, bind, ret. by destruct (run_remount env fuel args RV_wait w).
Qed.

(** X9. RemountVolume touches the mount only after a pass of its wait in which
    the volume was reported ready and then a dial to the portal succeeded:
    when it returns, its effects are probes, then that status and that
    dial with at most five failed dials in between, then the remount, then
    the removal of the volume from ReqMountList under ReqMountListLock, and
    nothing else. For a volume found in the mount table the remount is
    unmount then mount read-write of the device and path of the mount
    point; the result of the unmount is ignored, the result of the mount
    is returned with an empty device path. For a volume not found it is
    AttachAndMountDisk, whose results are returned. Registry and objects
    are as before. *)
Theorem RemountVolume_returns env fuel args (w : World) devicePath err :
  (RemountVolume env fuel args w).1 = Some (devicePath, err) →
  let w' := (RemountVolume env fuel args w).2 in
  let v := default CSIVolume_zero (objects w !! r_vol args) in
  let name := Name (Volume v) in
  let portal := TargetPortal (ISCSI v) in
  objects w' = objects w ∧ Volumes w' = Volumes w
  ∧ ReqMountList w' = delete name (ReqMountList w)
  ∧ ∃ pre st errs ops,
      trace_of w w'
      = pre ++ [EvGetVolStatus name (inr st)]
            ++ flat_map (dial_failed portal) errs ++ [EvDial portal None]
            ++ ops ++ [EvLock ReqMountListLock; EvReqMountDelete name;
                       EvUnlock ReqMountListLock]
      ∧ Forall is_probe pre ∧ ready st ∧ (length errs < 6)%nat
      ∧ (if r_exists args then
           devicePath = "" ∧ ∃ mp uerr, r_mountPoint args = Some mp
             ∧ ops = [EvUnmount (Path mp) uerr;
                      EvMount (Device mp) (Path mp) "" ["rw"] err]
         else ops = [EvAttachAndMountDisk v (devicePath, err)]).
Proof.
  cbv zeta. rewrite RemountVolume_unfold.
  destruct (run_remount env fuel args RV_wait w) as [pc w'] eqn:Hrun. cbn [fst snd].
  intros Hpc. destruct pc; simplify_eq.
  destruct (run_remount_wait env fuel args w _ _ _ Hrun)
    as (pre & st & errs & ops & -> & Hpre & Hst & Hl & Hops).
  cbn [objects Volumes ReqMountList]. split; [done|]. split; [done|]. split; [done|].
  exists pre, st, errs, ops. split; [by apply trace_of_app|done].
Qed.

(** The repair of the read-only mount of pvc-1. *)
Lemma RemountVolume_returns_witness :
  ReqMountList
    (RemountVolume (env_mounted "ro") 3
       {| r_exists := true; r_vol := O; r_mountPoint := Some (mount_pvc1 "ro");
          r_desiredMountOpt := "/var/lib/kubelet/pods/p1/mount" |}
       {| Volumes := {[ "pvc-1" := O ]}; objects := [with_DevicePath "/dev/sdb" vol1];
          ReqMountList := {[ "pvc-1" := true ]}; log := [] |}).2
  = delete "pvc-1" {[ "pvc-1" := true ]}.
Proof.
  refine (proj1 (proj2 (proj2
    (RemountVolume_returns (env_mounted "ro") 3 _ _ "" None _)))).
  vm_compute. reflexivity.
Defined.

(** ** The locks of [MonitorMounts] and [RemountVolume] *)

Lemma remount_step_locks env args pc (w : World) :
  ∃ tr, log (remount_step env args pc w).2 = log w ++ tr
    ∧ locks_run no_locks tr = Some no_locks.
Proof.
  destruct pc.
  - pose proof (remount_wait env args w) as H. cbv zeta in H.
    destruct (remount_step env args RV_wait w) as [pc' w'].
    destruct H as (tr & -> & [[_ Htr]|(_ & pre & st & errs & Htr & Hpre & _)]);
      exists tr; (split; [done|]); apply locks_run_probes; [done|].
    subst tr. apply Forall_app. split; [done|]. constructor; [done|].
    apply Forall_app. split; [apply Forall_probe_dial|by repeat constructor].
  - destruct (remount_step env args RV_remount w) as [pc' w'] eqn:Hs.
    cbn [remount_step] in Hs.
    destruct (r_exists args); [destruct (r_mountPoint args)|];
      reduce_in Hs; unfold ret in Hs; simplify_eq; cbn [snd log].
    + eexists [_; _]. by rewrite <- app_assoc.
    + exists []. by rewrite app_nil_r.
    + by eexists [_].
  - cbn. eexists [_; _; _]. by rewrite <- !app_assoc.
  - exists []. by rewrite app_nil_r.
  - exists []. by rewrite app_nil_r.
Qed.

Lemma run_remount_locks env fuel args pc (w : World) :
  ∃ tr, log (run_remount env fuel args pc w).2 = log w ++ tr
    ∧ locks_run no_locks tr = Some no_locks.
Proof.
  revert pc w. induction fuel as [|fuel IH]; intros pc w.
  { exists []. rewrite app_nil_r. by destruct pc. }
  assert ((∃ d err, pc = RV_return d err) ∨ pc = RV_panic
          ∨ ((∀ d err, pc ≠ RV_return d err) ∧ pc ≠ RV_panic)) as [(d & err & ->)|[->|[H1 H2]]].
  { destruct pc; eauto; right; right; done. }
  - exists []. by rewrite app_nil_r.
  - exists []. by rewrite app_nil_r.
  - rewrite run_remount_S by done.
    destruct (remount_step_locks env args pc w) as (tr1 & Hl1 & Hk1).
    destruct (remount_step env args pc w) as [pc1 w1]. cbn [snd] in Hl1.
    destruct (IH pc1 w1) as (tr2 & Hl2 & Hk2).
    exists (tr1 ++ tr2). split; [by rewrite Hl2, Hl1, app_assoc|].
    by rewrite locks_run_app, Hk1.
Qed.

(** X12. A tick of MonitorMounts and a run of RemountVolume, however far it
    gets, keep the locks in order: the tick holds VolumesListLock for
    reading from after it has read the mount table to its end, takes
    ReqMountListLock only around each write to ReqMountList, and calls
    nothing outside the process while it holds a lock; RemountVolume holds
    no lock while it waits, unmounts, mounts or attaches, and takes
    ReqMountListLock only around its delete from ReqMountList. *)
Theorem goroutines_lock_discipline env :
  (∀ order (w : World),
     lock_discipline (trace_of w (MonitorMounts_tick env order w).2))
  ∧ (∀ fuel args (w : World),
       lock_discipline (trace_of w (RemountVolume env fuel args w).2)).
Proof.
  unfold lock_discipline. split.
  - intros order w. unfold MonitorMounts_tick, bind. rewrite monitor_ticker. cbn [fst].
    set (mlist := env_mounterList env (log w)).
    destruct (monitor_range env mlist order
                (with_log w [EvMounterList mlist; EvRLock VolumesListLock])
                (3 * length order + 1))
      as (gos & tr & R' & -> & Hlocks & _); [done|].
    cbn [snd]. erewrite trace_of_app
      by (cbn [log with_log]; rewrite <- app_assoc; reflexivity).
    exact Hlocks.
  - intros fuel args w. rewrite RemountVolume_unfold.
    destruct (run_remount_locks env fuel args RV_wait w) as (tr & Hl & Hk).
    destruct (run_remount env fuel args RV_wait w) as [pc w']. cbn [snd] in *.
    by erewrite trace_of_app by done.
Qed.

(** ** [GetVolumeByName] *)

Lemma GetVolumeByName_range_spec volName order (w : World) :
  let (r, w') := GetVolumeByName_range volName order w in
  w' = w ∧
  match r with
  | Some vol =>
      ∃ pre post, order = pre ++ vol :: post ∧ name_of w vol = volName
        ∧ Forall (λ vol', name_of w vol' ≠ volName) pre
  | None => Forall (λ vol', name_of w vol' ≠ volName) order
  end.
Proof.
  induction order as [|vol order IH]; [by split|].
  cbn [GetVolumeByName_range]. unfold bind, load.
  fold (name_in (objects w) vol). fold (name_of w vol).
  destruct (decide (name_of w vol = volName)) as [Hn|Hn].
  - split; [done|]. by exists [], order.
  - destruct (GetVolumeByName_range volName order w) as [[vol'|] w'].
    + destruct IH as (-> & pre & post & -> & Hv & Hpre). split; [done|].
      exists (vol :: pre), post. split; [done|]. split; [done|]. by constructor.
    + destruct IH as (-> & IH). split; [done|]. by constructor.
Qed.

Section Names.

Variable env : Env.
Variable nodeID : string.

Lemma step_Names c l c' : step env nodeID c l c' → Inv c → Names c → Names c'.
Proof.
  unfold Names, name_of. intros Hstep HI [HK HN].
  destruct Hstep as [c req|c req|c i req pc pc' w' Hi _ Hrun
                    |c i req pc pc' w' Hi _ Hrun|c i args pc pc' w' Hi Hrun
                    |c order pc' a w' Horder Hrun];
    cbn [world monitor goroutines].
  - split; [done|]. intros i req' pc vol Hi. 
    apply lookup_app_Some in Hi as [Hi|[_ Hi]]; [by eapply HN|].
    apply list_lookup_singleton_Some in Hi as [_ Hi]. by simplify_eq.
  - split; [done|]. intros i req' pc vol Hi. 
    apply lookup_app_Some in Hi as [Hi|[_ Hi]]; [by eapply HN|].
    apply list_lookup_singleton_Some in Hi as [_ Hi]. by simplify_eq.
  - pose proof (publish_step_spec env nodeID req pc (world c)) as Hspec.
    pose proof (publish_entry_spec env nodeID req (world c)) as Hentry.
    rewrite Hrun in Hspec. destruct Hspec as (_ & HV & HO).
    assert (∀ vol, (vol < length (objects (world c)))%nat →
              name_in (objects w') vol = name_in (objects (world c)) vol) as Hsame.
    { intros vol Hvol. destruct pc.
      - destruct HO as [[_ [->|(v & -> & _)]]|(v & _ & -> & _)];
          [done|by apply name_in_app..].
      - by destruct HO as [-> _].
      - by destruct HO as [-> _].
      - by destruct HO as [-> _].
      - by destruct HO as [-> _].
      - destruct HO as [-> _]. apply name_in_alter.
      - by destruct HO as [-> _]. }
    assert (∀ j req' pc'' vol, goroutines c !! j = Some (GoPublish req' pc'') →
              publish_holds pc'' = Some vol → (vol < length (objects (world c)))%nat)
      as Hlt.
    { intros j req' pc'' vol Hj Hh.
      destruct (inv_pending _ _ _ _ _ _ HI j vol) as (v & Hv & _).
      - by rewrite list_lookup_fmap, Hj; cbn; rewrite Hh.
      - by eapply lookup_lt_Some. }
    split.
    + intros id vol Hid. destruct HV as [HV|(vol' & Hh & _ & HV)]; rewrite HV in Hid.
      * rewrite Hsame; [by apply HK|]. by eapply (inv_Volumes _ _ _ _ _ _ HI).
      * apply lookup_insert_Some in Hid as [[<- <-]|[_ Hid]].
        -- rewrite Hsame; [by eapply HN|by eapply Hlt].
        -- rewrite Hsame; [by apply HK|]. by eapply (inv_Volumes _ _ _ _ _ _ HI).
    + intros j req' pc'' vol Hj Hh.
      apply list_lookup_insert_Some in Hj as [(-> & Hj & _)|[Hne Hj]].
      * simplify_eq. destruct pc.
        -- rewrite Hrun in Hentry.
           destruct Hentry as (_ & _ & _ & _ & _ & [(? & ? & -> & _)|(v & -> & -> & _ & Hname & _)]);
             [done|]. cbn in Hh. simplify_eq. unfold name_in.
           by rewrite lookup_fresh.
        -- destruct HO as [_ [HO|HO]]; rewrite HO in Hh; [|done].
           rewrite Hsame; [by eapply HN|by eapply Hlt].
        -- destruct HO as [_ [HO|HO]]; rewrite HO in Hh; [|done].
           rewrite Hsame; [by eapply HN|by eapply Hlt].
        -- destruct HO as [_ [HO|HO]]; rewrite HO in Hh; [|done].
           rewrite Hsame; [by eapply HN|by eapply Hlt].
        -- destruct HO as [_ [HO|HO]]; rewrite HO in Hh; [|done].
           rewrite Hsame; [by eapply HN|by eapply Hlt].
        -- destruct HO as [_ HO]. by rewrite HO in Hh.
        -- destruct HO as [_ [HO|HO]]; rewrite HO in Hh; done.
      * rewrite Hsame; [by eapply HN|by eapply Hlt].
  - pose proof (unpublish_step_spec env req pc (world c)) as Hspec.
    rewrite Hrun in Hspec. destruct Hspec as (_ & -> & HV). split.
    + intros id vol Hid. destruct HV as [HV|HV]; rewrite HV in Hid; [by apply HK|].
      apply lookup_delete_Some in Hid as [_ Hid]. by apply HK.
    + intros j req' pc'' vol Hj Hh.
      apply list_lookup_insert_Some in Hj as [(-> & Hj & _)|[Hne Hj]]; [done|].
      by eapply HN.
  - pose proof (remount_step_spec env args pc (world c)) as Hspec.
    rewrite Hrun in Hspec. destruct Hspec as (-> & -> & _). split; [done|].
    intros j req' pc'' vol Hj Hh.
    apply list_lookup_insert_Some in Hj as [(-> & Hj & _)|[Hne Hj]]; [done|].
    by eapply HN.
  - pose proof (monitor_step_spec env order (monitor c) (world c)) as Hspec.
    rewrite Hrun in Hspec. destruct Hspec as (-> & -> & _). split; [done|].
    intros j req' pc'' vol Hj Hh.
    apply lookup_app_Some in Hj as [Hj|[_ Hj]]; [by eapply HN|].
    destruct a; cbn in Hj; [|done].
    apply list_lookup_singleton_Some in Hj as [_ Hj]. done.
Qed.

Lemma reachable_Names c : reachable env nodeID c → Names c.
Proof.
  induction 1 as [|c l c' Hc IH Hstep].
  - split; [intros id vol H|intros i req pc vol H]; cbn in H; [|done].
    by rewrite lookup_empty in H.
  - eapply step_Names; [done| |done]. by eapply reachable_Inv.
Qed.

End Names.

Lemma registry_values (w : World) order vol :
  order ≡ₚ (map_to_list (Volumes w)).*2 →
  vol ∈ order ↔ ∃ id, Volumes w !! id = Some vol.
Proof.
  intros ->. rewrite list_elem_of_fmap. split.
  - intros ([id vol'] & -> & H). exists id. by apply elem_of_map_to_list.
  - intros [id H]. exists (id, vol). split; [done|]. by apply elem_of_map_to_list.
Qed.

Lemma GetVolumeByName_spec order volName (w : World) :
  order ≡ₚ (map_to_list (Volumes w)).*2 →
  let (r, w') := GetVolumeByName order volName w in
  w' = w ∧
  match r with
  | inr vol => (∃ id, Volumes w !! id = Some vol) ∧ name_of w vol = volName
  | inl err =>
      err = "volume name " +:+ volName +:+ " does not exit in the volumes list"
      ∧ ∀ id vol, Volumes w !! id = Some vol → name_of w vol ≠ volName
  end.
Proof.
  intros Horder. unfold GetVolumeByName, bind.
  pose proof (GetVolumeByName_range_spec volName order w) as H.
  destruct (GetVolumeByName_range volName order w) as [[vol|] w'].
  - destruct H as (-> & pre & post & Ho & Hn & _). split; [done|]. split; [|done].
    apply (registry_values w order vol Horder). rewrite Ho. set_solver.
  - destruct H as (-> & Hall). split; [done|]. split; [done|].
    intros id vol Hid. rewrite Forall_forall in Hall. apply Hall.
    apply (registry_values w order vol Horder). by exists id.
Qed.

(** X4. [GetVolumeByName] searches the registry for a record by the name in the
    record, not by the key: what it returns is a record of the registry
    with that name, and it reports an error exactly when no record of the
    registry has the name. It takes no lock and changes nothing. *)
Theorem GetVolumeByName_finds_by_name order volName (w : World) :
  order ≡ₚ (map_to_list (Volumes w)).*2 →
  let (r, w') := GetVolumeByName order volName w in
  w' = w ∧
  match r with
  | inr vol => (∃ id, Volumes w !! id = Some vol) ∧ name_of w vol = volName
  | inl err =>
      err = "volume name " +:+ volName +:+ " does not exit in the volumes list"
      ∧ ∀ id vol, Volumes w !! id = Some vol → name_of w vol ≠ volName
  end.
Proof. apply GetVolumeByName_spec. Qed.

Lemma GetVolumeByName_finds_by_name_witness :
  let (r, w') := GetVolumeByName [O] "pvc-1" World_published in
  w' = World_published ∧
  match r with
  | inr vol =>
      (∃ id, Volumes World_published !! id = Some vol)
      ∧ name_of World_published vol = "pvc-1"
  | inl err =>
      err = "volume name " +:+ "pvc-1" +:+ " does not exit in the volumes list"
      ∧ ∀ id vol, Volumes World_published !! id = Some vol
                  → name_of World_published vol ≠ "pvc-1"
  end.
Proof.
  apply (GetVolumeByName_finds_by_name [O] "pvc-1" World_published).
  vm_compute. reflexivity.
Defined.

(** X6. In every state the node plugin can reach, each record of the registry
    sits under its own name, so no two volume ids share a record. *)
Theorem registry_keys_are_names env nodeID c :
  reachable env nodeID c →
  (∀ id vol, Volumes (world c) !! id = Some vol →
     ∃ v, objects (world c) !! vol = Some v ∧ Name (Volume v) = id)
  ∧ (∀ id id' vol, Volumes (world c) !! id = Some vol →
       Volumes (world c) !! id' = Some vol → id = id').
Proof.
  intros Hc. destruct (reachable_Names env nodeID c Hc) as [HK _].
  pose proof (reachable_Inv env nodeID c Hc) as HI. split.
  - intros id vol Hid. pose proof (inv_Volumes _ _ _ _ _ _ HI id vol Hid) as Hlt.
    apply lookup_lt_is_Some in Hlt as [v Hv]. exists v. split; [done|].
    specialize (HK id vol Hid). unfold name_of, name_in in HK. by rewrite Hv in HK.
  - intros id id' vol H1 H2. by rewrite <- (HK id vol H1), <- (HK id' vol H2).
Qed.

(** X5. In every state the node plugin can reach, [GetVolumeByName] gives what
    the lookup of the name as a key gives, in whatever order [range] walks
    the map. *)
Theorem GetVolumeByName_is_lookup env nodeID c order volName :
  reachable env nodeID c →
  order ≡ₚ (map_to_list (Volumes (world c))).*2 →
  GetVolumeByName order volName (world c)
  = (match Volumes (world c) !! volName with
     | Some vol => inr vol
     | None =>
         inl ("volume name " +:+ volName +:+ " does not exit in the volumes list")
     end, world c).
Proof.
  intros Hc Horder. destruct (reachable_Names env nodeID c Hc) as [HK _].
  pose proof (GetVolumeByName_spec order volName (world c) Horder) as H.
  destruct (GetVolumeByName order volName (world c)) as [[err|vol] w'].
  - destruct H as (-> & -> & Hno).
    destruct (Volumes (world c) !! volName) as [vol|] eqn:Hv; [|done].
    by destruct (Hno volName vol Hv (HK volName vol Hv)).
  - destruct H as (-> & [id Hid] & Hn).
    rewrite (HK id vol Hid) in Hn. subst id. by rewrite Hid.
Qed.

Lemma registry_keys_are_names_witness :
  ∃ v, objects (world Config_repairing) !! O = Some v ∧ Name (Volume v) = "pvc-1".
Proof.
  refine (proj1 (registry_keys_are_names env_ok "node-a" Config_repairing _) "pvc-1" O _).
  - apply last_config_reachable; [constructor|apply exec_all_run].
  - vm_compute. reflexivity.
Defined.

Lemma GetVolumeByName_is_lookup_witness :
  GetVolumeByName [O] "pvc-1" (world Config_repairing)
  = (inr O, world Config_repairing).
Proof.
  refine (GetVolumeByName_is_lookup env_ok "node-a" Config_repairing [O] "pvc-1" _ _).
  - apply last_config_reachable; [constructor|apply exec_all_run].
  - vm_compute. reflexivity.
Defined.

(** ** No [RemountVolume] dereferences a nil mount point *)

Lemma listContains_found_at mountPath mlist :
  found_at mountPath (listContains mountPath mlist).2 (listContains mountPath mlist).1.
Proof.
  induction mlist as [|info mlist IH]; [done|]. cbn [listContains].
  by destruct (decide (Path info = mountPath)).
Qed.

Lemma mountPath_app (os : list CSIVolume) v vol :
  (vol < length os)%nat →
  MountPath (Volume (default CSIVolume_zero ((os ++ [v]) !! vol)))
  = MountPath (Volume (default CSIVolume_zero (os !! vol))).
Proof. intros H. by rewrite lookup_app_l. Qed.

Lemma mountPath_alter (os : list CSIVolume) d vol vol' :
  MountPath (Volume (default CSIVolume_zero (alter (with_DevicePath d) vol os !! vol')))
  = MountPath (Volume (default CSIVolume_zero (os !! vol'))).
Proof.
  destruct (decide (vol = vol')) as [->|Hne].
  - rewrite list_lookup_alter_eq. by destruct (os !! vol').
  - by rewrite list_lookup_alter_ne.
Qed.

Section Spawned.

Variable env : Env.
Variable nodeID : string.

Lemma step_Spawned c l c' : step env nodeID c l c' → Inv c → Spawned c → Spawned c'.
Proof.
  unfold Spawned. intros Hstep HI [HM HG].
  destruct Hstep as [c req|c req|c i req pc pc' w' Hi _ Hrun
                    |c i req pc pc' w' Hi _ Hrun|c i args pc pc' w' Hi Hrun
                    |c order pc' a w' Horder Hrun];
    cbn [world monitor goroutines].
  - split; [done|]. intros i args pc Hi.
    apply lookup_app_Some in Hi as [Hi|[_ Hi]]; [by eapply HG|].
    by apply list_lookup_singleton_Some in Hi as [_ Hi].
  - split; [done|]. intros i args pc Hi.
    apply lookup_app_Some in Hi as [Hi|[_ Hi]]; [by eapply HG|].
    by apply list_lookup_singleton_Some in Hi as [_ Hi].
  - pose proof (publish_step_spec env nodeID req pc (world c)) as Hspec.
    rewrite Hrun in Hspec. destruct Hspec as (_ & _ & HO). split.
    + intros mlist rest vol ex mp Hm.
      assert (vol < length (objects (world c)))%nat as Hlt.
      { apply (inv_monitor _ _ _ _ _ _ HI).
        destruct Hm as [-> | ->]; apply list_elem_of_here. }
      assert (MountPath (Volume (default CSIVolume_zero (objects w' !! vol)))
              = MountPath (Volume (default CSIVolume_zero (objects (world c) !! vol))))
        as ->; [|by eapply HM].
      destruct pc.
      * destruct HO as [[_ [->|(v & -> & _)]]|(v & _ & -> & _)];
          [done|by apply mountPath_app..].
      * by destruct HO as [-> _].
      * by destruct HO as [-> _].
      * by destruct HO as [-> _].
      * by destruct HO as [-> _].
      * destruct HO as [-> _]. apply mountPath_alter.
      * by destruct HO as [-> _].
    + intros j args pc'' Hj.
      apply list_lookup_insert_Some in Hj as [(-> & Hj & _)|[Hne Hj]]; [done|].
      by eapply HG.
  - pose proof (unpublish_step_spec env req pc (world c)) as Hspec.
    rewrite Hrun in Hspec. destruct Hspec as (_ & -> & _). split; [done|].
    intros j args pc'' Hj.
    apply list_lookup_insert_Some in Hj as [(-> & Hj & _)|[Hne Hj]]; [done|].
    by eapply HG.
  - pose proof (remount_step_spec env args pc (world c)) as Hspec.
    rewrite Hrun in Hspec. destruct Hspec as (-> & _ & _). split; [done|].
    intros j args' pc'' Hj.
    apply list_lookup_insert_Some in Hj as [(-> & Hj & _)|[Hne Hj]]; [|by eapply HG].
    injection Hj as <- <-. destruct (HG _ _ _ Hi) as [Hpc Hf]. split; [|done].
    intros ->. destruct pc; try done.
    + pose proof (remount_wait env args (world c)) as Hw. cbv zeta in Hw.
      rewrite Hrun in Hw. by destruct Hw as (? & _ & [[? _]|[? _]]).
    + cbn [remount_step] in Hrun. unfold found_at in Hf.
      destruct (r_exists args), (r_mountPoint args); done.
  - destruct (monitor c) as [|mlist [|vol rest]|mlist rest vol ex mp|mlist rest vol ex mp]
      eqn:Hm.
    + rewrite monitor_ticker in Hrun. simplify_eq. cbn [spawned]. split.
      * by intros ? ? ? ? ? [?|?].
      * intros i args pc Hi. rewrite app_nil_r in Hi. by eapply HG.
    + change (monitor_step env order (MM_range mlist []) (world c))
        with ((MM_ticker, @None RemountArgs),
              with_log (world c) [EvRUnlock VolumesListLock]) in Hrun.
      simplify_eq. cbn [spawned]. split.
      * by intros ? ? ? ? ? [?|?].
      * intros i args pc Hi. rewrite app_nil_r in Hi. by eapply HG.
    + destruct (monitor_visit env order mlist vol rest (world c)) as [Hyes Hno].
      destruct (decide (needs_repair (world c) mlist vol)) as [Hn|Hn].
      * rewrite (Hyes Hn) in Hrun. simplify_eq. cbn [spawned]. split.
        -- intros ? ? ? ? ? [?|?]; simplify_eq.
           unfold remount_args. cbn [r_exists r_mountPoint].
           apply listContains_found_at.
        -- intros i args pc Hi. rewrite app_nil_r in Hi. by eapply HG.
      * rewrite (Hno Hn) in Hrun. simplify_eq. cbn [spawned]. split.
        -- by intros ? ? ? ? ? [?|?].
        -- intros i args pc Hi. rewrite app_nil_r in Hi. by eapply HG.
    + rewrite (proj1 (monitor_mark_go env order mlist rest vol ex mp (world c))) in Hrun.
      simplify_eq. cbn [spawned objects]. split.
      * intros ? ? ? ? ? [?|?]; simplify_eq. eapply HM. by left.
      * intros i args pc Hi. rewrite app_nil_r in Hi. by eapply HG.
    + rewrite (proj2 (monitor_mark_go env order mlist rest vol ex mp (world c))) in Hrun.
      cbv zeta in Hrun. simplify_eq. cbn [spawned objects with_log]. split.
      * by intros ? ? ? ? ? [?|?].
      * intros i args pc Hi.
        apply lookup_app_Some in Hi as [Hi|[_ Hi]]; [by eapply HG|].
        apply list_lookup_singleton_Some in Hi as [_ Hi]. simplify_eq.
        split; [done|]. cbn [r_exists r_mountPoint r_desiredMountOpt].
        eapply HM. by right.
Qed.

Lemma reachable_Spawned c : reachable env nodeID c → Spawned c.
Proof.
  induction 1 as [|c l c' Hc IH Hstep].
  - split; [by intros ? ? ? ? ? [?|?]|done].
  - eapply step_Spawned; [done| |done]. by eapply reachable_Inv.
Qed.

End Spawned.

(** X10. In every state the node plugin can reach, a RemountVolume that was
    told the volume is mounted was handed the mount point, whose path is
    the mount path it was handed, and one that was told it is not mounted
    was handed nil. So RemountVolume never dereferences a nil mount point:
    none of the goroutines is at the panic. *)
Theorem RemountVolume_never_panics env nodeID c i args pc :
  reachable env nodeID c →
  goroutines c !! i = Some (GoRemount args pc) →
  pc ≠ RV_panic
  ∧ (if r_exists args
     then ∃ mp, r_mountPoint args = Some mp ∧ Path mp = r_desiredMountOpt args
     else r_mountPoint args = None).
Proof.
  intros Hc Hi. destruct (reachable_Spawned env nodeID c Hc) as [_ HG].
  destruct (HG i args pc Hi) as [Hpc Hf]. split; [done|].
  unfold found_at in Hf.
  destruct (r_mountPoint args) as [mp|]; [destruct Hf as [-> Hp]; by exists mp|].
  by rewrite Hf.
Qed.

(** The repair of the read-only mount of pvc-1 was handed its mount
    point. *)
Lemma RemountVolume_never_panics_witness :
  RV_wait ≠ RV_panic
  ∧ ∃ mp, Some (mount_pvc1 "ro") = Some mp
          ∧ Path mp = "/var/lib/kubelet/pods/p1/mount".
Proof.
  refine (RemountVolume_never_panics (env_mounted "ro") "node-a" Config_remounting 1
            {| r_exists := true; r_vol := O; r_mountPoint := Some (mount_pvc1 "ro");
               r_desiredMountOpt := "/var/lib/kubelet/pods/p1/mount" |} RV_wait _ _).
  - apply last_config_reachable; [constructor|apply exec_all_run].
  - vm_compute. reflexivity.
Defined.

(** ** [ReqMountList] holds the repairs under way and nothing else *)

Lemma publish_step_names env nodeID req pc (w : World) vol :
  (vol < length (objects w))%nat →
  name_in (objects (publish_step env nodeID req pc w).2) vol = name_in (objects w) vol.
Proof.
  intros Hvol. pose proof (publish_step_spec env nodeID req pc w) as Hspec.
  destruct (publish_step env nodeID req pc w) as [pc' w']. cbn [snd].
  destruct Hspec as (_ & _ & HO). destruct pc.
  - destruct HO as [[_ [->|(v & -> & _)]]|(v & _ & -> & _)];
      [done|by apply name_in_app..].
  - by destruct HO as [-> _].
  - by destruct HO as [-> _].
  - by destruct HO as [-> _].
  - by destruct HO as [-> _].
  - destruct HO as [-> _]. apply name_in_alter.
  - by destruct HO as [-> _].
Qed.

Lemma existsb_repairing (w : World) n gs :
  existsb (repairing w n) gs = true
  ↔ ∃ i vol, (repairs <$> gs) !! i = Some (Some vol) ∧ name_of w vol = n.
Proof.
  rewrite existsb_exists. split.
  - intros (g & Hin & Hg). apply repairing_true in Hg as (vol & Hvol & Hname).
    apply list_elem_of_In, list_elem_of_lookup in Hin as [i Hi].
    exists i, vol. split; [|done]. by rewrite list_lookup_fmap, Hi, <- Hvol.
  - intros (i & vol & Hi & Hname). rewrite list_lookup_fmap in Hi.
    destruct (gs !! i) as [g|] eqn:Hg; [|done]. cbn in Hi. injection Hi as Hi.
    exists g. split; [eapply list_elem_of_In, list_elem_of_lookup_2; done|].
    unfold repairing. rewrite Hi. by apply bool_decide_eq_true.
Qed.

Section Marked.

Variable env : Env.
Variable nodeID : string.

Lemma step_Marked c l c' : step env nodeID c l c' → Inv c → Marked c → Marked c'.
Proof.
  unfold Marked, name_of. intros Hstep HI HB.
  destruct Hstep as [c req|c req|c i req pc pc' w' Hi _ Hrun
                    |c i req pc pc' w' Hi _ Hrun|c i args pc pc' w' Hi Hrun
                    |c order pc' a w' Horder Hrun];
    cbn [world monitor goroutines].
  - intros n b Hn. destruct (HB n b Hn) as [-> [(i & vol & Hi & Hname)|H]];
      (split; [done|]); [left|by right].
    exists i, vol. split; [|done]. rewrite fmap_app. by apply lookup_app_l_Some.
  - intros n b Hn. destruct (HB n b Hn) as [-> [(i & vol & Hi & Hname)|H]];
      (split; [done|]); [left|by right].
    exists i, vol. split; [|done]. rewrite fmap_app. by apply lookup_app_l_Some.
  - pose proof (publish_step_spec env nodeID req pc (world c)) as Hspec.
    pose proof (publish_step_names env nodeID req pc (world c)) as Hnames.
    rewrite Hrun in Hspec, Hnames. cbn [snd] in Hnames.
    destruct Hspec as (HR & _ & _). rewrite HR.
    assert (repairs <$> <[i := GoPublish req pc']> (goroutines c)
            = repairs <$> goroutines c) as ->.
    { rewrite list_fmap_insert. apply list_insert_id.
      by rewrite (lookup_repairs _ _ _ Hi). }
    intros n b Hn.
    destruct (HB n b Hn) as [-> [(j & vol & Hj & Hname)|(ml & r & vol & ex & mp & Hm & Hname)]];
      (split; [done|]); [left|right].
    + exists j, vol. split; [done|]. rewrite Hnames; [done|].
      by eapply (inv_repairs _ _ _ _ _ _ HI).
    + exists ml, r, vol, ex, mp. split; [done|]. rewrite Hnames; [done|].
      apply (inv_monitor _ _ _ _ _ _ HI). rewrite Hm. apply list_elem_of_here.
  - pose proof (unpublish_step_spec env req pc (world c)) as Hspec.
    rewrite Hrun in Hspec. destruct Hspec as (-> & -> & _).
    assert (repairs <$> <[i := GoUnpublish req pc']> (goroutines c)
            = repairs <$> goroutines c) as ->; [|done].
    rewrite list_fmap_insert. apply list_insert_id.
    by rewrite (lookup_repairs _ _ _ Hi).
  - pose proof (remount_step_spec env args pc (world c)) as Hspec.
    rewrite Hrun in Hspec. destruct Hspec as (-> & _ & HR).
    pose proof (lookup_repairs _ _ _ Hi) as Hr. unfold name_of in HR.
    assert ((∃ d err, pc = RV_clear d err) ∨ (∀ d err, pc ≠ RV_clear d err))
      as [(d & err & ->)|Hpc] by (destruct pc; eauto).
    + destruct HR as [-> HR]. rewrite HR. intros n b Hn.
      apply lookup_delete_Some in Hn as [Hne Hn].
      destruct (HB n b Hn) as [-> [(j & vol & Hj & Hname)|H]];
        (split; [done|]); [left|by right].
      exists j, vol. split; [|done]. rewrite list_fmap_insert.
      rewrite list_lookup_insert_ne; [done|]. intros <-.
      rewrite Hr in Hj. cbn in Hj. by simplify_eq.
    + assert (repairs <$> <[i := GoRemount args pc']> (goroutines c)
              = repairs <$> goroutines c) as ->.
      { rewrite list_fmap_insert. apply list_insert_id. rewrite Hr. f_equal.
        destruct pc; try (by edestruct Hpc).
        - destruct HR as [_ Hne]; destruct pc'; try done; by edestruct Hne.
        - destruct HR as [_ Hne]; destruct pc'; try done; by edestruct Hne.
        - by destruct HR as [-> _].
        - destruct HR as [_ Hne]; destruct pc'; try done; by edestruct Hne. }
      assert (ReqMountList w' = ReqMountList (world c)) as ->; [|done].
      destruct pc; try (by destruct HR); by edestruct Hpc.
  - destruct (monitor c) as [|mlist [|vol rest]|mlist rest vol ex mp|mlist rest vol ex mp]
      eqn:Hm.
    + rewrite monitor_ticker in Hrun. simplify_eq. cbn [spawned]. rewrite app_nil_r.
      intros n b Hn. destruct (HB n b Hn) as [-> [H|(? & ? & ? & ? & ? & ? & _)]];
        [|done]. split; [done|by left].
    + change (monitor_step env order (MM_range mlist []) (world c))
        with ((MM_ticker, @None RemountArgs),
              with_log (world c) [EvRUnlock VolumesListLock]) in Hrun.
      simplify_eq. cbn [spawned]. rewrite app_nil_r.
      intros n b Hn. destruct (HB n b Hn) as [-> [H|(? & ? & ? & ? & ? & ? & _)]];
        [|done]. split; [done|by left].
    + destruct (monitor_visit env order mlist vol rest (world c)) as [Hyes Hno].
      destruct (decide (needs_repair (world c) mlist vol)) as [Hneed|Hneed];
        [rewrite (Hyes Hneed) in Hrun|rewrite (Hno Hneed) in Hrun];
        simplify_eq; cbn [spawned]; rewrite app_nil_r;
        intros n b Hn; (destruct (HB n b Hn) as [-> [H|(? & ? & ? & ? & ? & ? & _)]];
        [|done]); (split; [done|by left]).
    + rewrite (proj1 (monitor_mark_go env order mlist rest vol ex mp (world c))) in Hrun.
      simplify_eq. cbn [spawned objects ReqMountList]. rewrite app_nil_r.
      intros n b Hn. apply lookup_insert_Some in Hn as [[<- <-]|[Hne Hn]].
      * split; [done|]. right. by exists mlist, rest, vol, ex, mp.
      * destruct (HB n b Hn) as [-> [H|(? & ? & ? & ? & ? & ? & _)]]; [|done].
        split; [done|by left].
    + rewrite (proj2 (monitor_mark_go env order mlist rest vol ex mp (world c))) in Hrun.
      cbv zeta in Hrun. simplify_eq. cbn [spawned objects ReqMountList with_log].
      intros n b Hn.
      destruct (HB n b Hn) as [-> [(j & vol' & Hj & Hname)
                                  |(ml & r & vol' & ex' & mp' & Hm' & Hname)]];
        (split; [done|]); left.
      * exists j, vol'. split; [|done]. rewrite fmap_app. by apply lookup_app_l_Some.
      * simplify_eq. exists (length (goroutines c)), vol'. split; [|done].
        rewrite fmap_app. cbn [fmap list_fmap repairs r_vol].
        rewrite <- (length_fmap repairs). apply lookup_fresh.
Qed.

Lemma reachable_Marked c : reachable env nodeID c → Marked c.
Proof.
  induction 1 as [|c l c' Hc IH Hstep].
  - intros n b H. cbn in H. by rewrite lookup_empty in H.
  - eapply step_Marked; [done| |done]. by eapply reachable_Inv.
Qed.

End Marked.

(** X11. In every state the node plugin can reach, ReqMountList holds exactly
    the names of the volumes with a repair under way, each with the value
    true: a name is in the map if and only if a RemountVolume for it is in
    flight or MonitorMounts stands at the go statement for it. No entry is
    left behind by a repair that has returned. *)
Theorem ReqMountList_exact env nodeID c n :
  reachable env nodeID c →
  ReqMountList (world c) !! n = if in_repair c n then Some true else None.
Proof.
  intros Hc. pose proof (reachable_Inv env nodeID c Hc) as HI.
  pose proof (reachable_Marked env nodeID c Hc) as HB.
  unfold in_repair.
  destruct (existsb (repairing (world c) n) (goroutines c)) eqn:He.
  { apply existsb_repairing in He as (i & vol & Hi & <-).
    by apply (inv_marked _ _ _ _ _ _ HI i vol). }
  destruct (monitor c) as [| | |mlist rest vol ex mp] eqn:Hm; cbn [orb].
  4: destruct (bool_decide (name_of (world c) vol = n)) eqn:Hd.
  4: { apply bool_decide_eq_true in Hd as <-.
       unfold Inv in HI. rewrite Hm in HI. by eapply (inv_go _ _ _ _ _ _ HI). }
  all: destruct (ReqMountList (world c) !! n) as [b|] eqn:Hn; [exfalso|done].
  all: destruct (HB n b Hn) as [_ [H|(ml & r & vol' & ex' & mp' & Hm' & Hname)]];
    [apply existsb_repairing in H; congruence|]; rewrite Hm in Hm'; try done.
  simplify_eq. by apply bool_decide_eq_false in Hd.
Qed.

Lemma ReqMountList_exact_witness :
  ReqMountList (world Config_repairing) !! "pvc-1"
  = if in_repair Config_repairing "pvc-1" then Some true else None.
Proof.
  apply (ReqMountList_exact env_ok "node-a").
  apply last_config_reachable; [constructor|apply exec_all_run].
Defined.

(** ** Stores and deletes of a record alternate *)

Lemma count_app f tr1 tr2 : count f (tr1 ++ tr2) = (count f tr1 + count f tr2)%nat.
Proof. induction tr1 as [|e tr1 IH]; [done|]. cbn. rewrite IH. lia. Qed.

Lemma no_registry_event_probes tr : Forall is_probe tr → no_registry_event tr.
Proof.
  intros H id. induction H as [|e tr He _ IH]; [done|].
  destruct IH as (? & ? & ?). by destruct e.
Qed.

Lemma no_registry_event_nil : no_registry_event [].
Proof. by intros id. Qed.

Ltac step_trace :=
  first [ exists []; split; [by rewrite app_nil_r|]
        | eexists; split; [cbn [log]; rewrite <- ?app_assoc; cbn [app]; reflexivity|] ].

Lemma publish_step_registry env nodeID req pc (w : World) :
  let (pc', w') := publish_step env nodeID req pc w in
  ∃ tr, log w' = log w ++ tr ∧
    ((Volumes w' = Volumes w ∧ no_registry_event tr)
     ∨ (∃ vol, publish_holds pc = Some vol
          ∧ Volumes w !! VolumeId req = None
          ∧ Volumes w' = <[VolumeId req := vol]> (Volumes w)
          ∧ ∀ id, count (stores id) tr = (if decide (VolumeId req = id) then 1 else 0)%nat
                  ∧ count (deletes id) tr = O
                  ∧ count (creates id) tr
                    = (if decide (name_of w vol = id) then 1 else 0)%nat)).
Proof.
  assert (pc = NPV_entry ∨ pc ≠ NPV_entry) as [->|Hpc] by (destruct pc; auto).
  { pose proof (publish_entry_spec env nodeID req w) as H.
    destruct (publish_step env nodeID req NPV_entry w) as [pc' w'].
    destruct H as (tr & Hlog & Hp & HV & _). exists tr. split; [done|]. left.
    split; [done|]. by apply no_registry_event_probes. }
  destruct (publish_step env nodeID req pc w) as [pc' w'] eqn:Hrun.
  destruct pc; [done|..]; run_exec Hrun; simplify_eq; step_trace;
    cbn [Volumes].
  all: try (left; split; [done|]; intros id; by cbn [count stores deletes creates]).
  right. exists vol. split; [done|]. split; [done|]. split; [done|].
  intros id. cbn [count stores deletes creates]. unfold name_of, name_in.
  rewrite !(bool_decide_decide (_ = id)).
  split; [by destruct (decide _)|]. split; [done|]. by destruct (decide _).
Qed.

Lemma unpublish_step_registry env req pc (w : World) :
  let (pc', w') := unpublish_step env req pc w in
  ∃ tr, log w' = log w ++ tr ∧
    ((Volumes w' = Volumes w ∧ no_registry_event tr)
     ∨ (is_Some (Volumes w !! UnpublishVolumeId req)
        ∧ Volumes w' = delete (UnpublishVolumeId req) (Volumes w)
        ∧ ∀ id, count (stores id) tr = O
                ∧ count (deletes id) tr
                  = (if decide (UnpublishVolumeId req = id) then 1 else 0)%nat
                ∧ count (creates id) tr = O)).
Proof.
  destruct (unpublish_step env req pc w) as [pc' w'] eqn:Hrun.
  destruct pc; run_exec Hrun; simplify_eq; step_trace; cbn [Volumes].
  all: try (left; split; [done|]; intros id; by cbn [count stores deletes creates]).
  right. split; [by eexists|]. split; [done|]. intros id. cbn [count stores deletes creates].
  rewrite !(bool_decide_decide (_ = id)). split; [done|]. split; [|done].
  destruct (decide (UnpublishVolumeId req = id)); reflexivity.
Qed.

Lemma remount_step_registry env args pc (w : World) :
  ∃ tr, log (remount_step env args pc w).2 = log w ++ tr ∧ no_registry_event tr.
Proof.
  destruct pc.
  - pose proof (remount_wait env args w) as H. cbv zeta in H.
    destruct (remount_step env args RV_wait w) as [pc' w'].
    destruct H as (tr & -> & [[_ Htr]|(_ & pre & st & errs & Htr & Hpre & _)]);
      exists tr; (split; [done|]); apply no_registry_event_probes; [done|].
    subst tr. apply Forall_app. split; [done|]. constructor; [done|].
    apply Forall_app. split; [apply Forall_probe_dial|by repeat constructor].
  - destruct (remount_step env args RV_remount w) as [pc' w'] eqn:Hs.
    cbn [remount_step] in Hs.
    destruct (r_exists args); [destruct (r_mountPoint args)|];
      reduce_in Hs; unfold ret in Hs; simplify_eq; cbn [snd log].
    + eexists [_; _]. by rewrite <- app_assoc.
    + exists []. by rewrite app_nil_r.
    + by eexists [_].
  - cbn. eexists [_; _; _]. by rewrite <- !app_assoc.
  - exists []. by rewrite app_nil_r.
  - exists []. by rewrite app_nil_r.
Qed.

Lemma monitor_step_registry env order pc (w : World) :
  ∃ tr, log (monitor_step env order pc w).2 = log w ++ tr ∧ no_registry_event tr.
Proof.
  destruct pc as [|mlist [|vol rest]|mlist rest vol ex mp|mlist rest vol ex mp].
  - rewrite monitor_ticker. by eexists [_; _].
  - by eexists [_].
  - destruct (monitor_visit env order mlist vol rest w) as [Hyes Hno].
    destruct (decide (needs_repair w mlist vol)) as [Hn|Hn];
      [rewrite (Hyes Hn)|rewrite (Hno Hn)]; exists []; by rewrite app_nil_r.
  - rewrite (proj1 (monitor_mark_go env order mlist rest vol ex mp w)). by eexists [_; _; _].
  - rewrite (proj2 (monitor_mark_go env order mlist rest vol ex mp w)). by eexists [_].
Qed.

Section Alternating.

Variable env : Env.
Variable nodeID : string.

Lemma Alternating_quiet (c : Config) (w' : World) tr m gs :
  Alternating c → log w' = log (world c) ++ tr → Volumes w' = Volumes (world c) →
  no_registry_event tr →
  Alternating {| world := w'; monitor := m; goroutines := gs |}.
Proof.
  intros HA Hlog HV Hq id. cbn [world]. rewrite Hlog, HV, !count_app.
  destruct (HA id) as [H1 H2]. destruct (Hq id) as (-> & -> & ->). lia.
Qed.

Lemma step_Alternating c l c' :
  step env nodeID c l c' → Names c → Alternating c → Alternating c'.
Proof.
  intros Hstep [_ HN] HA.
  destruct Hstep as [c req|c req|c i req pc pc' w' Hi _ Hrun
                    |c i req pc pc' w' Hi _ Hrun|c i args pc pc' w' Hi Hrun
                    |c order pc' a w' Horder Hrun].
  - exact HA.
  - exact HA.
  - pose proof (publish_step_registry env nodeID req pc (world c)) as H.
    rewrite Hrun in H.
    destruct H as (tr & Hlog & [[HV Hq]|(vol & Hh & Hnone & HV & Hcount)]).
    { by eapply Alternating_quiet. }
    intros id. cbn [world]. rewrite Hlog, HV, !count_app.
    destruct (HA id) as [H1 H2]. destruct (Hcount id) as (-> & -> & ->).
    rewrite (HN i req pc vol Hi Hh).
    destruct (decide (VolumeId req = id)) as [<-|Hne].
    + rewrite lookup_insert_eq. rewrite Hnone in H1. lia.
    + rewrite lookup_insert_ne by done. lia.
  - pose proof (unpublish_step_registry env req pc (world c)) as H.
    rewrite Hrun in H.
    destruct H as (tr & Hlog & [[HV Hq]|([vol Hvol] & HV & Hcount)]).
    { by eapply Alternating_quiet. }
    intros id. cbn [world]. rewrite Hlog, HV, !count_app.
    destruct (HA id) as [H1 H2]. destruct (Hcount id) as (-> & -> & ->).
    destruct (decide (UnpublishVolumeId req = id)) as [<-|Hne].
    + rewrite lookup_delete_eq. rewrite Hvol in H1. lia.
    + rewrite lookup_delete_ne by done. lia.
  - pose proof (remount_step_registry env args pc (world c)) as (tr & Hlog & Hq).
    pose proof (remount_step_spec env args pc (world c)) as Hspec.
    rewrite Hrun in Hlog, Hspec. destruct Hspec as (_ & HV & _).
    by eapply Alternating_quiet.
  - pose proof (monitor_step_registry env order (monitor c) (world c)) as (tr & Hlog & Hq).
    pose proof (monitor_step_spec env order (monitor c) (world c)) as Hspec.
    rewrite Hrun in Hlog, Hspec. destruct Hspec as (_ & HV & _).
    by eapply Alternating_quiet.
Qed.

Lemma reachable_Alternating c : reachable env nodeID c → Alternating c.
Proof.
  induction 1 as [|c l c' Hc IH Hstep]; [done|].
  eapply step_Alternating; [done| |done]. by eapply reachable_Names.
Qed.

End Alternating.

(** X19. In every state the node plugin can reach, and for every volume: the
    log holds as many stores of a record for the volume as deletes, and
    one more while the volume has a record in the registry; and as many
    CSIVolume CRs created with success for the volume as stores. So stores
    and deletes of the record of a volume alternate, and however many
    NodePublishVolume for one volume run at the same time, CreateCSIVolumeCR
    succeeds for it once at most until NodeUnpublishVolume has taken the
    record out. *)
Theorem registry_history_alternates env nodeID c volumeID :
  reachable env nodeID c →
  count (stores volumeID) (log (world c))
  = (count (deletes volumeID) (log (world c))
     + if Volumes (world c) !! volumeID is Some _ then 1 else 0)%nat
  ∧ count (creates volumeID) (log (world c))
    = count (stores volumeID) (log (world c)).
Proof. intros Hc. by apply (reachable_Alternating env nodeID c Hc). Qed.

Lemma registry_history_alternates_witness :
  count (creates "pvc-1") (log (world Config_repairing))
  = count (stores "pvc-1") (log (world Config_repairing)).
Proof.
  apply (registry_history_alternates env_ok "node-a").
  apply last_config_reachable; [constructor|apply exec_all_run].
Defined.

(** ** Where a device path comes from *)


Section Attached.

Variable env : Env.
Variable nodeID : string.




End Attached.


